(** * Accident and emergency simulation: a discrete-event model of
      [accident_and_emergency_sim.py]

    The script drives SimPy: an [Environment] (clock and event heap), one
    [Resource] (the department's attendance capacity) and two generator
    functions, [Person.visit_a_and_e] and
    [AccidentEmergencyDepartment.process_patient].  SimPy is imported by the
    script, so its [Environment], [Process], [Timeout] and [Resource] are
    modelled here the way the library runs them:

    - the heap holds tuples (time, priority, event id, event) and [step] pops
      the least one; [URGENT] is 0 and [NORMAL] is 1;
    - [env.process(g)] schedules an [Initialize] event, [URGENT], delay 0;
    - [env.timeout(d)] raises [ValueError] when [d < 0] and otherwise
      schedules itself, [NORMAL], delay [d];
    - an exhausted generator schedules its own [Process] event, [NORMAL];
    - [Resource.request()] appends to [put_queue] and runs [_trigger_put];
      [Resource.release(r)] removes [r] from [users] at once and schedules a
      [Release] event whose callback is [_trigger_put];
    - a process that yields an event is resumed when that event is popped.

    Simulated time is a Python float; it is modelled by exact rationals and
    the random draws are supplied by an oracle indexed by the number of draws
    made so far.  The theorems are about this exact arithmetic: where a
    float sum rounds, a recorded duration can differ from the exact one in
    its last bits, so durations are compared with zero and with each other,
    never with the exact value of a draw. *)

From Stdlib Require Import List ZArith QArith Qround Lia Lqa Bool String
  Permutation Sorted Arith.
Import ListNotations.

Set Implicit Arguments.

(** ** Constants of the script *)

Definition december_2022_attendence : Q := 2283000.
Definition uk_population : Q := 67100000.
Definition mean_monthly_attendence_per_person : Q :=
  december_2022_attendence / uk_population.
Definition seconds_in_month : Q := 60 * 60 * 24 * (365 / 12).

(** ** Data model *)

(** A [Person] object is identified by its index in the creation loop
    ([list.remove] compares objects by identity). *)
Definition Person := nat.

(** A [Request] event of the resource, with the two locals ([patient],
    [patient_arrival_time]) of the [process_patient] generator that created
    it and yields on it; [rid] stands for the object's identity. *)
Record Request := mkRequest {
  rid : nat;
  req_patient : Person;
  req_arrival : Q
}.

(** The events that reach the heap, each with the callback it carries. *)
Inductive Event :=
| Initialize_visit (self : Person)      (* start of visit_a_and_e *)
| Timeout_visit (self : Person)         (* line 95: resumes visit_a_and_e *)
| Initialize_patient (patient : Person) (* start of process_patient *)
| Request_granted (r : Request)         (* line 62: resumes process_patient *)
| Timeout_doctor (r : Request)          (* line 66: resumes process_patient *)
| Release                               (* callback: Resource._trigger_put *)
| Process_end                           (* exhausted generator, no callback *)
| Until.                                (* callback: StopSimulation *)

Definition URGENT : Z := 0.
Definition NORMAL : Z := 1.

Record Item := mkItem {
  due : Q;
  priority : Z;
  seq_no : nat;
  event : Event
}.

Record Sim := mkSim {
  (* simpy.Environment *)
  now : Q;
  queue : list Item;
  eid : nat;
  (* simpy.Resource *)
  capacity : Z;
  users : list Request;
  put_queue : list Request;
  next_request : nat;
  (* AccidentEmergencyDepartment *)
  waiting_room : list Person;
  (* numpy's random stream: number of draws made *)
  draws : nat;
  (* accident_and_emergency_queue_data *)
  queue_length : list nat;
  queue_admittance_time_days : list Q;
  (* patient_wait_time_data *)
  patient_name : list string;
  admittance_time_days : list Q;
  wait_time_hrs : list Q
}.

(** ** The event heap *)

(** Python's tuple order on (time, priority, event id). *)
Definition item_ltb (a b : Item) : bool :=
  match due a ?= due b with
  | Lt => true
  | Gt => false
  | Eq => match (priority a ?= priority b)%Z with
          | Lt => true
          | Gt => false
          | Eq => (seq_no a <? seq_no b)%nat
          end
  end.

(** [heappop]: the least item and the remaining ones. *)
Fixpoint heappop (q : list Item) : option (Item * list Item) :=
  match q with
  | [] => None
  | a :: q' =>
      match heappop q' with
      | None => Some (a, [])
      | Some (m, r) => if item_ltb m a then Some (m, a :: r) else Some (a, q')
      end
  end.

(** ** State updates *)

Definition set_now (t : Q) (s : Sim) : Sim :=
  mkSim t (queue s) (eid s) (capacity s) (users s) (put_queue s)
    (next_request s) (waiting_room s) (draws s) (queue_length s)
    (queue_admittance_time_days s) (patient_name s) (admittance_time_days s)
    (wait_time_hrs s).

Definition set_queue (q : list Item) (s : Sim) : Sim :=
  mkSim (now s) q (eid s) (capacity s) (users s) (put_queue s)
    (next_request s) (waiting_room s) (draws s) (queue_length s)
    (queue_admittance_time_days s) (patient_name s) (admittance_time_days s)
    (wait_time_hrs s).

(** [Environment.schedule]: push (now + delay, priority, next eid, event). *)
Definition schedule (e : Event) (prio : Z) (delay : Q) (s : Sim) : Sim :=
  mkSim (now s) (queue s ++ [mkItem (now s + delay) prio (eid s) e])
    (S (eid s)) (capacity s) (users s) (put_queue s)
    (next_request s) (waiting_room s) (draws s) (queue_length s)
    (queue_admittance_time_days s) (patient_name s) (admittance_time_days s)
    (wait_time_hrs s).

Definition set_resource (us pq : list Request) (s : Sim) : Sim :=
  mkSim (now s) (queue s) (eid s) (capacity s) us pq
    (next_request s) (waiting_room s) (draws s) (queue_length s)
    (queue_admittance_time_days s) (patient_name s) (admittance_time_days s)
    (wait_time_hrs s).

Definition set_next_request (n : nat) (s : Sim) : Sim :=
  mkSim (now s) (queue s) (eid s) (capacity s) (users s) (put_queue s)
    n (waiting_room s) (draws s) (queue_length s)
    (queue_admittance_time_days s) (patient_name s) (admittance_time_days s)
    (wait_time_hrs s).

Definition set_waiting_room (w : list Person) (s : Sim) : Sim :=
  mkSim (now s) (queue s) (eid s) (capacity s) (users s) (put_queue s)
    (next_request s) w (draws s) (queue_length s)
    (queue_admittance_time_days s) (patient_name s) (admittance_time_days s)
    (wait_time_hrs s).

Definition next_draw (s : Sim) : Sim :=
  mkSim (now s) (queue s) (eid s) (capacity s) (users s) (put_queue s)
    (next_request s) (waiting_room s) (S (draws s)) (queue_length s)
    (queue_admittance_time_days s) (patient_name s) (admittance_time_days s)
    (wait_time_hrs s).

(** Lines 57-58: the two appends of the arrival sample. *)
Definition record_arrival (s : Sim) : Sim :=
  mkSim (now s) (queue s) (eid s) (capacity s) (users s) (put_queue s)
    (next_request s) (waiting_room s) (draws s)
    (queue_length s ++ [List.length (waiting_room s)])
    (queue_admittance_time_days s ++ [now s / 3600 / 24])
    (patient_name s) (admittance_time_days s) (wait_time_hrs s).

(** Lines 75-77: the three appends of the completion sample. *)
Definition record_completion (nm : string) (patient_arrival_time patient_wait_time : Q)
    (s : Sim) : Sim :=
  mkSim (now s) (queue s) (eid s) (capacity s) (users s) (put_queue s)
    (next_request s) (waiting_room s) (draws s) (queue_length s)
    (queue_admittance_time_days s)
    (patient_name s ++ [nm])
    (admittance_time_days s ++ [patient_arrival_time / 3600 / 24])
    (wait_time_hrs s ++ [patient_wait_time / 3600]).

(** ** The resource *)

(** [Resource.__init__]: a capacity that is not positive raises
    [ValueError]. *)
Definition Resource_init (cap : Z) : option Z :=
  if (cap <=? 0)%Z then None else Some cap.

(** [Resource._trigger_put] with [Resource._do_put]: the head of [put_queue]
    is granted when a slot is free; [_do_put] returns nothing, so the loop
    stops after the head whether or not it was granted. *)
Definition trigger_put (s : Sim) : Sim :=
  match put_queue s with
  | [] => s
  | r :: rest =>
      if (Z.of_nat (List.length (users s)) <? capacity s)%Z
      then schedule (Request_granted r) NORMAL 0
             (set_resource (users s ++ [r]) rest s)
      else s
  end.

(** [Resource.request()] followed by the [yield] of line 62: the new request
    joins [put_queue] and [_trigger_put] runs. *)
Definition request (patient : Person) (patient_arrival_time : Q) (s : Sim) : Sim :=
  let r := mkRequest (next_request s) patient patient_arrival_time in
  trigger_put
    (set_next_request (S (next_request s))
       (set_resource (users s) (put_queue s ++ [r]) s)).

(** [users.remove(request)], tolerant of an absent request as [_do_get]
    is. *)
Fixpoint remove_request (r : Request) (l : list Request) : list Request :=
  match l with
  | [] => []
  | x :: l' => if (rid x =? rid r)%nat then l' else x :: remove_request r l'
  end.

(** [Resource.release(request)]: [_do_get] frees the slot at once and the
    [Release] event succeeds. *)
Definition release (r : Request) (s : Sim) : Sim :=
  schedule Release NORMAL 0
    (set_resource (remove_request r (users s)) (put_queue s) s).

(** ** Processes *)

(** [env.timeout(delay)]. *)
Definition timeout (delay : Q) (e : Event) (s : Sim) : option Sim :=
  if Qlt_le_dec delay 0 then None else Some (schedule e NORMAL delay s).

(** [env.process(generator)]. *)
Definition process (e : Event) (s : Sim) : Sim := schedule e URGENT 0 s.

(** The generator is exhausted: its [Process] event is scheduled. *)
Definition generator_end (s : Sim) : Sim := schedule Process_end NORMAL 0 s.

(** [Person.live_life]. *)
Definition live_life (self : Person) (s : Sim) : Sim :=
  process (Initialize_visit self) s.

(** [list.remove(x)]: drops the first occurrence, [ValueError] when there is
    none. *)
Fixpoint list_remove (x : Person) (l : list Person) : option (list Person) :=
  match l with
  | [] => None
  | y :: l' =>
      if (y =? x)%nat then Some l'
      else match list_remove x l' with
           | Some r => Some (y :: r)
           | None => None
           end
  end.

(** The statements of [process_patient] that follow the doctor's timeout,
    in the order of the source. *)
Inductive Statement :=
| Release_capacity   (* line 68: self.attendance_capacity.release(...) *)
| Wait_time          (* line 71: patient_wait_time = self.env.now - ... *)
| Live_life          (* line 73: patient.live_life() *)
| Save_data          (* lines 75-77: the three appends *)
| Return.            (* the end of the generator *)

Definition discharge_statements : list Statement :=
  [Release_capacity; Wait_time; Live_life; Save_data; Return].

(** An exception raised inside a generator fails its process, and [step]
    raises it again when the event of the failed process is popped; the
    model ends the run at the raise. *)
Inductive Outcome :=
| Continue (s : Sim)         (* the loop of [run] goes on *)
| StopSimulation (s : Sim)   (* the [until] event fired *)
| EmptySchedule (s : Sim)    (* the heap is empty *)
| ValueError.                (* an exception left the run *)

Definition continue (o : option Sim) : Outcome :=
  match o with
  | Some s => Continue s
  | None => ValueError
  end.

Section Simulation.

(** The random sources: the value of the draw made after [k] earlier
    draws, and the names given to the persons. *)
Variable exponential : Q -> nat -> Q.
Variable triangular : Q -> Q -> Q -> nat -> Q.
Variable get_full_name : nat -> string.

(** [visit_a_and_e] up to its [yield] (lines 94-95). *)
Definition visit_a_and_e (self : Person) (s : Sim) : option Sim :=
  let time_until_next_health_scare :=
    exponential (1 / mean_monthly_attendence_per_person) (draws s)
    * seconds_in_month in
  timeout time_until_next_health_scare (Timeout_visit self) (next_draw s).

(** [visit_a_and_e] after its [yield] (line 97), to its end. *)
Definition visit_a_and_e_resume (self : Person) (s : Sim) : Sim :=
  generator_end (process (Initialize_patient self) s).

(** [process_patient] up to the [yield] of line 62 (lines 52-62). *)
Definition process_patient (patient : Person) (s : Sim) : Sim :=
  let patient_arrival_time := now s in
  let s1 := set_waiting_room (waiting_room s ++ [patient]) s in
  let s2 := record_arrival s1 in
  request patient patient_arrival_time s2.

(** [process_patient] from the grant to the [yield] of line 66
    (lines 64-66). *)
Definition process_patient_granted (r : Request) (s : Sim) : option Sim :=
  match list_remove (req_patient r) (waiting_room s) with
  | None => None
  | Some w =>
      timeout (triangular 300 1200 3600 (draws s)) (Timeout_doctor r)
        (next_draw (set_waiting_room w s))
  end.

(** One statement of that block, run on the simulation and on the local
    [patient_wait_time]. *)
Definition exec (r : Request) (st : Statement) (c : Sim * Q) : Sim * Q :=
  let (s, patient_wait_time) := c in
  match st with
  | Release_capacity => (release r s, patient_wait_time)
  | Wait_time => (s, now s - req_arrival r)
  | Live_life => (live_life (req_patient r) s, patient_wait_time)
  | Save_data =>
      (record_completion (get_full_name (req_patient r)) (req_arrival r)
         patient_wait_time s, patient_wait_time)
  | Return => (generator_end s, patient_wait_time)
  end.

Definition exec_all (r : Request) (l : list Statement) (c : Sim * Q)
    : Sim * Q :=
  fold_left (fun c st => exec r st c) l c.

(** [process_patient] after the doctor's timeout, to its end
    (lines 68-77): its statements, one after the other. *)
Definition process_patient_discharge (r : Request) (s : Sim) : Sim :=
  fst (exec_all r discharge_statements (s, 0)).

(** The callbacks of a popped event. *)
Definition fire (e : Event) (s : Sim) : Outcome :=
  match e with
  | Initialize_visit p => continue (visit_a_and_e p s)
  | Timeout_visit p => Continue (visit_a_and_e_resume p s)
  | Initialize_patient p => Continue (process_patient p s)
  | Request_granted r => continue (process_patient_granted r s)
  | Timeout_doctor r => Continue (process_patient_discharge r s)
  | Release => Continue (trigger_put s)
  | Process_end => Continue s
  | Until => StopSimulation s
  end.

(** [Environment.step]. *)
Definition step (s : Sim) : Outcome :=
  match heappop (queue s) with
  | None => EmptySchedule s
  | Some (it, q) => fire (event it) (set_now (due it) (set_queue q s))
  end.

(** The [while True: self.step()] of [Environment.run], cut at [fuel]
    iterations. *)
Fixpoint run_loop (fuel : nat) (s : Sim) : Outcome :=
  match fuel with
  | O => Continue s
  | S f =>
      match step s with
      | Continue s' => run_loop f s'
      | o => o
      end
  end.

(** The events the first [fuel] iterations of that loop pop, in the order
    they are popped. *)
Fixpoint fired (fuel : nat) (s : Sim) : list Item :=
  match fuel with
  | O => []
  | S f =>
      match heappop (queue s) with
      | None => []
      | Some (it, _) =>
          it :: match step s with
                | Continue s' => fired f s'
                | _ => []
                end
      end
  end.

(** ** The script *)

Definition Environment_init (cap : Z) : Sim :=
  mkSim 0 [] 0 cap [] [] 0 [] 0 [] [] [] [] [].

(** [AccidentEmergencyDepartment(env, capacity)]. *)
Definition AccidentEmergencyDepartment_init (cap : Z) : option Sim :=
  match Resource_init cap with
  | None => None
  | Some c => Some (Environment_init c)
  end.

(** Lines 111-114: [Person.__init__] ends with [live_life]. *)
Definition create_patients (local_population_size : nat) (s : Sim) : Sim :=
  fold_left (fun st person => live_life person st)
    (seq 0 local_population_size) s.

(** The head of [Environment.run(until)]: a horizon that is not in the
    future raises [ValueError]; otherwise the stop event is scheduled. *)
Definition run_until (until : Q) (s : Sim) : option Sim :=
  if Qlt_le_dec (now s) until
  then Some (schedule Until URGENT (until - now s) s)
  else None.

(** The script up to the run loop, for a capacity, a population size and
    a horizon (2, 100000 and one month in the script). *)
Definition setup (cap : Z) (local_population_size : nat) (until : Q)
    : option Sim :=
  match AccidentEmergencyDepartment_init cap with
  | None => None
  | Some s => run_until until (create_patients local_population_size s)
  end.

Definition main (cap : Z) (local_population_size : nat) (until : Q)
    (fuel : nat) : Outcome :=
  match setup cap local_population_size until with
  | None => ValueError
  | Some s => run_loop fuel s
  end.

(** The script as it stands: lines 105, 110 and 117. *)
Definition local_population_size : nat := Z.to_nat 100000.

Definition accident_and_emergency_sim (fuel : nat) : Outcome :=
  main 2 local_population_size (seconds_in_month * 1) fuel.

(** The states of a run: the one at the entry of the loop and those after
    each step. *)
Inductive reachable (cap : Z) (n : nat) (until : Q) : Sim -> Prop :=
| reachable_setup : forall s,
    setup cap n until = Some s -> reachable cap n until s
| reachable_step : forall s s',
    reachable cap n until s -> step s = Continue s' ->
    reachable cap n until s'.

End Simulation.

(** ** Views of a state used by the invariants *)

(** The requests whose process sits between its grant and its release:
    one [Request_granted] or [Timeout_doctor] event each. *)
Definition served (i : Item) : list Request :=
  match event i with
  | Request_granted r => [r]
  | Timeout_doctor r => [r]
  | _ => []
  end.

(** The requests that are granted and whose process is not resumed yet. *)
Definition granted (i : Item) : list Request :=
  match event i with
  | Request_granted r => [r]
  | _ => []
  end.

(** The requests whose process sleeps in the doctor's timeout. *)
Definition with_doctor (i : Item) : list Request :=
  match event i with
  | Timeout_doctor r => [r]
  | _ => []
  end.

(** The person whose arrival process an event starts or resumes. *)
Definition arriving (i : Item) : list Person :=
  match event i with
  | Initialize_visit p => [p]
  | Timeout_visit p => [p]
  | _ => []
  end.

(** The person whose service process an event starts or resumes. *)
Definition visiting (i : Item) : list Person :=
  match event i with
  | Initialize_patient p => [p]
  | Request_granted r => [req_patient r]
  | Timeout_doctor r => [req_patient r]
  | _ => []
  end.

(** The service processes that have recorded their arrival and not yet
    their completion. *)
Definition in_flight (s : Sim) : list Request :=
  put_queue s ++ flat_map served (queue s).

(** The persons with a service process that waits for the resource or
    holds it. *)
Definition patients (s : Sim) : list Person :=
  map req_patient (put_queue s) ++ flat_map visiting (queue s).

(** Every live process of the script, by the person it belongs to. *)
Definition agents (s : Sim) : list Person :=
  flat_map arriving (queue s) ++ patients s.

(** [later s s']: the run goes from [s] to [s'] in some number of steps. *)
Inductive later (stp : Sim -> Outcome) (s : Sim) : Sim -> Prop :=
| later_now : later stp s s
| later_step : forall s1 s2,
    later stp s s1 -> stp s1 = Continue s2 -> later stp s s2.

(** [A] is ahead of [B] in a queue. *)
Definition ahead (A B : Request) (q : list Request) : Prop :=
  exists l1 l2 l3, q = l1 ++ A :: l2 ++ B :: l3.

(** The item [step] pops from a state, the items it leaves, and the request
    an event resumes. *)
Definition popped (s : Sim) : Item :=
  match heappop (queue s) with
  | Some (it, _) => it
  | None => mkItem 0 NORMAL 0%nat Process_end
  end.

Definition unpopped (s : Sim) : list Item :=
  match heappop (queue s) with
  | Some (_, q) => q
  | None => []
  end.

Definition request_of (e : Event) : Request :=
  match e with
  | Request_granted r => r
  | Timeout_doctor r => r
  | _ => mkRequest 0%nat 0%nat 0
  end.

(** The runs used in the examples: one month, every inter-arrival draw a
    millionth of the scale unit, every service 600 seconds. *)
Definition demo_exponential (scale : Q) (k : nat) : Q := 1 # 1000000.
Definition demo_triangular (lo mode hi : Q) (k : nat) : Q := 600.
Definition demo_name (person : nat) : string := "Alex Doe"%string.

Definition demo_run (cap : Z) (n fuel : nat) : Outcome :=
  main demo_exponential demo_triangular demo_name cap n seconds_in_month fuel.

Definition demo_state (cap : Z) (n fuel : nat) : Sim :=
  match demo_run cap n fuel with
  | Continue s => s
  | _ => Environment_init cap
  end.

(** ** Invariants of a run *)

(** The resource never holds more users than its capacity. *)
Definition capacity_inv (s : Sim) : Prop :=
  (0 < capacity s)%Z /\ (Z.of_nat (List.length (users s)) <= capacity s)%Z.

(** Requests in flight are distinct objects, all created already, and the
    users of the resource are the requests between grant and release. *)
Definition request_inv (s : Sim) : Prop :=
  NoDup (map rid (in_flight s)) /\
  Forall (fun r => (rid r < next_request s)%nat) (in_flight s) /\
  Permutation (users s) (flat_map served (queue s)).

(** The waiting room holds the patients whose request is pending and those
    whose request is granted while their process is not resumed yet. *)
Definition waiting_room_inv (s : Sim) : Prop :=
  Permutation (waiting_room s)
    (map req_patient (put_queue s ++ flat_map granted (queue s))).

(** Arrival samples are the completion samples plus the visits in flight;
    the columns of each table have one length. *)
Definition conservation_inv (s : Sim) : Prop :=
  List.length (queue_length s) =
    (List.length (wait_time_hrs s) + List.length (in_flight s))%nat /\
  List.length (queue_admittance_time_days s) = List.length (queue_length s) /\
  List.length (patient_name s) = List.length (wait_time_hrs s) /\
  List.length (admittance_time_days s) = List.length (wait_time_hrs s).

(** Each person of the population owns exactly one live process. *)
Definition agents_inv (n : nat) (s : Sim) : Prop :=
  Permutation (agents s) (seq 0 n).

(** What an event in the heap knows about the clock. *)
Definition event_clock (t : Q) (i : Item) : Prop :=
  t <= due i /\
  match event i with
  | Request_granted r => req_arrival r <= due i /\ due i == t
  | Timeout_doctor r => req_arrival r < due i
  | _ => True
  end.

(** The clock never passes a pending event, and no request was made in the
    future. *)
Definition clock_inv (s : Sim) : Prop :=
  Forall (event_clock (now s)) (queue s) /\
  Forall (fun r => req_arrival r <= now s) (put_queue s).

(** Event ids are fresh and distinct. *)
Definition eid_inv (s : Sim) : Prop :=
  Forall (fun i => (seq_no i < eid s)%nat) (queue s) /\
  NoDup (map seq_no (queue s)).


(** The arrival time kept by a visit in flight is the one its arrival
    sample recorded. *)
Definition arrival_inv (s : Sim) : Prop :=
  Forall (fun r => In (req_arrival r / 3600 / 24) (queue_admittance_time_days s))
    (in_flight s).


(** The stop event of [run] stays in the heap, urgent and due at the
    horizon; any other event is urgent or normal, is no stop event, and is
    due before the horizon or was created after the stop event. *)
Definition horizon_inv (until : Q) (s : Sim) : Prop :=
  exists u,
    In u (queue s) /\ event u = Until /\ priority u = URGENT /\
    due u == until /\ (seq_no u < eid s)%nat /\
    Forall (fun i =>
              i = u \/
              (event i <> Until /\
               (priority i = URGENT \/ priority i = NORMAL) /\
               (due i < until \/ (seq_no u < seq_no i)%nat)))
           (queue s).


(** ** A measure of the work left before the horizon *)

(** The number of services, each of 300 seconds at least, that fit between
    a time [lb] and the horizon. *)
Definition budget (until lb : Q) : Z :=
  Z.max 0 (Qceiling ((until - lb) / 300)).

(** What an event in the heap can still cause when the clock reads [t]: a
    process that has its service ahead may run through it and through
    [budget] more visits; an event without callback costs its own step. *)
Definition item_potential (until t : Q) (i : Item) : Z :=
  match event i with
  | Initialize_visit _ => 8 * budget until (t + 300) + 5
  | Timeout_visit _ => 8 * budget until (t + 300) + 4
  | Initialize_patient _ => 8 * budget until (t + 300) + 2
  | Request_granted _ => 8 * budget until (t + 300) + 1
  | Timeout_doctor _ => 8 * budget until (due i)
  | Release => 1
  | Process_end => 1
  | Until => 0
  end%Z.

Fixpoint sumZ (l : list Z) : Z :=
  match l with
  | [] => 0
  | x :: l' => x + sumZ l'
  end%Z.

Definition potential (until : Q) (s : Sim) : Z :=
  (sumZ (map (item_potential until (now s)) (queue s)) +
   Z.of_nat (List.length (put_queue s)) * (8 * budget until (now s + 300) + 1))%Z.

(** A bound on the number of steps of a run of [n] persons. *)
Definition step_bound (n : nat) (until : Q) : nat :=
  S (n * Z.to_nat (8 * budget until 300 + 5)).


(** ** Invariants of the tables and of the service *)

(** The arrival table is in time order, between the start and the clock,
    and every arrival time of the completion table is one of its rows. *)
Definition arrivals_inv (s : Sim) : Prop :=
  StronglySorted Qle (queue_admittance_time_days s) /\
  Forall (fun t => 0 <= t /\ t <= now s / 3600 / 24)
    (queue_admittance_time_days s) /\
  incl (admittance_time_days s) (queue_admittance_time_days s).


(** With a slot for every person: nothing is pending, and a grant is due
    at the arrival of its visit. *)
Definition no_queue_inv (s : Sim) : Prop :=
  put_queue s = [] /\
  Forall (fun i => forall r, event i = Request_granted r ->
                             req_arrival r == due i) (queue s).


(** The [Release] events of the heap. *)
Definition releases (i : Item) : list Item :=
  match event i with
  | Release => [i]
  | _ => []
  end.

(** A [Release] event is due at the current time, and while a request is
    pending every free slot is matched by a [Release] event yet to fire. *)
Definition work_inv (s : Sim) : Prop :=
  Forall (fun i => event i = Release -> due i == now s) (queue s) /\
  (put_queue s <> [] ->
   (capacity s - Z.of_nat (List.length (users s)) <=
    Z.of_nat (List.length (flat_map releases (queue s))))%Z).


(** The pending requests stand in the order they were made: by creation
    and by arrival time. *)
Definition queue_order_inv (s : Sim) : Prop :=
  StronglySorted lt (map rid (put_queue s)) /\
  StronglySorted Qle (map req_arrival (put_queue s)).


(** A run with the horizon at 700 seconds: the states of its loop and the
    state it hands back. *)
Definition short_state (fuel : nat) : Sim :=
  match main demo_exponential demo_triangular demo_name 2 2 700 fuel with
  | Continue s => s
  | _ => Environment_init 2
  end.

Definition short_stop (fuel : nat) : Sim :=
  match main demo_exponential demo_triangular demo_name 2 2 700 fuel with
  | StopSimulation s => s
  | _ => Environment_init 2
  end.


(** ** Two arrangements of the same heap *)

(** Two states that hold the same pending events, however their heaps
    arrange them, and agree on everything else. *)
Definition similar (s s2 : Sim) : Prop :=
  Permutation (queue s) (queue s2) /\ set_queue [] s = set_queue [] s2.

Definition outcome_similar (o o2 : Outcome) : Prop :=
  match o, o2 with
  | Continue s, Continue s2 => similar s s2
  | StopSimulation s, StopSimulation s2 => similar s s2
  | EmptySchedule s, EmptySchedule s2 => similar s s2
  | ValueError, ValueError => True
  | _, _ => False
  end.

(** ** The heap pops a least item *)

Unset Implicit Arguments.

(** The block of statements, run through. *)
Lemma process_patient_discharge_eq : forall nm r s,
  process_patient_discharge nm r s =
  generator_end
    (record_completion (nm (req_patient r)) (req_arrival r)
       (now (release r s) - req_arrival r)
       (live_life (req_patient r) (release r s))).
Proof. intros nm r s. reflexivity. Qed.

Lemma heappop_perm : forall q x r,
  heappop q = Some (x, r) -> Permutation q (x :: r).
Proof.
  induction q as [|a q IH]; intros x r H; simpl in H; [discriminate|].
  destruct (heappop q) as [[m r']|] eqn:E.
  - specialize (IH _ _ eq_refl).
    destruct (item_ltb m a); inversion H; subst; clear H.
    + rewrite IH. apply perm_swap.
    + reflexivity.
  - destruct q; [|simpl in E; destruct (heappop q) as [[? ?]|];
                  [destruct (item_ltb i0 i)|]; discriminate].
    inversion H; subst. reflexivity.
Qed.

Lemma heappop_none : forall q, heappop q = None -> q = [].
Proof.
  destruct q as [|a q]; intros H; [reflexivity|].
  simpl in H. destruct (heappop q) as [[m r]|]; [|discriminate].
  destruct (item_ltb m a); discriminate.
Qed.

Lemma item_ltb_false_due : forall m a, item_ltb m a = false -> due a <= due m.
Proof.
  intros m a H. unfold item_ltb in H.
  destruct (due m ?= due a) eqn:E.
  - apply Qeq_alt in E. rewrite E. apply Qle_refl.
  - discriminate.
  - apply Qgt_alt in E. apply Qlt_le_weak. exact E.
Qed.

Lemma item_ltb_true_due : forall m a, item_ltb m a = true -> due m <= due a.
Proof.
  intros m a H. unfold item_ltb in H.
  destruct (due m ?= due a) eqn:E.
  - apply Qeq_alt in E. rewrite E. apply Qle_refl.
  - apply Qlt_alt in E. apply Qlt_le_weak. exact E.
  - discriminate.
Qed.

Lemma heappop_due_min : forall q x r,
  heappop q = Some (x, r) -> Forall (fun y => due x <= due y) r.
Proof.
  induction q as [|a q IH]; intros x r H; simpl in H; [discriminate|].
  destruct (heappop q) as [[m r']|] eqn:E.
  - specialize (IH _ _ eq_refl).
    destruct (item_ltb m a) eqn:L; inversion H; subst; clear H.
    + constructor; [apply item_ltb_true_due; exact L | exact IH].
    + apply item_ltb_false_due in L.
      rewrite (@heappop_perm _ _ _ E).
      constructor; [exact L|].
      eapply Forall_impl; [|exact IH]. simpl. intros y Hy.
      eapply Qle_trans; eassumption.
  - inversion H; subst. constructor.
Qed.

Lemma flat_map_perm : forall (A B : Type) (f : A -> list B) l l',
  Permutation l l' -> Permutation (flat_map f l) (flat_map f l').
Proof.
  intros A B f l l' H. induction H; simpl.
  - constructor.
  - apply Permutation_app_head. exact IHPermutation.
  - rewrite !app_assoc. apply Permutation_app_tail. apply Permutation_app_comm.
  - etransitivity; eassumption.
Qed.

Lemma heappop_flat_map : forall (B : Type) (f : Item -> list B) q x r,
  heappop q = Some (x, r) ->
  Permutation (flat_map f q) (f x ++ flat_map f r).
Proof.
  intros B f q x r H. apply heappop_perm in H.
  apply (flat_map_perm _ _ f) in H. exact H.
Qed.

Lemma flat_map_nil : forall (A B : Type) (f : A -> list B) l,
  (forall x, In x l -> f x = []) -> flat_map f l = [].
Proof.
  intros A B f l H. induction l as [|a l IH]; simpl; [reflexivity|].
  rewrite (H a (or_introl eq_refl)). simpl. apply IH.
  intros x Hx. apply H. right. exact Hx.
Qed.

Lemma flat_map_snoc : forall (A B : Type) (f : A -> list B) l x,
  flat_map f (l ++ [x]) = flat_map f l ++ f x.
Proof.
  intros. rewrite flat_map_app. simpl. rewrite app_nil_r. reflexivity.
Qed.

(** ** Reading a step *)

Section Invariants.

Variable exponential : Q -> nat -> Q.
Variable triangular : Q -> Q -> Q -> nat -> Q.
Variable get_full_name : nat -> string.

Local Abbreviation Step := (step exponential triangular get_full_name).
Local Abbreviation Fire := (fire exponential triangular get_full_name).
Local Abbreviation Reachable := (reachable exponential triangular get_full_name).

Lemma step_inv : forall s s',
  Step s = Continue s' ->
  exists it q, heappop (queue s) = Some (it, q) /\
               Fire (event it) (set_now (due it) (set_queue q s)) = Continue s'.
Proof.
  intros s s' H. unfold Step, step in H.
  destruct (heappop (queue s)) as [[it q]|] eqn:E; [|discriminate].
  exists it, q. split; [reflexivity | exact H].
Qed.

Lemma continue_inv : forall o s', continue o = Continue s' -> o = Some s'.
Proof. intros [s|] s' H; simpl in H; congruence. Qed.

Lemma timeout_inv : forall d e s s',
  timeout d e s = Some s' -> 0 <= d /\ s' = schedule e NORMAL d s.
Proof.
  intros d e s s' H. unfold timeout in H.
  destruct (Qlt_le_dec d 0); [discriminate|].
  inversion H; subst. split; [assumption | reflexivity].
Qed.

(** The three ways [_trigger_put] ends. *)
Lemma trigger_put_cases : forall s,
  (put_queue s = [] /\ trigger_put s = s) \/
  (exists r rest, put_queue s = r :: rest /\
      (capacity s <= Z.of_nat (List.length (users s)))%Z /\
      trigger_put s = s) \/
  (exists r rest, put_queue s = r :: rest /\
      (Z.of_nat (List.length (users s)) < capacity s)%Z /\
      trigger_put s =
        schedule (Request_granted r) NORMAL 0
          (set_resource (users s ++ [r]) rest s)).
Proof.
  intros s. unfold trigger_put.
  destruct (put_queue s) as [|r rest]; [left; split; reflexivity|].
  right.
  destruct (Z.of_nat (List.length (users s)) <? capacity s)%Z eqn:E.
  - right. exists r, rest. apply Z.ltb_lt in E. repeat split; assumption.
  - left. exists r, rest. apply Z.ltb_ge in E. repeat split; assumption.
Qed.

Lemma reachable_ind_inv : forall (P : Sim -> Prop) cap n until,
  (forall s, setup cap n until = Some s -> P s) ->
  (forall s s', Reachable cap n until s -> P s -> Step s = Continue s' -> P s') ->
  forall s, Reachable cap n until s -> P s.
Proof.
  intros P cap n until H0 HS s R. induction R; eauto.
Qed.

Lemma reachable_run_loop : forall cap n until fuel s0 s,
  Reachable cap n until s0 ->
  run_loop exponential triangular get_full_name fuel s0 = Continue s ->
  Reachable cap n until s.
Proof.
  intros cap n until fuel. induction fuel as [|f IH]; intros s0 s R H.
  - simpl in H. inversion H; subst. exact R.
  - simpl in H.
    destruct (step exponential triangular get_full_name s0) as [s1| | |] eqn:E;
      try discriminate.
    apply (IH s1 s); [|exact H].
    eapply reachable_step; eassumption.
Qed.

Lemma reachable_main : forall cap n until fuel s,
  main exponential triangular get_full_name cap n until fuel = Continue s ->
  Reachable cap n until s.
Proof.
  intros cap n until fuel s H. unfold main in H.
  destruct (setup cap n until) as [s0|] eqn:E; [|discriminate].
  eapply reachable_run_loop; [|exact H].
  apply reachable_setup. exact E.
Qed.

(** The fields the creation loop leaves alone. *)
Lemma create_patients_frame : forall n s,
  let s' := create_patients n s in
  now s' = now s /\ capacity s' = capacity s /\ users s' = users s /\
  put_queue s' = put_queue s /\ waiting_room s' = waiting_room s /\
  next_request s' = next_request s /\ draws s' = draws s /\
  queue_length s' = queue_length s /\
  queue_admittance_time_days s' = queue_admittance_time_days s /\
  patient_name s' = patient_name s /\
  admittance_time_days s' = admittance_time_days s /\
  wait_time_hrs s' = wait_time_hrs s.
Proof.
  intros n s. unfold create_patients. generalize 0%nat. revert s.
  induction n as [|n IH]; intros s k; simpl.
  - repeat split.
  - specialize (IH (live_life k s) (S k)). simpl in IH. exact IH.
Qed.

Lemma create_patients_queue : forall n s,
  queue (create_patients n s) =
  queue s ++ map (fun p => mkItem (now s + 0) URGENT (eid s + p) (Initialize_visit p))
               (seq 0 n).
Proof.
  intros n s. unfold create_patients.
  assert (G : forall k st,
    queue (fold_left (fun st person => live_life person st) (seq k n) st) =
    queue st ++ map (fun p => mkItem (now st + 0) URGENT (eid st + (p - k))
                                (Initialize_visit p)) (seq k n) /\
    True).
  { induction n as [|n IH]; intros k st; simpl.
    - rewrite app_nil_r. split; reflexivity.
    - destruct (IH (S k) (live_life k st)) as [IHq _]. rewrite IHq. simpl.
      rewrite <- app_assoc. simpl. split; [|exact I].
      f_equal. f_equal.
      + rewrite Nat.sub_diag, Nat.add_0_r. reflexivity.
      + apply map_ext_in. intros p Hp. apply in_seq in Hp.
        f_equal. lia. }
  destruct (G 0%nat s) as [Gq _]. rewrite Gq. f_equal.
  apply map_ext. intros p. rewrite Nat.sub_0_r. reflexivity.
Qed.

Lemma setup_inv : forall cap n until s,
  setup cap n until = Some s ->
  (0 < cap)%Z /\ 0 < until /\
  s = schedule Until URGENT (until - 0)
        (create_patients n (Environment_init cap)).
Proof.
  intros cap n until s H. unfold setup, AccidentEmergencyDepartment_init,
    Resource_init in H.
  destruct (cap <=? 0)%Z eqn:E; [discriminate|]. apply Z.leb_gt in E.
  unfold run_until in H.
  destruct (create_patients_frame n (Environment_init cap)) as [Hn _].
  destruct (Qlt_le_dec _ until) as [L|L]; [|discriminate].
  inversion H; subst. rewrite Hn in *. simpl in *.
  repeat split; assumption.
Qed.

(** ** The capacity invariant *)

Lemma remove_request_length : forall r l,
  (List.length (remove_request r l) <= List.length l)%nat.
Proof.
  intros r l. induction l as [|x l IH]; simpl; [lia|].
  destruct (rid x =? rid r)%nat; simpl; lia.
Qed.

Lemma trigger_put_capacity : forall s, capacity_inv s -> capacity_inv (trigger_put s).
Proof.
  intros s [Hc Hu].
  destruct (trigger_put_cases s) as [[_ E]|[(r & rest & _ & _ & E)|(r & rest & _ & L & E)]];
    rewrite E; try (split; assumption).
  unfold capacity_inv. simpl. rewrite length_app. simpl. split; lia.
Qed.

Lemma capacity_inv_setup : forall cap n until s,
  setup cap n until = Some s -> capacity_inv s.
Proof.
  intros cap n until s H. apply setup_inv in H. destruct H as (Hc & _ & ->).
  destruct (create_patients_frame n (Environment_init cap))
    as (_ & Hcap & Hus & _).
  unfold capacity_inv. simpl. rewrite Hcap, Hus. simpl. lia.
Qed.

Lemma capacity_inv_step : forall s s',
  capacity_inv s -> Step s = Continue s' -> capacity_inv s'.
Proof.
  intros s s' Hinv H. apply step_inv in H. destruct H as (it & q & _ & H).
  assert (Hinv0 : capacity_inv (set_now (due it) (set_queue q s))) by exact Hinv.
  revert H Hinv0. generalize (set_now (due it) (set_queue q s)). intros s0 H H0.
  destruct (event it); simpl in H.
  - apply continue_inv in H. unfold visit_a_and_e in H.
    apply timeout_inv in H. destruct H as [_ ->]. exact H0.
  - inversion H; subst. exact H0.
  - inversion H; subst. unfold process_patient, request.
    apply trigger_put_capacity. exact H0.
  - apply continue_inv in H. unfold process_patient_granted in H.
    destruct (list_remove _ _); [|discriminate].
    apply timeout_inv in H. destruct H as [_ ->]. exact H0.
  - inversion H; subst. destruct H0 as [Hc Hu].
    unfold capacity_inv. simpl. split; [exact Hc|].
    pose proof (remove_request_length r (users s0)). lia.
  - inversion H; subst. apply trigger_put_capacity. exact H0.
  - inversion H; subst. exact H0.
  - discriminate.
Qed.

Lemma capacity_inv_reachable : forall cap n until s,
  Reachable cap n until s -> capacity_inv s.
Proof.
  intros cap n until. apply reachable_ind_inv.
  - apply capacity_inv_setup.
  - intros s s' _. apply capacity_inv_step.
Qed.

(** ** Requests are distinct and the users are the served requests *)

Lemma in_flight_pop : forall s it q,
  heappop (queue s) = Some (it, q) ->
  Permutation (in_flight s)
    (served it ++ in_flight (set_now (due it) (set_queue q s))).
Proof.
  intros s it q E. unfold in_flight. simpl.
  rewrite (heappop_flat_map _ served _ _ _ E).
  rewrite !app_assoc. apply Permutation_app_tail. apply Permutation_app_comm.
Qed.

Lemma remove_request_perm : forall r l,
  NoDup (map rid l) -> In r l -> Permutation l (r :: remove_request r l).
Proof.
  intros r l. induction l as [|x l IH]; intros ND HI; [destruct HI|].
  simpl. destruct (rid x =? rid r)%nat eqn:E.
  - apply Nat.eqb_eq in E. destruct HI as [->|HI]; [reflexivity|].
    exfalso. inversion ND; subst. apply H1. rewrite E.
    apply in_map. exact HI.
  - apply Nat.eqb_neq in E. destruct HI as [->|HI]; [congruence|].
    inversion ND; subst. rewrite perm_swap. constructor. apply IH; assumption.
Qed.

Lemma request_inv_pop : forall s it q,
  request_inv s -> heappop (queue s) = Some (it, q) ->
  let s0 := set_now (due it) (set_queue q s) in
  NoDup (map rid (served it ++ in_flight s0)) /\
  Forall (fun r => (rid r < next_request s0)%nat) (served it ++ in_flight s0) /\
  Permutation (users s0) (served it ++ flat_map served (queue s0)).
Proof.
  intros s it q (ND & FA & US) E s0.
  pose proof (in_flight_pop s it q E) as P. fold s0 in P.
  split; [|split].
  - rewrite <- P. exact ND.
  - rewrite <- P. exact FA.
  - subst s0. simpl. rewrite US. apply heappop_flat_map. exact E.
Qed.

Lemma schedule_request_inv : forall e p d s,
  served (mkItem (now s + d) p (eid s) e) = [] ->
  request_inv s -> request_inv (schedule e p d s).
Proof.
  intros e p d s Hs (ND & FA & US).
  unfold request_inv, in_flight in *. simpl.
  rewrite flat_map_snoc, Hs, app_nil_r. repeat split; assumption.
Qed.

Lemma trigger_put_request_inv : forall s,
  request_inv s -> request_inv (trigger_put s).
Proof.
  intros s Hinv.
  destruct (trigger_put_cases s) as [[_ E]|[(r & rest & _ & _ & E)|(r & rest & Hq & L & E)]];
    rewrite E; try exact Hinv.
  destruct Hinv as (ND & FA & US).
  unfold request_inv, in_flight in *. simpl. rewrite Hq in *.
  rewrite flat_map_snoc. simpl served.
  assert (P : Permutation (rest ++ flat_map served (queue s) ++ [r])
                          ((r :: rest) ++ flat_map served (queue s))).
  { simpl. rewrite app_assoc. symmetry. apply Permutation_cons_append. }
  split; [|split].
  - rewrite P. exact ND.
  - rewrite P. exact FA.
  - rewrite US. reflexivity.
Qed.

Lemma request_request_inv : forall p t s,
  request_inv s -> request_inv (request p t s).
Proof.
  intros p t s (ND & FA & US). unfold request.
  apply trigger_put_request_inv.
  unfold request_inv, in_flight in *. simpl.
  set (r := mkRequest (next_request s) p t).
  assert (P : Permutation ((put_queue s ++ [r]) ++ flat_map served (queue s))
                          (r :: put_queue s ++ flat_map served (queue s))).
  { rewrite <- app_assoc. symmetry. apply Permutation_middle. }
  split; [|split].
  - rewrite P. simpl. constructor; [|exact ND].
    intros HI. apply in_map_iff in HI. destruct HI as (x & Hx & HI).
    rewrite Forall_forall in FA. apply FA in HI. lia.
  - rewrite P. constructor; [simpl; lia|].
    eapply Forall_impl; [|exact FA]. simpl. intros; lia.
  - exact US.
Qed.

Lemma request_inv_setup : forall cap n until s,
  setup cap n until = Some s -> request_inv s.
Proof.
  intros cap n until s H. apply setup_inv in H. destruct H as (_ & _ & ->).
  destruct (create_patients_frame n (Environment_init cap))
    as (_ & _ & Hus & Hpq & _).
  apply schedule_request_inv; [reflexivity|].
  unfold request_inv, in_flight. rewrite Hus, Hpq, create_patients_queue.
  rewrite flat_map_nil.
  - simpl. repeat split; constructor.
  - intros x Hx. simpl in Hx. apply in_map_iff in Hx.
    destruct Hx as (p & <- & _). reflexivity.
Qed.

Lemma request_inv_step : forall s s',
  request_inv s -> Step s = Continue s' -> request_inv s'.
Proof.
  intros s s' Hinv H. apply step_inv in H. destruct H as (it & q & E & H).
  pose proof (request_inv_pop s it q Hinv E) as H0. cbv zeta in H0.
  remember (set_now (due it) (set_queue q s)) as s0 eqn:Es0. clear Es0.
  unfold served at 1 2 3 in H0.
  destruct (event it); simpl in H, H0.
  - apply continue_inv in H. unfold visit_a_and_e in H.
    apply timeout_inv in H. destruct H as [_ ->].
    apply schedule_request_inv; [reflexivity | exact H0].
  - inversion H; subst. unfold visit_a_and_e_resume, generator_end, process.
    repeat (apply schedule_request_inv; [reflexivity|]). exact H0.
  - inversion H; subst. unfold process_patient.
    apply request_request_inv. exact H0.
  - apply continue_inv in H. unfold process_patient_granted in H.
    destruct (list_remove _ _) as [w|]; [|discriminate].
    apply timeout_inv in H. destruct H as [_ ->].
    destruct H0 as (ND & FA & US).
    unfold request_inv, in_flight in *. simpl in *.
    rewrite flat_map_snoc. simpl served.
    assert (P : Permutation (put_queue s0 ++ flat_map served (queue s0) ++ [r])
                            (r :: put_queue s0 ++ flat_map served (queue s0))).
    { rewrite app_assoc. symmetry. apply Permutation_cons_append. }
    split; [|split].
    + rewrite P. exact ND.
    + rewrite P. exact FA.
    + rewrite US. apply Permutation_cons_append.
  - inversion H; subst. destruct H0 as (ND & FA & US).
    rewrite process_patient_discharge_eq.
    unfold generator_end, live_life, process, release.
    repeat (apply schedule_request_inv; [reflexivity|]).
    unfold request_inv, in_flight in *. simpl in *.
    inversion ND; subst. inversion FA; subst.
    split; [assumption|split; [assumption|]].
    apply Permutation_cons_inv with (a := r).
    rewrite <- US. symmetry. apply remove_request_perm.
    + rewrite US. simpl. constructor.
      * intros HI. apply H2. rewrite map_app. apply in_or_app. right. exact HI.
      * rewrite map_app in H3. apply NoDup_app_remove_l in H3. exact H3.
    + apply Permutation_in with (l := r :: flat_map served (queue s0));
        [symmetry; exact US | left; reflexivity].
  - inversion H; subst. apply trigger_put_request_inv. exact H0.
  - inversion H; subst. exact H0.
  - discriminate.
Qed.

Lemma request_inv_reachable : forall cap n until s,
  Reachable cap n until s -> request_inv s.
Proof.
  intros cap n until. apply reachable_ind_inv.
  - apply request_inv_setup.
  - intros s s' _. apply request_inv_step.
Qed.

(** ** Grants *)

Lemma remove_request_incl : forall r x l,
  In x (remove_request r l) -> In x l.
Proof.
  intros r x l. induction l as [|y l IH]; simpl; [tauto|].
  destruct (rid y =? rid r)%nat; simpl; [tauto|].
  intros [->|H]; [left; reflexivity | right; apply IH; exact H].
Qed.

(** What one step does to the resource: either [users] only shrinks, or the
    head of the queue (the new request when the queue was empty) joins
    [users] while a slot was free. *)
Lemma step_resource : forall s s',
  Step s = Continue s' ->
  exists l,
    (l = [] \/ exists p t, l = [mkRequest (next_request s) p t]) /\
    (next_request s <= next_request s')%nat /\
    ((incl (users s') (users s) /\ put_queue s' = put_queue s ++ l) \/
     (exists x, users s' = users s ++ [x] /\
                put_queue s ++ l = x :: put_queue s' /\
                (Z.of_nat (List.length (users s)) < capacity s)%Z)).
Proof.
  intros s s' H. apply step_inv in H. destruct H as (it & q & E & H).
  destruct (event it); simpl in H.
  - apply continue_inv in H. unfold visit_a_and_e in H.
    apply timeout_inv in H. destruct H as [_ ->]. simpl.
    exists []. rewrite app_nil_r. split; [left; reflexivity|].
    split; [lia|]. left. split; [apply incl_refl | reflexivity].
  - inversion H; subst. simpl.
    exists []. rewrite app_nil_r. split; [left; reflexivity|].
    split; [lia|]. left. split; [apply incl_refl | reflexivity].
  - inversion H; subst. unfold process_patient, request.
    match goal with |- context [trigger_put ?x] =>
      destruct (trigger_put_cases x)
        as [[Hq E1]|[(r & rest & Hq & L & E1)|(r & rest & Hq & L & E1)]];
      rewrite E1; simpl in * end.
    + destruct (put_queue s); discriminate.
    + eexists. split; [right; eexists; eexists; reflexivity|].
      split; [lia|]. left. split; [apply incl_refl | reflexivity].
    + eexists. split; [right; eexists; eexists; reflexivity|].
      split; [lia|]. right. exists r. rewrite Hq. repeat split. exact L.
  - apply continue_inv in H. unfold process_patient_granted in H.
    destruct (list_remove _ _) as [w|]; [|discriminate].
    apply timeout_inv in H. destruct H as [_ ->]. simpl.
    exists []. rewrite app_nil_r. split; [left; reflexivity|].
    split; [lia|]. left. split; [apply incl_refl | reflexivity].
  - inversion H; subst. simpl.
    exists []. rewrite app_nil_r. split; [left; reflexivity|].
    split; [lia|]. left. split; [|reflexivity].
    intros x Hx. eapply remove_request_incl. exact Hx.
  - inversion H; subst.
    match goal with |- context [trigger_put ?x] =>
      destruct (trigger_put_cases x)
        as [[Hq E1]|[(r & rest & Hq & L & E1)|(r & rest & Hq & L & E1)]];
      rewrite E1; simpl in * end.
    + exists []. rewrite app_nil_r. split; [left; reflexivity|].
      split; [lia|]. left. split; [apply incl_refl | reflexivity].
    + exists []. rewrite app_nil_r. split; [left; reflexivity|].
      split; [lia|]. left. split; [apply incl_refl | reflexivity].
    + exists []. rewrite app_nil_r. split; [left; reflexivity|].
      split; [lia|]. right. exists r. rewrite Hq. repeat split. exact L.
  - inversion H; subst. simpl.
    exists []. rewrite app_nil_r. split; [left; reflexivity|].
    split; [lia|]. left. split; [apply incl_refl | reflexivity].
  - discriminate.
Qed.

(** C1: at every state of a run the resource has at most [capacity] users,
    and a step that makes a request a user (the grant, made inside
    [request] or by a [Release] event) starts from a state with fewer users
    than the capacity. *)
Theorem capacity_never_exceeded : forall cap n until s,
  reachable exponential triangular get_full_name cap n until s ->
  (Z.of_nat (List.length (users s)) <= capacity s)%Z /\
  forall s' r, step exponential triangular get_full_name s = Continue s' ->
    In r (users s') -> ~ In r (users s) ->
    (Z.of_nat (List.length (users s)) < capacity s)%Z.
Proof.
  intros cap n until s R. split.
  - apply (capacity_inv_reachable _ _ _ _ R).
  - intros s' r H Hin Hnot.
    destruct (step_resource s s' H) as (l & _ & _ & [[Hi _]|(x & Hu & _ & L)]).
    + exfalso. apply Hnot. apply Hi. exact Hin.
    + exact L.
Qed.

(** ** First come, first granted *)

Lemma later_reachable : forall cap n until s s',
  Reachable cap n until s -> later Step s s' -> Reachable cap n until s'.
Proof.
  intros cap n until s s' R L. induction L; [exact R|].
  eapply reachable_step; eassumption.
Qed.

Lemma ahead_in : forall A B q, ahead A B q -> In A q /\ In B q.
Proof.
  intros A B q (l1 & l2 & l3 & ->). split.
  - apply in_or_app. right. left. reflexivity.
  - apply in_or_app. right. right. apply in_or_app. right. left. reflexivity.
Qed.

(** The pending requests of a state keep their order while they wait. *)
Lemma ahead_step : forall A B s s',
  request_inv s -> Step s = Continue s' ->
  (rid A < next_request s)%nat ->
  ahead A B (put_queue s) \/ ~ In A (put_queue s) ->
  (rid A < next_request s')%nat /\
  (ahead A B (put_queue s') \/ ~ In A (put_queue s')).
Proof.
  intros A B s s' (ND & FA & _) H HA HK.
  destruct (step_resource s s' H) as (l & Hl & Hn & Hcase).
  split; [lia|].
  assert (HlA : ~ In A l).
  { intros HI. destruct Hl as [->|(p & t & ->)]; [destruct HI|].
    destruct HI as [<-|[]]. simpl in HA. lia. }
  unfold in_flight in ND. rewrite map_app in ND. apply NoDup_app_remove_r in ND.
  destruct Hcase as [[_ Hq]|(x & _ & Hq & _)].
  - rewrite Hq. destruct HK as [(l1 & l2 & l3 & E)|HK].
    + left. exists l1, l2, (l3 ++ l). rewrite E.
      rewrite <- !app_assoc. simpl. rewrite <- !app_assoc. reflexivity.
    + right. intros HI. apply in_app_or in HI. tauto.
  - destruct HK as [(l1 & l2 & l3 & E)|HK].
    + rewrite E in Hq. destruct l1 as [|y l1]; simpl in Hq.
      * injection Hq as Hx Ht. subst x. right. rewrite <- Ht.
        rewrite E in ND. simpl in ND. apply NoDup_cons_iff in ND.
        destruct ND as [ND _].
        intros HI. apply in_app_or in HI. destruct HI as [HI|HI]; [|tauto].
        apply ND. apply in_map. exact HI.
      * injection Hq as Hx Ht. subst y. left. exists l1, l2, (l3 ++ l).
        rewrite <- Ht. rewrite <- !app_assoc. simpl.
        rewrite <- !app_assoc. reflexivity.
    + right. intros HI. assert (In A (put_queue s ++ l)) as HI2.
      { rewrite Hq. right. exact HI. }
      apply in_app_or in HI2. tauto.
Qed.

(** C2: when request [A] is ahead of request [B] in the queue of a state of
    the run, then at every later state where [B] has left the queue (it is
    granted) [A] has left it too; and a step grants nothing but the head of
    the queue. *)
Theorem fifo_grant_order : forall cap n until s s' A B,
  Reachable cap n until s ->
  ahead A B (put_queue s) ->
  later Step s s' ->
  (~ In B (put_queue s') -> ~ In A (put_queue s')) /\
  (forall s'' x, Step s' = Continue s'' ->
     In x (users s'') -> ~ In x (users s') ->
     hd_error (put_queue s' ++ [x]) = Some x).
Proof.
  intros cap n until s s' A B R HA L.
  assert (K : (rid A < next_request s')%nat /\
              (ahead A B (put_queue s') \/ ~ In A (put_queue s'))).
  { induction L as [|s1 s2 L IH H].
    - split; [|left; exact HA].
      destruct (request_inv_reachable _ _ _ _ R) as (_ & FA & _).
      rewrite Forall_forall in FA. apply FA. unfold in_flight.
      apply in_or_app. left. apply (ahead_in A B _ HA).
    - destruct IH as [IH1 IH2].
      apply (ahead_step A B s1 s2); try assumption.
      apply (request_inv_reachable cap n until).
      eapply later_reachable; eassumption. }
  split.
  - intros HB. destruct K as [_ [K|K]]; [|exact K].
    exfalso. apply HB. apply (ahead_in A B _ K).
  - intros s'' x H Hin Hnot.
    destruct (step_resource s' s'' H) as (l & Hl & _ & [[Hi _]|(y & Hu & Hq & _)]).
    + exfalso. apply Hnot. apply Hi. exact Hin.
    + rewrite Hu in Hin. apply in_app_or in Hin.
      destruct Hin as [Hin|[<-|[]]]; [tauto|].
      destruct (put_queue s') as [|z pq]; simpl in *.
      * reflexivity.
      * inversion Hq; subst. reflexivity.
Qed.

(** ** The waiting room *)

Lemma list_remove_perm : forall x l w,
  list_remove x l = Some w -> Permutation l (x :: w).
Proof.
  intros x l. induction l as [|y l IH]; intros w H; simpl in H; [discriminate|].
  destruct (y =? x)%nat eqn:E.
  - apply Nat.eqb_eq in E. inversion H; subst. reflexivity.
  - destruct (list_remove x l) as [r|]; [|discriminate].
    inversion H; subst. rewrite (IH r eq_refl). apply perm_swap.
Qed.

Lemma list_remove_some : forall x l,
  In x l -> exists w, list_remove x l = Some w.
Proof.
  intros x l. induction l as [|y l IH]; intros H; [destruct H|].
  simpl. destruct (y =? x)%nat eqn:E; [eexists; reflexivity|].
  apply Nat.eqb_neq in E. destruct H as [H|H]; [congruence|].
  destruct (IH H) as [w ->]. eexists; reflexivity.
Qed.

Lemma schedule_waiting_room_inv : forall e p d s,
  granted (mkItem (now s + d) p (eid s) e) = [] ->
  waiting_room_inv s -> waiting_room_inv (schedule e p d s).
Proof.
  intros e p d s Hs H. unfold waiting_room_inv in *. simpl.
  rewrite flat_map_snoc, Hs, app_nil_r. exact H.
Qed.

Lemma trigger_put_waiting_room_inv : forall s,
  waiting_room_inv s -> waiting_room_inv (trigger_put s).
Proof.
  intros s Hinv.
  destruct (trigger_put_cases s) as [[_ E]|[(r & rest & _ & _ & E)|(r & rest & Hq & L & E)]];
    rewrite E; try exact Hinv.
  unfold waiting_room_inv in *. simpl. rewrite Hq in Hinv. rewrite Hinv.
  rewrite flat_map_snoc. simpl granted. apply Permutation_map.
  rewrite app_assoc. simpl. apply Permutation_cons_append.
Qed.

Lemma waiting_room_inv_setup : forall cap n until s,
  setup cap n until = Some s -> waiting_room_inv s.
Proof.
  intros cap n until s H. apply setup_inv in H. destruct H as (_ & _ & ->).
  destruct (create_patients_frame n (Environment_init cap))
    as (_ & _ & _ & Hpq & Hw & _).
  apply schedule_waiting_room_inv; [reflexivity|].
  unfold waiting_room_inv. rewrite Hw, Hpq, create_patients_queue.
  rewrite flat_map_nil.
  - simpl. constructor.
  - intros x Hx. simpl in Hx. apply in_map_iff in Hx.
    destruct Hx as (p & <- & _). reflexivity.
Qed.

Lemma waiting_room_inv_step : forall s s',
  waiting_room_inv s -> Step s = Continue s' -> waiting_room_inv s'.
Proof.
  intros s s' Hinv H. apply step_inv in H. destruct H as (it & q & E & H).
  assert (H0 : Permutation (waiting_room (set_now (due it) (set_queue q s)))
           (map req_patient (granted it ++
              put_queue (set_now (due it) (set_queue q s)) ++
              flat_map granted (queue (set_now (due it) (set_queue q s)))))).
  { simpl. unfold waiting_room_inv in Hinv. rewrite Hinv.
    apply Permutation_map. rewrite (heappop_flat_map _ granted _ _ _ E).
    rewrite !app_assoc. apply Permutation_app_tail. apply Permutation_app_comm. }
  remember (set_now (due it) (set_queue q s)) as s0 eqn:Es0. clear Es0.
  unfold granted at 1 in H0.
  destruct (event it); simpl in H, H0.
  - apply continue_inv in H. unfold visit_a_and_e in H.
    apply timeout_inv in H. destruct H as [_ ->].
    apply schedule_waiting_room_inv; [reflexivity | exact H0].
  - inversion H; subst. unfold visit_a_and_e_resume, generator_end, process.
    repeat (apply schedule_waiting_room_inv; [reflexivity|]). exact H0.
  - inversion H; subst. unfold process_patient, request.
    apply trigger_put_waiting_room_inv.
    unfold waiting_room_inv in *. simpl. rewrite H0.
    rewrite <- app_assoc, !map_app. simpl.
    rewrite <- Permutation_middle, app_nil_r. apply Permutation_middle.
  - apply continue_inv in H. unfold process_patient_granted in H.
    destruct (list_remove _ _) as [w|] eqn:Ew; [|discriminate].
    apply timeout_inv in H. destruct H as [_ ->].
    apply schedule_waiting_room_inv; [reflexivity|].
    unfold waiting_room_inv. simpl.
    apply list_remove_perm in Ew. rewrite Ew in H0.
    apply Permutation_cons_inv in H0. exact H0.
  - inversion H; subst.
    rewrite process_patient_discharge_eq.
    unfold generator_end, live_life, process, release.
    repeat (apply schedule_waiting_room_inv; [reflexivity|]). exact H0.
  - inversion H; subst. apply trigger_put_waiting_room_inv. exact H0.
  - inversion H; subst. exact H0.
  - discriminate.
Qed.

Lemma waiting_room_inv_reachable : forall cap n until s,
  Reachable cap n until s -> waiting_room_inv s.
Proof.
  intros cap n until. apply reachable_ind_inv.
  - apply waiting_room_inv_setup.
  - intros s s' _. apply waiting_room_inv_step.
Qed.

(** ** Conservation of samples *)

Lemma schedule_conservation_inv : forall e p d s,
  served (mkItem (now s + d) p (eid s) e) = [] ->
  conservation_inv s -> conservation_inv (schedule e p d s).
Proof.
  intros e p d s Hs H. unfold conservation_inv, in_flight in *. simpl.
  rewrite flat_map_snoc, Hs, app_nil_r. exact H.
Qed.

Lemma trigger_put_conservation_inv : forall s,
  conservation_inv s -> conservation_inv (trigger_put s).
Proof.
  intros s Hinv.
  destruct (trigger_put_cases s) as [[_ E]|[(r & rest & _ & _ & E)|(r & rest & Hq & L & E)]];
    rewrite E; try exact Hinv.
  unfold conservation_inv, in_flight in *. simpl. rewrite Hq in Hinv.
  rewrite flat_map_snoc. simpl served.
  rewrite !length_app in *. simpl in *. lia.
Qed.

Lemma conservation_inv_setup : forall cap n until s,
  setup cap n until = Some s -> conservation_inv s.
Proof.
  intros cap n until s H. apply setup_inv in H. destruct H as (_ & _ & ->).
  destruct (create_patients_frame n (Environment_init cap))
    as (_ & _ & _ & Hpq & _ & _ & _ & H1 & H2 & H3 & H4 & H5).
  apply schedule_conservation_inv; [reflexivity|].
  unfold conservation_inv, in_flight.
  rewrite Hpq, H1, H2, H3, H4, H5, create_patients_queue.
  rewrite flat_map_nil.
  - simpl. repeat split.
  - intros x Hx. simpl in Hx. apply in_map_iff in Hx.
    destruct Hx as (p & <- & _). reflexivity.
Qed.

Lemma conservation_inv_step : forall s s',
  conservation_inv s -> Step s = Continue s' -> conservation_inv s'.
Proof.
  intros s s' Hinv H. apply step_inv in H. destruct H as (it & q & E & H).
  set (s0 := set_now (due it) (set_queue q s)) in *.
  assert (H0 :
     List.length (queue_length s0) =
       (List.length (wait_time_hrs s0) + List.length (served it ++ in_flight s0))%nat /\
     List.length (queue_admittance_time_days s0) = List.length (queue_length s0) /\
     List.length (patient_name s0) = List.length (wait_time_hrs s0) /\
     List.length (admittance_time_days s0) = List.length (wait_time_hrs s0)).
  { pose proof (Permutation_length (in_flight_pop s it q E)) as PL.
    fold s0 in PL. rewrite <- PL. exact Hinv. }
  clearbody s0.
  unfold served at 1 in H0.
  destruct (event it); simpl in H, H0.
  - apply continue_inv in H. unfold visit_a_and_e in H.
    apply timeout_inv in H. destruct H as [_ ->].
    apply schedule_conservation_inv; [reflexivity | exact H0].
  - inversion H; subst. unfold visit_a_and_e_resume, generator_end, process.
    repeat (apply schedule_conservation_inv; [reflexivity|]). exact H0.
  - inversion H; subst. unfold process_patient, request.
    apply trigger_put_conservation_inv.
    unfold conservation_inv, in_flight in *. simpl.
    rewrite !length_app in *. simpl. lia.
  - apply continue_inv in H. unfold process_patient_granted in H.
    destruct (list_remove _ _) as [w|] eqn:Ew; [|discriminate].
    apply timeout_inv in H. destruct H as [_ ->].
    unfold conservation_inv, in_flight in *. simpl.
    rewrite flat_map_snoc. simpl served.
    rewrite !length_app in *. simpl. lia.
  - inversion H; subst.
    rewrite process_patient_discharge_eq.
    unfold generator_end, live_life, process, release.
    apply schedule_conservation_inv; [reflexivity|].
    unfold conservation_inv, in_flight in *. simpl.
    rewrite !flat_map_snoc. simpl.
    rewrite !length_app in *. simpl. lia.
  - inversion H; subst. apply trigger_put_conservation_inv. exact H0.
  - inversion H; subst. exact H0.
  - discriminate.
Qed.

Lemma conservation_inv_reachable : forall cap n until s,
  Reachable cap n until s -> conservation_inv s.
Proof.
  intros cap n until. apply reachable_ind_inv.
  - apply conservation_inv_setup.
  - intros s s' _. apply conservation_inv_step.
Qed.

(** C7: at every state of a run there are at most as many completion
    samples as arrival samples; the difference is the number of visits in
    flight, so the counts agree once no visit is in flight. *)
Theorem completions_le_arrivals : forall cap n until s,
  Reachable cap n until s ->
  (List.length (wait_time_hrs s) <= List.length (queue_length s))%nat /\
  List.length (queue_length s) =
    (List.length (wait_time_hrs s) + List.length (in_flight s))%nat /\
  (in_flight s = [] ->
   List.length (wait_time_hrs s) = List.length (queue_length s)).
Proof.
  intros cap n until s R.
  destruct (conservation_inv_reachable _ _ _ _ R) as (H & _).
  repeat split; [lia | exact H |].
  intros E. rewrite E in H. simpl in H. lia.
Qed.

(** ** One live process per person *)

Ltac perm_by_count :=
  apply (Permutation_count_occ Nat.eq_dec); intro;
  repeat rewrite count_occ_app; lia.

Lemma agents_pop : forall s it q,
  heappop (queue s) = Some (it, q) ->
  Permutation (agents s)
    ((arriving it ++ visiting it) ++ agents (set_now (due it) (set_queue q s))).
Proof.
  intros s it q E. unfold agents, patients. simpl.
  rewrite (heappop_flat_map _ arriving _ _ _ E).
  rewrite (heappop_flat_map _ visiting _ _ _ E).
  generalize (arriving it) (visiting it) (flat_map arriving q)
    (flat_map visiting q) (map req_patient (put_queue s)).
  intros a v fa fv pq. perm_by_count.
Qed.

Lemma agents_schedule : forall e p d s,
  Permutation (agents (schedule e p d s))
    ((arriving (mkItem (now s + d) p (eid s) e) ++
      visiting (mkItem (now s + d) p (eid s) e)) ++ agents s).
Proof.
  intros e p d s. unfold agents, patients. simpl. rewrite !flat_map_snoc.
  generalize (arriving (mkItem (now s + d) p (eid s) e))
    (visiting (mkItem (now s + d) p (eid s) e)) (flat_map arriving (queue s))
    (flat_map visiting (queue s)) (map req_patient (put_queue s)).
  intros a v fa fv pq. perm_by_count.
Qed.

Lemma agents_trigger_put : forall s,
  Permutation (agents (trigger_put s)) (agents s).
Proof.
  intros s.
  destruct (trigger_put_cases s) as [[_ E]|[(r & rest & _ & _ & E)|(r & rest & Hq & L & E)]];
    rewrite E; try reflexivity.
  rewrite agents_schedule. unfold agents, patients. simpl. rewrite Hq. simpl.
  apply Permutation_middle.
Qed.

Lemma agents_request : forall p t s,
  Permutation (agents (request p t s)) (p :: agents s).
Proof.
  intros p t s. unfold request. rewrite agents_trigger_put.
  unfold agents, patients. simpl. rewrite map_app. simpl.
  change (p :: flat_map arriving (queue s) ++
          map req_patient (put_queue s) ++ flat_map visiting (queue s))
    with ([p] ++ flat_map arriving (queue s) ++
          map req_patient (put_queue s) ++ flat_map visiting (queue s)).
  generalize [p] (flat_map arriving (queue s)) (flat_map visiting (queue s))
    (map req_patient (put_queue s)).
  intros a fa fv pq. perm_by_count.
Qed.

Lemma agents_inv_setup : forall cap n until s,
  setup cap n until = Some s -> agents_inv n s.
Proof.
  intros cap n until s H. apply setup_inv in H. destruct H as (_ & _ & ->).
  destruct (create_patients_frame n (Environment_init cap))
    as (_ & _ & _ & Hpq & _).
  unfold agents_inv. rewrite agents_schedule. simpl.
  unfold agents, patients. rewrite Hpq, create_patients_queue. simpl.
  rewrite (flat_map_nil _ _ visiting).
  - rewrite app_nil_r.
    assert (F : forall (h : nat -> Item) l,
      (forall p, event (h p) = Initialize_visit p) ->
      flat_map arriving (map h l) = l).
    { intros h l Hh. induction l as [|a l IH]; simpl; [reflexivity|].
      unfold arriving at 1. rewrite Hh. simpl. rewrite IH. reflexivity. }
    rewrite F; [reflexivity|]. intros p. reflexivity.
  - intros x Hx. apply in_map_iff in Hx. destruct Hx as (p & <- & _). reflexivity.
Qed.

Lemma agents_step : forall s s',
  Step s = Continue s' -> Permutation (agents s') (agents s).
Proof.
  intros s s' H. apply step_inv in H. destruct H as (it & q & E & H).
  rewrite (agents_pop s it q E).
  set (s0 := set_now (due it) (set_queue q s)) in *. clearbody s0.
  unfold arriving at 1, visiting at 1.
  destruct (event it); simpl in H |- *.
  - apply continue_inv in H. unfold visit_a_and_e in H.
    apply timeout_inv in H. destruct H as [_ ->].
    rewrite agents_schedule. reflexivity.
  - inversion H; subst. unfold visit_a_and_e_resume, generator_end, process.
    rewrite !agents_schedule. reflexivity.
  - inversion H; subst. unfold process_patient.
    rewrite agents_request. reflexivity.
  - apply continue_inv in H. unfold process_patient_granted in H.
    destruct (list_remove _ _) as [w|] eqn:Ew; [|discriminate].
    apply timeout_inv in H. destruct H as [_ ->].
    rewrite agents_schedule. reflexivity.
  - inversion H; subst.
    rewrite process_patient_discharge_eq.
    unfold generator_end, live_life, process, release.
    rewrite agents_schedule.
    match goal with |- context [agents (record_completion ?a ?b ?c ?x)] =>
      change (agents (record_completion a b c x)) with (agents x) end.
    rewrite !agents_schedule. reflexivity.
  - inversion H; subst. apply agents_trigger_put.
  - inversion H; subst. reflexivity.
  - discriminate.
Qed.

Lemma agents_inv_reachable : forall cap n until s,
  Reachable cap n until s -> agents_inv n s.
Proof.
  intros cap n until. apply reachable_ind_inv.
  - apply agents_inv_setup.
  - intros s s' _ Hinv H. unfold agents_inv in *.
    rewrite (agents_step s s' H). exact Hinv.
Qed.

(** ** The clock *)

(** numpy's contracts: an exponential variate is not negative and a
    triangular one lies between its bounds. *)
Hypothesis exponential_nonneg : forall scale k, 0 <= exponential scale k.
Hypothesis triangular_range : forall k,
  300 <= triangular 300 1200 3600 k /\ triangular 300 1200 3600 k <= 3600.

Lemma seconds_in_month_pos : 0 < seconds_in_month.
Proof. reflexivity. Qed.

Lemma health_scare_nonneg : forall scale k,
  0 <= exponential scale k * seconds_in_month.
Proof.
  intros scale k. apply Qmult_le_0_compat; [apply exponential_nonneg|].
  apply Qlt_le_weak. apply seconds_in_month_pos.
Qed.

Lemma event_clock_weaken : forall t t' i,
  t <= t' -> t' <= due i -> event_clock t i -> event_clock t' i.
Proof.
  intros t t' i H1 H2 [H3 H4]. split; [exact H2|].
  destruct (event i); try exact I; [|exact H4].
  destruct H4 as [H5 H6]. split; [exact H5|]. lra.
Qed.

Lemma clock_inv_pop : forall s it q,
  clock_inv s -> heappop (queue s) = Some (it, q) ->
  clock_inv (set_now (due it) (set_queue q s)) /\
  now s <= due it /\
  match event it with
  | Request_granted r => req_arrival r <= due it
  | Timeout_doctor r => req_arrival r < due it
  | _ => True
  end.
Proof.
  intros s it q [HQ HP] E.
  rewrite (heappop_perm _ _ _ E) in HQ. apply Forall_cons_iff in HQ.
  destruct HQ as [[Hit1 Hit2] HQ].
  pose proof (heappop_due_min _ _ _ E) as Hmin.
  split; [|split].
  - split; simpl.
    + rewrite Forall_forall in *. intros y Hy.
      apply (event_clock_weaken (now s)); auto.
    + eapply Forall_impl; [|exact HP]. simpl. intros r Hr. lra.
  - exact Hit1.
  - destruct (event it); try exact I; [tauto | exact Hit2].
Qed.

Lemma schedule_clock_inv : forall e p d s,
  0 <= d ->
  match e with
  | Request_granted r => req_arrival r <= now s /\ d == 0
  | Timeout_doctor r => req_arrival r < now s + d
  | _ => True
  end ->
  clock_inv s -> clock_inv (schedule e p d s).
Proof.
  intros e p d s Hd He [HQ HP]. split; simpl; [|exact HP].
  apply Forall_app. split; [exact HQ|]. constructor; [|constructor].
  split; simpl; [lra|].
  destruct e; try exact I; [|exact He].
  destruct He as [H1 H2]. split; lra.
Qed.

Lemma trigger_put_clock_inv : forall s,
  clock_inv s -> clock_inv (trigger_put s).
Proof.
  intros s Hinv.
  destruct (trigger_put_cases s) as [[_ E]|[(r & rest & _ & _ & E)|(r & rest & Hq & L & E)]];
    rewrite E; try exact Hinv.
  destruct Hinv as [HQ HP]. rewrite Hq in HP. apply Forall_cons_iff in HP.
  destruct HP as [Hr HP].
  apply schedule_clock_inv; [lra | simpl; split; [exact Hr | reflexivity] |].
  split; simpl; assumption.
Qed.

Lemma clock_inv_setup : forall cap n until s,
  setup cap n until = Some s -> clock_inv s.
Proof.
  intros cap n until s H. apply setup_inv in H. destruct H as (_ & Hu & ->).
  destruct (create_patients_frame n (Environment_init cap))
    as (Hn & _ & _ & Hpq & _).
  apply schedule_clock_inv; [lra | exact I |].
  split.
  - rewrite Hn, create_patients_queue. simpl.
    apply Forall_forall. intros x Hx. apply in_map_iff in Hx.
    destruct Hx as (p & <- & _). split; simpl; [lra | exact I].
  - rewrite Hpq. constructor.
Qed.

Lemma clock_inv_step : forall s s',
  clock_inv s -> Step s = Continue s' -> clock_inv s'.
Proof.
  intros s s' Hinv H. apply step_inv in H. destruct H as (it & q & E & H).
  destruct (clock_inv_pop s it q Hinv E) as (H0 & Hmono & Hit).
  assert (Hnow : now (set_now (due it) (set_queue q s)) = due it) by reflexivity.
  set (s0 := set_now (due it) (set_queue q s)) in *. clearbody s0.
  destruct (event it); simpl in H.
  - apply continue_inv in H. unfold visit_a_and_e in H.
    apply timeout_inv in H. destruct H as [Hd ->].
    apply schedule_clock_inv; [exact Hd | exact I | exact H0].
  - inversion H; subst. unfold visit_a_and_e_resume, generator_end, process.
    repeat (apply schedule_clock_inv; [lra | exact I |]). exact H0.
  - inversion H; subst. unfold process_patient, request.
    apply trigger_put_clock_inv. destruct H0 as [HQ HP].
    split; simpl; [exact HQ|].
    apply Forall_app. split; [exact HP|]. constructor; [simpl; lra | constructor].
  - apply continue_inv in H. unfold process_patient_granted in H.
    destruct (list_remove _ _) as [w|] eqn:Ew; [|discriminate].
    apply timeout_inv in H. destruct H as [Hd ->].
    destruct (triangular_range (draws s0)) as [Ht _].
    apply schedule_clock_inv; [exact Hd | simpl; rewrite Hnow; lra | exact H0].
  - inversion H; subst.
    rewrite process_patient_discharge_eq.
    unfold generator_end, live_life, process, release.
    apply schedule_clock_inv; [lra | exact I |].
    match goal with |- clock_inv (record_completion ?a ?b ?c ?x) =>
      change (clock_inv x) end.
    repeat (apply schedule_clock_inv; [lra | exact I |]).
    exact H0.
  - inversion H; subst. apply trigger_put_clock_inv. exact H0.
  - inversion H; subst. exact H0.
  - discriminate.
Qed.

Lemma clock_inv_reachable : forall cap n until s,
  Reachable cap n until s -> clock_inv s.
Proof.
  intros cap n until. apply reachable_ind_inv.
  - apply clock_inv_setup.
  - intros s s' _. apply clock_inv_step.
Qed.

(** ** The run raises nothing *)

Lemma step_never_raises : forall cap n until s,
  Reachable cap n until s -> Step s <> ValueError.
Proof.
  intros cap n until s R H.
  pose proof (waiting_room_inv_reachable _ _ _ _ R) as W.
  unfold Step, step in H.
  destruct (heappop (queue s)) as [[it q]|] eqn:E; [|discriminate].
  unfold waiting_room_inv in W.
  rewrite (heappop_flat_map _ granted _ _ _ E) in W.
  unfold granted at 1 in W.
  destruct (event it); simpl in H; try discriminate.
  - unfold visit_a_and_e, timeout in H.
    destruct (Qlt_le_dec _ 0) as [L|L]; [|discriminate].
    pose proof (health_scare_nonneg
      (1 / mean_monthly_attendence_per_person) (draws s)) as P.
    simpl in L. lra.
  - unfold process_patient_granted in H. simpl in H.
    destruct (list_remove (req_patient r) (waiting_room s)) as [w|] eqn:Ew.
    + unfold timeout in H.
      destruct (Qlt_le_dec _ 0) as [L|L]; [|discriminate].
      destruct (triangular_range (draws s)) as [P _]. simpl in L. lra.
    + destruct (list_remove_some (req_patient r) (waiting_room s)) as [w Hw];
        [|congruence].
      apply Permutation_in with
        (l := map req_patient (put_queue s ++ [r] ++ flat_map granted q)).
      * symmetry. exact W.
      * apply in_map. apply in_or_app. right. left. reflexivity.
Qed.

(** ** Completion samples *)

(** A step leaves the completion table alone or appends one row, which it
    does when it pops the doctor's timeout of a request. *)
Lemma step_samples : forall s s',
  Step s = Continue s' ->
  (wait_time_hrs s' = wait_time_hrs s /\
   admittance_time_days s' = admittance_time_days s /\
   patient_name s' = patient_name s) \/
  (exists it q r,
     heappop (queue s) = Some (it, q) /\ event it = Timeout_doctor r /\
     now s' = due it /\
     wait_time_hrs s' = wait_time_hrs s ++ [(now s' - req_arrival r) / 3600] /\
     admittance_time_days s' =
       admittance_time_days s ++ [req_arrival r / 3600 / 24] /\
     patient_name s' = patient_name s ++ [get_full_name (req_patient r)]).
Proof.
  intros s s' H. apply step_inv in H. destruct H as (it & q & E & H).
  destruct (event it) eqn:Ev; simpl in H.
  - apply continue_inv in H. unfold visit_a_and_e in H.
    apply timeout_inv in H. destruct H as [_ ->]. left. repeat split.
  - inversion H; subst. left. repeat split.
  - inversion H; subst. left. unfold process_patient, request.
    match goal with |- context [trigger_put ?x] =>
      destruct (trigger_put_cases x)
        as [[_ E1]|[(r & rest & _ & _ & E1)|(r & rest & _ & _ & E1)]];
      rewrite E1 end; repeat split.
  - apply continue_inv in H. unfold process_patient_granted in H.
    destruct (list_remove _ _) as [w|]; [|discriminate].
    apply timeout_inv in H. destruct H as [_ ->]. left. repeat split.
  - inversion H; subst. right. exists it, q, r. repeat split; assumption.
  - inversion H; subst. left.
    match goal with |- context [trigger_put ?x] =>
      destruct (trigger_put_cases x)
        as [[_ E1]|[(r & rest & _ & _ & E1)|(r & rest & _ & _ & E1)]];
      rewrite E1 end; repeat split.
  - inversion H; subst. left. repeat split.
  - discriminate.
Qed.

Lemma in_flight_schedule : forall e p d s,
  in_flight (schedule e p d s) =
  in_flight s ++ served (mkItem (now s + d) p (eid s) e).
Proof.
  intros e p d s. unfold in_flight. simpl.
  rewrite flat_map_snoc, app_assoc. reflexivity.
Qed.

Lemma trigger_put_frame : forall s,
  Permutation (in_flight (trigger_put s)) (in_flight s) /\
  queue_admittance_time_days (trigger_put s) = queue_admittance_time_days s /\
  now (trigger_put s) = now s.
Proof.
  intros s.
  destruct (trigger_put_cases s) as [[_ E]|[(r & rest & _ & _ & E)|(r & rest & Hq & L & E)]];
    rewrite E; try (repeat split; reflexivity).
  repeat split. rewrite in_flight_schedule.
  change (served (mkItem (now (set_resource (users s ++ [r]) rest s) + 0)
            NORMAL (eid (set_resource (users s ++ [r]) rest s))
            (Request_granted r))) with [r].
  unfold in_flight. simpl. rewrite Hq. simpl.
  symmetry. apply Permutation_cons_append.
Qed.

Lemma arrival_inv_setup : forall cap n until s,
  setup cap n until = Some s -> arrival_inv s.
Proof.
  intros cap n until s H.
  destruct (request_inv_setup _ _ _ _ H) as (_ & _ & U).
  apply setup_inv in H. destruct H as (_ & _ & ->).
  destruct (create_patients_frame n (Environment_init cap))
    as (_ & _ & Hus & Hpq & _).
  simpl in U. rewrite Hus in U. apply Permutation_nil in U.
  unfold arrival_inv, in_flight. simpl queue. rewrite U. simpl put_queue.
  rewrite Hpq. constructor.
Qed.

Lemma arrival_inv_step : forall s s',
  arrival_inv s -> Step s = Continue s' -> arrival_inv s'.
Proof.
  intros s s' Hinv H. apply step_inv in H. destruct H as (it & q & E & H).
  unfold arrival_inv in Hinv. rewrite (in_flight_pop s it q E) in Hinv.
  change (queue_admittance_time_days s)
    with (queue_admittance_time_days (set_now (due it) (set_queue q s))) in Hinv.
  set (s0 := set_now (due it) (set_queue q s)) in *. clearbody s0.
  apply Forall_app in Hinv. destruct Hinv as [Hit H0].
  unfold served at 1 in Hit.
  destruct (event it); simpl in H.
  - apply continue_inv in H. unfold visit_a_and_e in H.
    apply timeout_inv in H. destruct H as [_ ->].
    unfold arrival_inv. rewrite in_flight_schedule. simpl. rewrite app_nil_r.
    exact H0.
  - inversion H; subst. unfold visit_a_and_e_resume, generator_end, process.
    unfold arrival_inv. rewrite !in_flight_schedule. simpl. rewrite !app_nil_r.
    exact H0.
  - inversion H; subst. unfold process_patient, request, arrival_inv.
    match goal with |- context [trigger_put ?x] =>
      destruct (trigger_put_frame x) as (P & -> & _) end.
    rewrite P. unfold in_flight. simpl. rewrite <- app_assoc.
    apply Forall_app. split; [|apply Forall_app; split].
    + unfold in_flight in H0. apply Forall_app in H0. destruct H0 as [H0 _].
      eapply Forall_impl; [|exact H0]. simpl. intros r Hr.
      apply in_or_app. left. exact Hr.
    + constructor; [|constructor]. simpl. apply in_or_app. right. left.
      reflexivity.
    + unfold in_flight in H0. apply Forall_app in H0. destruct H0 as [_ H0].
      eapply Forall_impl; [|exact H0]. simpl. intros r Hr.
      apply in_or_app. left. exact Hr.
  - apply continue_inv in H. unfold process_patient_granted in H.
    destruct (list_remove _ _) as [w|]; [|discriminate].
    apply timeout_inv in H. destruct H as [_ ->].
    unfold arrival_inv. rewrite in_flight_schedule. simpl.
    apply Forall_app. split; [exact H0 | exact Hit].
  - inversion H; subst.
    rewrite process_patient_discharge_eq.
    unfold generator_end, live_life, process, release.
    unfold arrival_inv. rewrite in_flight_schedule. simpl. rewrite app_nil_r.
    unfold in_flight. simpl. rewrite !flat_map_snoc. simpl. rewrite !app_nil_r.
    exact H0.
  - inversion H; subst. unfold arrival_inv.
    destruct (trigger_put_frame s0) as (P & -> & _). rewrite P. exact H0.
  - inversion H; subst. exact H0.
  - discriminate.
Qed.

Lemma arrival_inv_reachable : forall cap n until s,
  Reachable cap n until s -> arrival_inv s.
Proof.
  intros cap n until. apply reachable_ind_inv.
  - apply arrival_inv_setup.
  - intros s s' _. apply arrival_inv_step.
Qed.

Lemma hours_pos : forall x, 0 < x -> 0 < x / 3600.
Proof.
  intros x H. apply Qlt_shift_div_l; [reflexivity | lra].
Qed.

(** The row a discharge appends: the time from the arrival recorded for
    the visit to the clock of the discharge, in hours. *)
Lemma discharge_sample : forall cap n until s s',
  Reachable cap n until s -> Step s = Continue s' ->
  wait_time_hrs s' = wait_time_hrs s \/
  exists r,
    In r (in_flight s) /\
    In (req_arrival r / 3600 / 24) (queue_admittance_time_days s) /\
    wait_time_hrs s' = wait_time_hrs s ++ [(now s' - req_arrival r) / 3600] /\
    admittance_time_days s' =
      admittance_time_days s ++ [req_arrival r / 3600 / 24] /\
    req_arrival r < now s' /\
    0 < (now s' - req_arrival r) / 3600.
Proof.
  intros cap n until s s' R H.
  destruct (step_samples s s' H) as [(Hw & _)|(it & q & r & E & Ev & Hn & Hw & Ha & _)];
    [left; exact Hw|].
  right. exists r.
  assert (Hin : In r (in_flight s)).
  { apply Permutation_in with (l := served it ++
      in_flight (set_now (due it) (set_queue q s))).
    - symmetry. apply in_flight_pop. exact E.
    - unfold served. rewrite Ev. left. reflexivity. }
  destruct (clock_inv_pop s it q (clock_inv_reachable _ _ _ _ R) E)
    as (_ & _ & Hit).
  rewrite Ev in Hit. rewrite <- Hn in Hit.
  pose proof (arrival_inv_reachable _ _ _ _ R) as A.
  unfold arrival_inv in A. rewrite Forall_forall in A.
  repeat split; try assumption.
  - apply A. exact Hin.
  - apply hours_pos. lra.
Qed.

Lemma waits_positive : forall cap n until s,
  Reachable cap n until s -> Forall (fun w => 0 < w) (wait_time_hrs s).
Proof.
  intros cap n until. apply reachable_ind_inv.
  - intros s H. apply setup_inv in H. destruct H as (_ & _ & ->).
    destruct (create_patients_frame n (Environment_init cap))
      as (_ & _ & _ & _ & _ & _ & _ & _ & _ & _ & _ & Hw).
    simpl. rewrite Hw. constructor.
  - intros s s' R IH H.
    destruct (discharge_sample _ _ _ s s' R H) as [->|(r & _ & _ & -> & _ & _ & Hp)];
      [exact IH|].
    apply Forall_app. split; [exact IH|]. constructor; [exact Hp | constructor].
Qed.

(** What a step does to the visits in flight: the start of
    [process_patient] adds the request it creates, stamped with the clock
    of the arrival sample; the return from the doctor's timeout takes its
    own request away; any other event keeps them. *)
Lemma step_in_flight : forall s s' it q,
  Step s = Continue s' -> heappop (queue s) = Some (it, q) ->
  match event it with
  | Initialize_patient p =>
      now s' = due it /\
      queue_admittance_time_days s' =
        queue_admittance_time_days s ++ [now s' / 3600 / 24] /\
      Permutation (in_flight s')
        (mkRequest (next_request s) p (now s') :: in_flight s)
  | Timeout_doctor r => Permutation (in_flight s) (r :: in_flight s')
  | _ => Permutation (in_flight s') (in_flight s)
  end.
Proof.
  intros s s' it q H E. unfold step in H. rewrite E in H.
  pose proof (in_flight_pop s it q E) as P.
  assert (Hq : queue_admittance_time_days (set_now (due it) (set_queue q s)) =
               queue_admittance_time_days s) by reflexivity.
  assert (Hr : next_request (set_now (due it) (set_queue q s)) =
               next_request s) by reflexivity.
  assert (Hn : now (set_now (due it) (set_queue q s)) = due it) by reflexivity.
  set (s0 := set_now (due it) (set_queue q s)) in *. clearbody s0.
  unfold served at 1 in P.
  destruct (event it); simpl in H, P.
  - apply continue_inv in H. unfold visit_a_and_e in H.
    apply timeout_inv in H. destruct H as [_ ->].
    rewrite in_flight_schedule. simpl. rewrite app_nil_r.
    symmetry. exact P.
  - inversion H; subst s'. unfold visit_a_and_e_resume, generator_end, process.
    rewrite !in_flight_schedule. simpl. rewrite !app_nil_r.
    symmetry. exact P.
  - inversion H; subst s'. unfold process_patient, request.
    match goal with |- context [trigger_put ?x] =>
      destruct (trigger_put_frame x) as (P' & -> & ->) end.
    split; [exact Hn|]. split; [simpl; rewrite Hq; reflexivity|].
    rewrite P'. unfold in_flight at 1. simpl. rewrite Hr.
    rewrite <- app_assoc. simpl.
    rewrite <- Permutation_middle. constructor.
    symmetry. exact P.
  - apply continue_inv in H. unfold process_patient_granted in H.
    destruct (list_remove _ _) as [w|]; [|discriminate].
    apply timeout_inv in H. destruct H as [_ ->].
    rewrite in_flight_schedule. simpl.
    rewrite P. symmetry. apply Permutation_cons_append.
  - inversion H; subst s'.
    rewrite process_patient_discharge_eq.
    unfold generator_end, live_life, process, release.
    rewrite in_flight_schedule. simpl. rewrite app_nil_r.
    unfold in_flight at 2. simpl. rewrite !flat_map_snoc. simpl.
    rewrite !app_nil_r. exact P.
  - inversion H; subst s'.
    destruct (trigger_put_frame s0) as (P' & _). rewrite P'.
    symmetry. exact P.
  - inversion H; subst s'. symmetry. exact P.
  - discriminate.
Qed.

(** C3: the row a discharge appends to the completion table is that
    visit's: [process_patient] makes the request of the visit with the
    clock it records in the arrival table, the request stays in flight
    until the doctor's timeout of that very request is popped, and the row
    appended then holds the patient's name, that arrival time and the
    clock of the discharge minus that arrival time; no other event writes
    to the table.  Every wait is positive, so it is not negative, also
    when the resource was full at the arrival. *)
Theorem wait_is_departure_minus_arrival : forall cap n until s s' it q,
  Reachable cap n until s -> Step s = Continue s' ->
  heappop (queue s) = Some (it, q) ->
  Forall (fun w => 0 <= w /\ 0 < w) (wait_time_hrs s') /\
  (forall p, event it = Initialize_patient p ->
     now s' = due it /\
     queue_admittance_time_days s' =
       queue_admittance_time_days s ++ [now s' / 3600 / 24] /\
     Permutation (in_flight s')
       (mkRequest (next_request s) p (now s') :: in_flight s)) /\
  (forall r, event it = Timeout_doctor r ->
     now s' = due it /\
     Permutation (in_flight s) (r :: in_flight s') /\
     In (req_arrival r / 3600 / 24) (queue_admittance_time_days s) /\
     patient_name s' = patient_name s ++ [get_full_name (req_patient r)] /\
     admittance_time_days s' =
       admittance_time_days s ++ [req_arrival r / 3600 / 24] /\
     wait_time_hrs s' = wait_time_hrs s ++ [(now s' - req_arrival r) / 3600] /\
     req_arrival r < now s' /\
     0 < (now s' - req_arrival r) / 3600) /\
  ((forall r, event it <> Timeout_doctor r) ->
     patient_name s' = patient_name s /\
     admittance_time_days s' = admittance_time_days s /\
     wait_time_hrs s' = wait_time_hrs s) /\
  ((forall p, event it <> Initialize_patient p) ->
   (forall r, event it <> Timeout_doctor r) ->
     Permutation (in_flight s') (in_flight s)).
Proof.
  intros cap n until s s' it q R H E.
  pose proof (step_in_flight s s' it q H E) as F.
  split; [|split; [|split; [|split]]].
  - assert (R' : Reachable cap n until s') by (eapply reachable_step; eassumption).
    eapply Forall_impl; [|apply (waits_positive _ _ _ _ R')].
    simpl. intros w Hw. split; [apply Qlt_le_weak; exact Hw | exact Hw].
  - intros p Ev. rewrite Ev in F. exact F.
  - intros r Ev. rewrite Ev in F.
    destruct (step_samples s s' H)
      as [(Hw & _)|(it' & q' & r' & E' & Ev' & Hn & Hw & Ha & Hp)].
    + exfalso. unfold step in H. rewrite E, Ev in H. simpl in H.
      inversion H; subst s'. rewrite process_patient_discharge_eq in Hw.
      simpl in Hw. apply (f_equal (@List.length Q)) in Hw.
      rewrite length_app in Hw. simpl in Hw. lia.
    + rewrite E in E'. inversion E'; subst it' q'.
      rewrite Ev in Ev'. inversion Ev'; subst r'.
      destruct (clock_inv_pop s it q (clock_inv_reachable _ _ _ _ R) E)
        as (_ & _ & Hit).
      rewrite Ev in Hit. rewrite <- Hn in Hit.
      pose proof (arrival_inv_reachable _ _ _ _ R) as A.
      unfold arrival_inv in A. rewrite Forall_forall in A.
      split; [exact Hn|]. split; [exact F|].
      split; [apply A; rewrite F; left; reflexivity|].
      split; [exact Hp|]. split; [exact Ha|]. split; [exact Hw|].
      split; [exact Hit | apply hours_pos; lra].
  - intros NT.
    destruct (step_samples s s' H)
      as [(Hw & Ha & Hp)|(it' & q' & r' & E' & Ev' & _)].
    + split; [exact Hp|]. split; [exact Ha | exact Hw].
    + rewrite E in E'. inversion E'; subst it' q'.
      exfalso. exact (NT r' Ev').
  - intros NI NT. destruct (event it) eqn:Ev; try exact F.
    + exfalso. exact (NI _ eq_refl).
    + exfalso. exact (NT _ eq_refl).
Qed.

(** ** Event ids *)

Lemma schedule_eid_inv : forall e p d s,
  eid_inv s -> eid_inv (schedule e p d s).
Proof.
  intros e p d s [HF HN]. split; simpl.
  - apply Forall_app. split.
    + eapply Forall_impl; [|exact HF]. simpl. intros; lia.
    + constructor; [simpl; lia | constructor].
  - rewrite map_app. simpl.
    apply (Permutation_NoDup (l := seq_no (mkItem (now s + d) p (eid s) e)
                                     :: map seq_no (queue s))).
    + apply Permutation_cons_append.
    + constructor; [|exact HN]. simpl. intros HI.
      apply in_map_iff in HI. destruct HI as (x & Hx & HI).
      rewrite Forall_forall in HF. apply HF in HI. lia.
Qed.

Lemma trigger_put_eid_inv : forall s, eid_inv s -> eid_inv (trigger_put s).
Proof.
  intros s Hinv.
  destruct (trigger_put_cases s) as [[_ E]|[(r & rest & _ & _ & E)|(r & rest & Hq & L & E)]];
    rewrite E; try exact Hinv.
  apply schedule_eid_inv. exact Hinv.
Qed.

Lemma create_patients_eid_inv : forall n s,
  eid_inv s -> eid_inv (create_patients n s).
Proof.
  intros n s. unfold create_patients. generalize 0%nat. revert s.
  induction n as [|n IH]; intros s k H; simpl; [exact H|].
  apply IH. apply schedule_eid_inv. exact H.
Qed.

Lemma eid_inv_setup : forall cap n until s,
  setup cap n until = Some s -> eid_inv s.
Proof.
  intros cap n until s H. apply setup_inv in H. destruct H as (_ & _ & ->).
  apply schedule_eid_inv. apply create_patients_eid_inv.
  split; simpl; constructor.
Qed.

Lemma eid_inv_step : forall s s',
  eid_inv s -> Step s = Continue s' -> eid_inv s'.
Proof.
  intros s s' Hinv H. apply step_inv in H. destruct H as (it & q & E & H).
  assert (H0 : eid_inv (set_now (due it) (set_queue q s))).
  { destruct Hinv as [HF HN]. rewrite (heappop_perm _ _ _ E) in HF, HN.
    apply Forall_cons_iff in HF. simpl in HN. apply NoDup_cons_iff in HN.
    split; simpl; tauto. }
  set (s0 := set_now (due it) (set_queue q s)) in *. clearbody s0.
  destruct (event it); simpl in H.
  - apply continue_inv in H. unfold visit_a_and_e in H.
    apply timeout_inv in H. destruct H as [_ ->].
    apply schedule_eid_inv. exact H0.
  - inversion H; subst. unfold visit_a_and_e_resume, generator_end, process.
    repeat apply schedule_eid_inv. exact H0.
  - inversion H; subst. unfold process_patient, request.
    apply trigger_put_eid_inv. exact H0.
  - apply continue_inv in H. unfold process_patient_granted in H.
    destruct (list_remove _ _) as [w|]; [|discriminate].
    apply timeout_inv in H. destruct H as [_ ->].
    apply schedule_eid_inv. exact H0.
  - inversion H; subst.
    rewrite process_patient_discharge_eq.
    unfold generator_end, live_life, process, release.
    apply schedule_eid_inv.
    match goal with |- eid_inv (record_completion ?a ?b ?c ?x) =>
      change (eid_inv x) end.
    repeat apply schedule_eid_inv. exact H0.
  - inversion H; subst. apply trigger_put_eid_inv. exact H0.
  - inversion H; subst. exact H0.
  - discriminate.
Qed.

Lemma eid_inv_reachable : forall cap n until s,
  Reachable cap n until s -> eid_inv s.
Proof.
  intros cap n until. apply reachable_ind_inv.
  - apply eid_inv_setup.
  - intros s s' _. apply eid_inv_step.
Qed.

(** The popped item is least in Python's tuple order. *)
Lemma heappop_least : forall q x r,
  heappop q = Some (x, r) -> Forall (fun y => item_ltb y x = false) r.
Proof.
  induction q as [|a q IH]; intros x r H; simpl in H; [discriminate|].
  destruct (heappop q) as [[m r']|] eqn:E.
  - specialize (IH _ _ eq_refl).
    destruct (item_ltb m a) eqn:L; inversion H; subst; clear H.
    + constructor; [|exact IH].
      unfold item_ltb in *.
      destruct (due x ?= due a) eqn:C1.
      * apply Qeq_alt in C1. symmetry in C1. apply Qeq_alt in C1. rewrite C1.
        destruct (priority x ?= priority a)%Z eqn:C2; try discriminate.
        -- rewrite Z.compare_antisym, C2. simpl.
           apply Nat.ltb_lt in L. apply Nat.ltb_ge. lia.
        -- rewrite Z.compare_antisym, C2. reflexivity.
      * apply Qlt_alt in C1. apply Qgt_alt in C1. rewrite C1. reflexivity.
      * discriminate.
    + rewrite (heappop_perm _ _ _ E). constructor; [exact L|].
      eapply Forall_impl; [|exact IH]. simpl. intros y Hy.
      unfold item_ltb in *.
      destruct (due y ?= due m) eqn:C1; try discriminate.
      * apply Qeq_alt in C1.
        destruct (due m ?= due x) eqn:C2; try discriminate.
        -- apply Qeq_alt in C2.
           assert (C3 : due y == due x) by (rewrite C1; exact C2).
           apply Qeq_alt in C3. rewrite C3.
           destruct (priority y ?= priority m)%Z eqn:C4; try discriminate.
           ++ apply Z.compare_eq in C4. rewrite C4.
              destruct (priority m ?= priority x)%Z; try discriminate; auto.
              apply Nat.ltb_ge in Hy, L. apply Nat.ltb_ge. lia.
           ++ apply Z.compare_gt_iff in C4.
              destruct (priority m ?= priority x)%Z eqn:C5; try discriminate.
              ** apply Z.compare_eq in C5.
                 assert (C6 : (priority y ?= priority x)%Z = Gt)
                   by (apply Z.compare_gt_iff; lia).
                 rewrite C6. reflexivity.
              ** apply Z.compare_gt_iff in C5.
                 assert (C6 : (priority y ?= priority x)%Z = Gt)
                   by (apply Z.compare_gt_iff; lia).
                 rewrite C6. reflexivity.
        -- apply Qgt_alt in C2.
           assert (C3 : due x < due y) by (rewrite C1; exact C2).
           apply Qgt_alt in C3. rewrite C3. reflexivity.
      * apply Qgt_alt in C1.
        assert (C3 : due x < due y).
        { destruct (due m ?= due x) eqn:C2; try discriminate.
          - apply Qeq_alt in C2. rewrite <- C2. exact C1.
          - apply Qgt_alt in C2. eapply Qlt_trans; eassumption. }
        apply Qgt_alt in C3. rewrite C3. reflexivity.
  - inversion H; subst. constructor.
Qed.

(** ** What a step schedules *)

Lemma step_queue : forall s s',
  Step s = Continue s' ->
  exists it q l,
    heappop (queue s) = Some (it, q) /\ queue s' = q ++ l /\ now s' = due it /\
    match event it with
    | Initialize_visit p =>
        map event l = [Timeout_visit p] /\ draws s' = S (draws s)
    | Timeout_visit p =>
        map event l = [Initialize_patient p; Process_end] /\ draws s' = draws s
    | Initialize_patient p =>
        (l = [] \/ exists r, map event l = [Request_granted r]) /\
        draws s' = draws s
    | Request_granted r =>
        map event l = [Timeout_doctor r] /\ draws s' = S (draws s)
    | Timeout_doctor r =>
        map event l = [Release; Initialize_visit (req_patient r); Process_end] /\
        draws s' = draws s
    | Release =>
        (l = [] \/ exists r, map event l = [Request_granted r]) /\
        draws s' = draws s
    | Process_end => l = [] /\ s' = set_now (due it) (set_queue q s)
    | Until => False
    end.
Proof.
  intros s s' H. apply step_inv in H. destruct H as (it & q & E & H).
  exists it, q.
  destruct (event it); simpl in H.
  - apply continue_inv in H. unfold visit_a_and_e in H.
    apply timeout_inv in H. destruct H as [_ ->]. simpl.
    eexists. repeat split; try exact E.
  - inversion H; subst. simpl. rewrite <- app_assoc. simpl.
    eexists. repeat split; try exact E.
  - inversion H; subst. unfold process_patient, request.
    match goal with |- context [trigger_put ?x] =>
      destruct (trigger_put_cases x)
        as [[_ E1]|[(r & rest & _ & _ & E1)|(r & rest & _ & _ & E1)]];
      rewrite E1 end; simpl.
    + exists []. rewrite app_nil_r. repeat split; try exact E. left. reflexivity.
    + exists []. rewrite app_nil_r. repeat split; try exact E. left. reflexivity.
    + eexists. repeat split; try exact E. right. exists r. reflexivity.
  - apply continue_inv in H. unfold process_patient_granted in H.
    destruct (list_remove _ _) as [w|]; [|discriminate].
    apply timeout_inv in H. destruct H as [_ ->]. simpl.
    eexists. repeat split; try exact E.
  - inversion H; subst. simpl. rewrite <- !app_assoc. simpl.
    eexists. repeat split; try exact E.
  - inversion H; subst.
    match goal with |- context [trigger_put ?x] =>
      destruct (trigger_put_cases x)
        as [[_ E1]|[(r & rest & _ & _ & E1)|(r & rest & _ & _ & E1)]];
      rewrite E1 end; simpl.
    + exists []. rewrite app_nil_r. repeat split; try exact E. left. reflexivity.
    + exists []. rewrite app_nil_r. repeat split; try exact E. left. reflexivity.
    + eexists. repeat split; try exact E. right. exists r. reflexivity.
  - inversion H; subst. exists []. rewrite app_nil_r. repeat split; try exact E.
  - discriminate.
Qed.

(** ** Persons and visits *)

Lemma granted_le_visiting : forall q x,
  (count_occ Nat.eq_dec (map req_patient (flat_map granted q)) x <=
   count_occ Nat.eq_dec (flat_map visiting q) x)%nat.
Proof.
  intros q x. induction q as [|a q IH]; simpl; [lia|].
  unfold granted at 1, visiting at 1.
  destruct (event a); simpl; try exact IH;
    destruct (Nat.eq_dec _ x); try exact IH.
  - apply le_S. exact IH.
  - apply le_n_S. exact IH.
  - apply le_S. exact IH.
Qed.

Lemma agents_NoDup : forall cap n until s,
  Reachable cap n until s -> NoDup (agents s).
Proof.
  intros cap n until s R.
  apply (Permutation_NoDup (l := seq 0 n)).
  - symmetry. apply (agents_inv_reachable _ _ _ _ R).
  - apply seq_NoDup.
Qed.

Lemma waiting_room_NoDup : forall cap n until s,
  Reachable cap n until s -> NoDup (waiting_room s).
Proof.
  intros cap n until s R.
  pose proof (agents_NoDup _ _ _ _ R) as ND.
  unfold agents, patients in ND. apply NoDup_app_remove_l in ND.
  rewrite (NoDup_count_occ Nat.eq_dec) in ND.
  apply (Permutation_NoDup (l := map req_patient
           (put_queue s ++ flat_map granted (queue s)))).
  - symmetry. apply (waiting_room_inv_reachable _ _ _ _ R).
  - apply (NoDup_count_occ Nat.eq_dec). intros x. specialize (ND x).
    rewrite map_app. rewrite count_occ_app in *.
    pose proof (granted_le_visiting (queue s) x) as G.
    unfold Person in *. lia.
Qed.

(** C10: at every state of a run each person owns one live process, so at
    most one service process; no arrival process of a person exists while
    a visit of that person waits or is served; a person occurs at most
    once in the waiting room; and an arrival process is started by a step
    only when [process_patient] resumes from the doctor's timeout of that
    person. *)
Theorem one_visit_per_person : forall cap n until s,
  Reachable cap n until s ->
  Permutation (agents s) (seq 0 n) /\
  NoDup (patients s) /\
  NoDup (waiting_room s) /\
  (forall p, In p (patients s) -> ~ In p (flat_map arriving (queue s))) /\
  (forall s' it q l p,
     Step s = Continue s' -> heappop (queue s) = Some (it, q) ->
     queue s' = q ++ l -> In (Initialize_visit p) (map event l) ->
     exists r, event it = Timeout_doctor r /\ req_patient r = p).
Proof.
  intros cap n until s R.
  pose proof (agents_NoDup _ _ _ _ R) as ND.
  split; [apply (agents_inv_reachable _ _ _ _ R)|].
  split; [unfold agents in ND; apply NoDup_app_remove_l in ND; exact ND|].
  split; [apply (waiting_room_NoDup _ _ _ _ R)|].
  split.
  - intros p Hp Ha. rewrite (NoDup_count_occ Nat.eq_dec) in ND.
    specialize (ND p). unfold agents in ND. rewrite count_occ_app in ND.
    apply (count_occ_In Nat.eq_dec) in Hp, Ha. unfold Person in *. lia.
  - intros s' it q l p H E Hq Hin.
    destruct (step_queue s s' H) as (it' & q' & l' & E' & Hq' & _ & Hev).
    rewrite E in E'. inversion E'; subst it' q'.
    rewrite Hq in Hq'. apply app_inv_head in Hq'. subst l'.
    destruct (event it) as [x|x|x|r|r| | |].
    + destruct Hev as [Hev _]. rewrite Hev in Hin.
      destruct Hin as [Hin|[]]. discriminate.
    + destruct Hev as [Hev _]. rewrite Hev in Hin.
      destruct Hin as [Hin|[Hin|[]]]; discriminate.
    + destruct Hev as [[->|(r & Hev)] _]; [destruct Hin|].
      rewrite Hev in Hin. destruct Hin as [Hin|[]]. discriminate.
    + destruct Hev as [Hev _]. rewrite Hev in Hin.
      destruct Hin as [Hin|[]]. discriminate.
    + destruct Hev as [Hev _]. rewrite Hev in Hin.
      destruct Hin as [Hin|[Hin|[Hin|[]]]]; try discriminate.
      inversion Hin. exists r. split; reflexivity.
    + destruct Hev as [[->|(r & Hev)] _]; [destruct Hin|].
      rewrite Hev in Hin. destruct Hin as [Hin|[]]. discriminate.
    + destruct Hev as [-> _]. destruct Hin.
    + destruct Hev.
Qed.

(** C4, as the code has it: when the arrival process of a person resumes
    from its timeout it starts the service process and ends, with no new
    draw; the person's next arrival process is started by the service
    process at discharge, and before that discharge the person has no
    arrival process at all. *)
Theorem arrival_process_ends_after_spawn : forall cap n until s s' it q,
  Reachable cap n until s ->
  Step s = Continue s' -> heappop (queue s) = Some (it, q) ->
  (forall p, event it = Timeout_visit p ->
     draws s' = draws s /\
     map event (queue s') = map event q ++ [Initialize_patient p; Process_end] /\
     ~ In p (flat_map arriving (queue s'))) /\
  (forall r, event it = Timeout_doctor r ->
     map event (queue s') =
       map event q ++ [Release; Initialize_visit (req_patient r); Process_end]) /\
  (forall p, In p (patients s') -> ~ In p (flat_map arriving (queue s'))).
Proof.
  intros cap n until s s' it q R H E.
  assert (R' : Reachable cap n until s') by (eapply reachable_step; eassumption).
  pose proof (agents_NoDup _ _ _ _ R') as ND.
  assert (D : forall p, In p (patients s') -> ~ In p (flat_map arriving (queue s'))).
  { intros p Hp Ha. rewrite (NoDup_count_occ Nat.eq_dec) in ND.
    specialize (ND p). unfold agents in ND. rewrite count_occ_app in ND.
    apply (count_occ_In Nat.eq_dec) in Hp, Ha. unfold Person in *. lia. }
  destruct (step_queue s s' H) as (it' & q' & l & E' & Hq & _ & Hev).
  rewrite E in E'. inversion E'; subst it' q'.
  split; [|split; [|exact D]].
  - intros p Ev. rewrite Ev in Hev. destruct Hev as [Hl Hd].
    split; [exact Hd|]. split; [rewrite Hq, map_app, Hl; reflexivity|].
    apply D. unfold patients. apply in_or_app. right.
    rewrite Hq, flat_map_app. apply in_or_app. right.
    destruct l as [|a [|b [|c l]]]; try discriminate.
    injection Hl as Ha Hb. simpl. unfold visiting at 1. rewrite Ha.
    left. reflexivity.
  - intros r Ev. rewrite Ev in Hev. destruct Hev as [Hl _].
    rewrite Hq, map_app, Hl. reflexivity.
Qed.

(** ** The end of a service process *)

(** C5: in the block of statements that [process_patient] runs when it
    comes back from the doctor, the three appends of the completion sample
    are followed by the end of the generator and by nothing else.  With [x]
    the state right after the sample, the state of the step is [x] plus
    the [Process] event of the ended generator: the resource, the waiting
    room, the draws and the tables are those of [x] and no process is
    started.  Nothing of the process is left to resume (its request is
    neither pending, nor served, nor a user), and a step that pops a
    [Process] event does nothing but pop it. *)
Theorem service_process_ends_after_completion :
  forall cap n until s s' it q r,
  Reachable cap n until s ->
  Step s = Continue s' -> heappop (queue s) = Some (it, q) ->
  event it = Timeout_doctor r ->
  (exists before,
     discharge_statements = before ++ [Save_data; Return] /\
     let x := fst (exec get_full_name r Save_data
                     (exec_all get_full_name r before
                        (set_now (due it) (set_queue q s), 0))) in
     wait_time_hrs x = wait_time_hrs s ++ [(now s' - req_arrival r) / 3600] /\
     s' = generator_end x /\
     queue s' = queue x ++ [mkItem (now x + 0) NORMAL (eid x) Process_end] /\
     agents s' = agents x /\
     users s' = users x /\ put_queue s' = put_queue x /\
     waiting_room s' = waiting_room x /\ draws s' = draws x /\
     queue_length s' = queue_length x /\
     queue_admittance_time_days s' = queue_admittance_time_days x /\
     patient_name s' = patient_name x /\
     admittance_time_days s' = admittance_time_days x /\
     wait_time_hrs s' = wait_time_hrs x) /\
  ~ In (rid r) (map rid (in_flight s')) /\
  ~ In (rid r) (map rid (users s')) /\
  (forall y y' it' q',
     heappop (queue y) = Some (it', q') -> event it' = Process_end ->
     Step y = Continue y' -> y' = set_now (due it') (set_queue q' y)).
Proof.
  intros cap n until s s' it q r R H E Ev.
  assert (R' : Reachable cap n until s') by (eapply reachable_step; eassumption).
  destruct (request_inv_reachable _ _ _ _ R) as (ND & _ & _).
  destruct (request_inv_reachable _ _ _ _ R') as (_ & _ & US').
  rewrite (in_flight_pop s it q E) in ND.
  unfold served at 1 in ND. rewrite Ev in ND. simpl in ND.
  apply NoDup_cons_iff in ND. destruct ND as [ND _].
  unfold step in H. rewrite E in H. rewrite Ev in H. simpl in H.
  inversion H; subst s'. clear H R'.
  assert (Hw0 : wait_time_hrs (set_now (due it) (set_queue q s)) =
                wait_time_hrs s) by reflexivity.
  set (s0 := set_now (due it) (set_queue q s)) in *. clearbody s0.
  rewrite <- Hw0. clear Hw0.
  assert (F : in_flight (process_patient_discharge get_full_name r s0) =
              in_flight s0).
  { rewrite process_patient_discharge_eq. unfold in_flight. simpl.
    rewrite !flat_map_snoc. simpl. rewrite !app_nil_r. reflexivity. }
  split; [|split; [|split]].
  - exists [Release_capacity; Wait_time; Live_life].
    split; [reflexivity|]. cbv zeta.
    change (exec_all get_full_name r [Release_capacity; Wait_time; Live_life]
              (s0, 0))
      with (live_life (req_patient r) (release r s0),
            now (release r s0) - req_arrival r).
    rewrite process_patient_discharge_eq.
    set (y := live_life (req_patient r) (release r s0)).
    assert (Hy : wait_time_hrs y = wait_time_hrs s0) by reflexivity.
    assert (Hn : now (release r s0) = now y) by reflexivity.
    rewrite Hn. clearbody y. clear Hn.
    split; [simpl; rewrite Hy; reflexivity|].
    split; [reflexivity|]. split; [reflexivity|].
    split.
    + unfold agents, patients. simpl. rewrite !flat_map_snoc. simpl.
      rewrite !app_nil_r. reflexivity.
    + repeat (split; [reflexivity|]). reflexivity.
  - rewrite F. exact ND.
  - intros HI. apply ND. rewrite <- F. unfold in_flight. rewrite map_app.
    apply in_or_app. right.
    apply (Permutation_in (l := map rid (users
             (process_patient_discharge get_full_name r s0)))).
    + apply Permutation_map. exact US'.
    + exact HI.
  - intros y y' it' q' E' Ev' H'. unfold step in H'.
    rewrite E', Ev' in H'. simpl in H'. inversion H'. reflexivity.
Qed.

(** ** The waiting room, as the code keeps it *)

(** C6, as the code has it: the waiting room holds the patients whose
    request is pending together with those whose request is granted while
    the [Request] event is still in the heap; such an event is due at the
    current time, so the patient leaves the room at the simulated time of
    the grant, when the event is popped.  An arrival appends the patient
    and records the size that includes it; no other step touches the
    room. *)
Theorem waiting_room_membership : forall cap n until s,
  Reachable cap n until s ->
  Permutation (waiting_room s)
    (map req_patient (put_queue s ++ flat_map granted (queue s))) /\
  Forall (fun i => granted i <> [] -> due i == now s) (queue s) /\
  forall s' it q,
    Step s = Continue s' -> heappop (queue s) = Some (it, q) ->
    match event it with
    | Initialize_patient p =>
        waiting_room s' = waiting_room s ++ [p] /\
        queue_length s' = queue_length s ++ [List.length (waiting_room s')]
    | Request_granted r =>
        list_remove (req_patient r) (waiting_room s) = Some (waiting_room s') /\
        queue_length s' = queue_length s
    | _ => waiting_room s' = waiting_room s /\ queue_length s' = queue_length s
    end.
Proof.
  intros cap n until s R.
  split; [apply (waiting_room_inv_reachable _ _ _ _ R)|]. split.
  - destruct (clock_inv_reachable _ _ _ _ R) as [HQ _].
    eapply Forall_impl; [|exact HQ]. simpl. intros i [_ Hi] Hg.
    unfold granted in Hg. destruct (event i); try congruence. tauto.
  - intros s' it q H E. unfold Step, step in H. rewrite E in H.
    destruct (event it); simpl in H.
    + apply continue_inv in H. unfold visit_a_and_e in H.
      apply timeout_inv in H. destruct H as [_ ->]. split; reflexivity.
    + inversion H; subst. split; reflexivity.
    + inversion H; subst. unfold process_patient, request.
      match goal with |- context [trigger_put ?x] =>
        destruct (trigger_put_cases x)
          as [[_ E1]|[(r & rest & _ & _ & E1)|(r & rest & _ & _ & E1)]];
        rewrite E1 end; split; reflexivity.
    + apply continue_inv in H. unfold process_patient_granted in H.
      simpl in H.
      destruct (list_remove (req_patient r) (waiting_room s)) as [w|];
        [|discriminate].
      apply timeout_inv in H. destruct H as [_ ->]. split; reflexivity.
    + inversion H; subst. split; reflexivity.
    + inversion H; subst.
      match goal with |- context [trigger_put ?x] =>
        destruct (trigger_put_cases x)
          as [[_ E1]|[(r & rest & _ & _ & E1)|(r & rest & _ & _ & E1)]];
        rewrite E1 end; split; reflexivity.
    + inversion H; subst. split; reflexivity.
    + discriminate.
Qed.

(** ** Order of events and determinism *)

(** Python's tuple order tells apart any two items with different event
    ids. *)
Lemma item_ltb_total : forall a b,
  item_ltb a b = false -> item_ltb b a = false -> seq_no a = seq_no b.
Proof.
  intros a b H1 H2. unfold item_ltb in *.
  destruct (due a ?= due b) eqn:C1; try discriminate.
  - assert (C3 : (due b ?= due a) = Eq)
      by (apply Qeq_alt; symmetry; apply Qeq_alt; exact C1).
    rewrite C3 in H2.
    destruct (priority a ?= priority b)%Z eqn:C2; try discriminate.
    + apply Z.compare_eq in C2. rewrite C2, Z.compare_refl in H2.
      apply Nat.ltb_ge in H1, H2. lia.
    + rewrite Z.compare_antisym, C2 in H2. discriminate.
  - assert (C3 : (due b ?= due a) = Lt)
      by (apply Qlt_alt; apply Qgt_alt; exact C1).
    rewrite C3 in H2. discriminate.
Qed.

(** With event ids that differ, the item popped does not depend on how
    the heap arranges its items. *)
Lemma heappop_similar : forall q q2 x r,
  Permutation q q2 -> NoDup (map seq_no q) ->
  heappop q = Some (x, r) ->
  exists r2, heappop q2 = Some (x, r2) /\ Permutation r r2.
Proof.
  intros q q2 x r P ND E.
  pose proof (heappop_perm _ _ _ E) as Pq.
  pose proof (heappop_least _ _ _ E) as L.
  rewrite Pq in ND. simpl in ND. apply NoDup_cons_iff in ND.
  destruct ND as [Nx _].
  destruct (heappop q2) as [[x2 r2]|] eqn:E2.
  - pose proof (heappop_perm _ _ _ E2) as Pq2.
    pose proof (heappop_least _ _ _ E2) as L2.
    assert (PP : Permutation (x :: r) (x2 :: r2))
      by (rewrite <- Pq, <- Pq2; exact P).
    assert (I2 : In x2 (x :: r))
      by (apply (Permutation_in (l := x2 :: r2));
          [symmetry; exact PP | left; reflexivity]).
    assert (I1 : In x (x2 :: r2))
      by (apply (Permutation_in (l := x :: r));
          [exact PP | left; reflexivity]).
    destruct I2 as [<-|I2].
    + exists r2. split; [reflexivity|].
      apply Permutation_cons_inv with (a := x). exact PP.
    + destruct I1 as [->|I1].
      * exists r2. split; [reflexivity|].
        apply Permutation_cons_inv with (a := x). exact PP.
      * exfalso. apply Nx.
        rewrite Forall_forall in L, L2.
        rewrite (item_ltb_total x x2 (L2 x I1) (L x2 I2)).
        apply in_map. exact I2.
  - apply heappop_none in E2. subst q2.
    apply Permutation_sym, Permutation_nil in P. subst q. discriminate.
Qed.

Lemma similar_inv : forall s s2,
  similar s s2 ->
  exists q2, Permutation (queue s) q2 /\ s2 = set_queue q2 s.
Proof.
  intros s s2 [P H]. destruct s, s2. simpl in *. unfold set_queue in H.
  simpl in H. injection H; intros; subst. eexists. split; [exact P|].
  reflexivity.
Qed.

Lemma similar_refl : forall s, similar s s.
Proof. intros s. split; reflexivity. Qed.

(** The callbacks of an event only append to the heap, and read nothing
    of it. *)
Lemma fire_similar : forall e s s2,
  similar s s2 -> outcome_similar (Fire e s) (Fire e s2).
Proof.
  intros e s s2 H. destruct (similar_inv s s2 H) as (q2 & P & ->). clear H.
  destruct s as [nw qu ei ca us pq nr wr dr ql qa pn ad wt]. simpl in P.
  unfold set_queue. simpl.
  destruct e as [p|p|p|r|r| | |]; simpl.
  - unfold visit_a_and_e, timeout. simpl.
    destruct (Qlt_le_dec _ _); simpl; [exact I|].
    split; simpl; [apply Permutation_app_tail; exact P | reflexivity].
  - split; simpl; [repeat apply Permutation_app_tail; exact P | reflexivity].
  - unfold process_patient, request, trigger_put. simpl.
    destruct pq as [|r0 pq]; simpl;
      destruct (Z.of_nat (List.length us) <? ca)%Z; simpl;
      (split; simpl; [repeat apply Permutation_app_tail; exact P | reflexivity]).
  - unfold process_patient_granted, timeout. simpl.
    destruct (list_remove (req_patient r) wr) as [w|]; simpl; [|exact I].
    destruct (Qlt_le_dec _ _); simpl; [exact I|].
    split; simpl; [apply Permutation_app_tail; exact P | reflexivity].
  - rewrite !process_patient_discharge_eq.
    split; simpl; [repeat apply Permutation_app_tail; exact P | reflexivity].
  - unfold trigger_put. simpl.
    destruct pq as [|r0 pq]; simpl;
      [split; simpl; [exact P | reflexivity]|].
    destruct (Z.of_nat (List.length us) <? ca)%Z; simpl;
      (split; simpl; [repeat apply Permutation_app_tail; exact P | reflexivity]).
  - split; simpl; [exact P | reflexivity].
  - split; simpl; [exact P | reflexivity].
Qed.

(** A step pops the same event from both arrangements and leaves states
    that differ again in the arrangement only. *)
Lemma step_similar : forall s s2,
  NoDup (map seq_no (queue s)) -> similar s s2 ->
  outcome_similar (Step s) (Step s2) /\
  match heappop (queue s) with
  | Some (x, r) =>
      exists r2, heappop (queue s2) = Some (x, r2) /\ Permutation r r2
  | None => heappop (queue s2) = None
  end.
Proof.
  intros s s2 ND H. pose proof H as [P Hs]. unfold step.
  destruct (heappop (queue s)) as [[x r]|] eqn:E.
  - destruct (heappop_similar _ _ _ _ P ND E) as (r2 & E2 & Pr).
    rewrite E2. split; [|exists r2; split; [reflexivity | exact Pr]].
    apply fire_similar.
    destruct (similar_inv s s2 H) as (q2 & _ & ->).
    split; [exact Pr|]. destruct s. reflexivity.
  - apply heappop_none in E. rewrite E in P. apply Permutation_nil in P.
    rewrite P. simpl. split; [exact H | reflexivity].
Qed.

(** A step reads the random stream at the number of draws made so far,
    and nowhere else. *)
Lemma step_ext : forall exponential' triangular' get_full_name' s,
  (forall scale,
     exponential' scale (draws s) = exponential scale (draws s)) ->
  (forall lo mode hi,
     triangular' lo mode hi (draws s) = triangular lo mode hi (draws s)) ->
  (forall p, get_full_name' p = get_full_name p) ->
  step exponential' triangular' get_full_name' s = Step s.
Proof.
  intros exponential' triangular' get_full_name' s He Ht Hn.
  unfold Step, step. destruct (heappop (queue s)) as [[it q]|]; [|reflexivity].
  destruct (event it); simpl; try reflexivity.
  - unfold visit_a_and_e. simpl in He. rewrite He. reflexivity.
  - unfold process_patient_granted. simpl in Ht. rewrite Ht. reflexivity.
  - rewrite !process_patient_discharge_eq. rewrite Hn. reflexivity.
Qed.

Lemma step_draws : forall s s',
  Step s = Continue s' -> (draws s <= draws s' <= S (draws s))%nat.
Proof.
  intros s s' H.
  destruct (step_queue s s' H) as (it & q & l & _ & _ & _ & M).
  destruct (event it); try (destruct M as [_ ->]; lia).
  - destruct M as [_ ->]. simpl. lia.
  - destruct M.
Qed.

(** Two runs from two arrangements of the same heap, with random streams
    that agree on the draws the first one makes: the same events are
    popped in the same order, and the outcomes differ in the arrangement
    of the heap only. *)
Lemma run_similar : forall exponential' triangular' get_full_name' fuel s s2,
  eid_inv s -> similar s s2 ->
  (forall scale k, (draws s <= k < draws s + fuel)%nat ->
     exponential' scale k = exponential scale k) ->
  (forall lo mode hi k, (draws s <= k < draws s + fuel)%nat ->
     triangular' lo mode hi k = triangular lo mode hi k) ->
  (forall p, get_full_name' p = get_full_name p) ->
  fired exponential' triangular' get_full_name' fuel s2 =
    fired exponential triangular get_full_name fuel s /\
  outcome_similar
    (run_loop exponential triangular get_full_name fuel s)
    (run_loop exponential' triangular' get_full_name' fuel s2).
Proof.
  intros exponential' triangular' get_full_name' fuel.
  induction fuel as [|f IH]; intros s s2 EI H He Ht Hn.
  - simpl. split; [reflexivity | exact H].
  - assert (Hd : draws s2 = draws s).
    { destruct (similar_inv s s2 H) as (q2 & _ & ->). reflexivity. }
    assert (X : step exponential' triangular' get_full_name' s2 = Step s2).
    { apply step_ext; [| |exact Hn].
      - intros scale. apply He. rewrite Hd. lia.
      - intros lo mode hi. apply Ht. rewrite Hd. lia. }
    destruct (step_similar s s2 (proj2 EI) H) as [O M].
    simpl. rewrite X.
    destruct (heappop (queue s)) as [[x r]|] eqn:E.
    + destruct M as (r2 & -> & _).
      destruct (Step s) as [s'| | |] eqn:S1;
        destruct (Step s2) as [s2'| | |] eqn:S2; simpl in O;
        try contradiction; try (split; [reflexivity | exact O]).
      pose proof (step_draws s s' S1) as D.
      destruct (IH s' s2' (eid_inv_step _ _ EI S1) O) as [F R'].
      * intros scale k Hk. apply He. lia.
      * intros lo mode hi k Hk. apply Ht. lia.
      * exact Hn.
      * split; [rewrite F; reflexivity | exact R'].
    + rewrite M. split; [reflexivity|].
      unfold step in *. rewrite E in O. rewrite M in O |- *. rewrite E.
      exact O.
Qed.

(** C8, as the code has it: the popped event is due no later than any
    other; among events due at the same time one of lower priority number
    ([URGENT], the start of a process and the stop event) goes before one
    of higher ([NORMAL]), and events of equal priority go in creation
    order.  Because event ids differ this order leaves no choice: from
    any arrangement of the same pending events the same event is popped,
    and two runs whose random streams agree on the draws that are made
    pop the same events in the same order and end with the same clock,
    resource and tables. *)
Theorem pop_order_and_determinism : forall cap n until s x r,
  Reachable cap n until s ->
  heappop (queue s) = Some (x, r) ->
  Forall (fun y =>
            due x <= due y /\
            (due x == due y ->
             (priority x < priority y)%Z \/
             (priority x = priority y /\ (seq_no x < seq_no y)%nat))) r /\
  forall s2, similar s s2 ->
    (exists r2, heappop (queue s2) = Some (x, r2) /\ Permutation r r2) /\
    forall exponential' triangular' get_full_name' fuel,
      (forall scale k, (draws s <= k < draws s + fuel)%nat ->
         exponential' scale k = exponential scale k) ->
      (forall lo mode hi k, (draws s <= k < draws s + fuel)%nat ->
         triangular' lo mode hi k = triangular lo mode hi k) ->
      (forall p, get_full_name' p = get_full_name p) ->
      fired exponential' triangular' get_full_name' fuel s2 =
        fired exponential triangular get_full_name fuel s /\
      outcome_similar
        (run_loop exponential triangular get_full_name fuel s)
        (run_loop exponential' triangular' get_full_name' fuel s2).
Proof.
  intros cap n until s x r R E.
  pose proof (eid_inv_reachable _ _ _ _ R) as EI. split.
  - destruct EI as [_ ND].
    rewrite (heappop_perm _ _ _ E) in ND. simpl in ND.
    apply NoDup_cons_iff in ND. destruct ND as [ND _].
    pose proof (heappop_least _ _ _ E) as HL.
    pose proof (heappop_due_min _ _ _ E) as HM.
    rewrite Forall_forall in *. intros y Hy.
    split; [apply HM; exact Hy|]. intros Heq.
    specialize (HL y Hy). unfold item_ltb in HL.
    assert (C : (due y ?= due x) = Eq) by (apply Qeq_alt; symmetry; exact Heq).
    rewrite C in HL.
    assert (Hs : seq_no y <> seq_no x).
    { intros Hs. apply ND. rewrite <- Hs. apply in_map. exact Hy. }
    destruct (priority y ?= priority x)%Z eqn:C2; try discriminate.
    + apply Z.compare_eq in C2. right. split; [congruence|].
      apply Nat.ltb_ge in HL. lia.
    + apply Z.compare_gt_iff in C2. left. exact C2.
  - intros s2 H. split.
    + destruct H as [P _]. exact (heappop_similar _ _ _ _ P (proj2 EI) E).
    + intros exponential' triangular' get_full_name' fuel He Ht Hn.
      apply run_similar; assumption.
Qed.

(** ** Construction of the department *)

(** C9: with a capacity that is not positive the construction of the
    department raises, so the script stops before the run loop: no set-up
    state exists, the run is the exception whatever the fuel, and no state
    of a run is ever reached. *)
Theorem nonpositive_capacity_fails_fast : forall cap,
  (cap <= 0)%Z ->
  AccidentEmergencyDepartment_init cap = None /\
  forall n until,
    setup cap n until = None /\
    (forall fuel,
       main exponential triangular get_full_name cap n until fuel = ValueError) /\
    (forall s, ~ Reachable cap n until s).
Proof.
  intros cap H.
  assert (A : AccidentEmergencyDepartment_init cap = None).
  { unfold AccidentEmergencyDepartment_init, Resource_init.
    apply Z.leb_le in H. rewrite H. reflexivity. }
  split; [exact A|]. intros n until.
  assert (B : setup cap n until = None) by (unfold setup; rewrite A; reflexivity).
  split; [exact B|]. split.
  - intros fuel. unfold main. rewrite B. reflexivity.
  - intros s R. induction R as [s0 Hs|s1 s2 R IH Hs]; [congruence | exact IH].
Qed.


(** ** The horizon *)

Lemma schedule_horizon_inv : forall until e p d s,
  e <> Until -> p = URGENT \/ p = NORMAL ->
  horizon_inv until s -> horizon_inv until (schedule e p d s).
Proof.
  intros hz e p d s He Hp (u & Hin & Hev & Hpr & Hd & Hs & HF).
  exists u. simpl. repeat split; try assumption.
  - apply in_or_app. left. exact Hin.
  - lia.
  - apply Forall_app. split; [exact HF|].
    constructor; [|constructor]. right. simpl. repeat split; try assumption.
    right. exact Hs.
Qed.

Lemma trigger_put_horizon_inv : forall until s,
  horizon_inv until s -> horizon_inv until (trigger_put s).
Proof.
  intros hz s Hinv.
  destruct (trigger_put_cases s) as [[_ E]|[(r & rest & _ & _ & E)|(r & rest & Hq & L & E)]];
    rewrite E; try exact Hinv.
  apply schedule_horizon_inv; [discriminate | right; reflexivity | exact Hinv].
Qed.

Lemma create_patients_horizon : forall n s,
  eid (create_patients n s) = (eid s + n)%nat.
Proof.
  intros n s. unfold create_patients. generalize 0%nat. revert s.
  induction n as [|n IH]; intros s k; simpl; [lia|].
  rewrite IH. simpl. lia.
Qed.

Lemma horizon_inv_setup : forall cap n until s,
  setup cap n until = Some s -> horizon_inv until s.
Proof.
  intros cap n until s H. apply setup_inv in H. destruct H as (_ & Hu & ->).
  destruct (create_patients_frame n (Environment_init cap)) as (Hn & _).
  set (s0 := create_patients n (Environment_init cap)) in *.
  exists (mkItem (now s0 + (until - 0)) URGENT (eid s0) Until).
  simpl. repeat split.
  - apply in_or_app. right. left. reflexivity.
  - rewrite Hn. simpl. ring.
  - lia.
  - apply Forall_app. split.
    + subst s0. rewrite create_patients_queue, create_patients_horizon.
      apply Forall_forall. intros x Hx. apply in_map_iff in Hx.
      destruct Hx as (p & <- & Hp). right. simpl.
      repeat split; [discriminate | left; reflexivity | left; lra].
    + constructor; [left; reflexivity | constructor].
Qed.

(** An event popped while the stop event waits is due before the horizon. *)
Lemma horizon_inv_pop : forall until s it q,
  horizon_inv until s -> heappop (queue s) = Some (it, q) ->
  event it <> Until ->
  horizon_inv until (set_now (due it) (set_queue q s)) /\ due it < until.
Proof.
  intros hz s it q (u & Hin & Hev & Hpr & Hd & Hs & HF) E Hne.
  pose proof (heappop_least _ _ _ E) as HL.
  rewrite (heappop_perm _ _ _ E) in HF. apply Forall_cons_iff in HF.
  destruct HF as [Hit HF].
  assert (Hu : In u q).
  { apply (Permutation_in _ (heappop_perm _ _ _ E)) in Hin.
    destruct Hin as [<-|Hin]; [congruence | exact Hin]. }
  split.
  - exists u. simpl. repeat split; assumption.
  - destruct Hit as [->|(_ & Hp & Hdue)]; [congruence|].
    destruct Hdue as [Hdue|Hseq]; [exact Hdue|].
    rewrite Forall_forall in HL. specialize (HL u Hu).
    unfold item_ltb in HL. rewrite Hpr in HL.
    destruct (due u ?= due it) eqn:C; try discriminate.
    + exfalso. destruct Hp as [Hp|Hp]; rewrite Hp in HL; simpl in HL.
      * apply Nat.ltb_ge in HL. lia.
      * discriminate.
    + apply Qgt_alt in C. rewrite <- Hd. exact C.
Qed.

Lemma horizon_inv_step : forall until s s',
  horizon_inv until s -> Step s = Continue s' -> horizon_inv until s'.
Proof.
  intros hz s s' Hinv H. apply step_inv in H. destruct H as (it & q & E & H).
  assert (Hne : event it <> Until).
  { intros Ev. rewrite Ev in H. discriminate. }
  destruct (horizon_inv_pop hz s it q Hinv E Hne) as [H0 _].
  set (s0 := set_now (due it) (set_queue q s)) in *. clearbody s0.
  destruct (event it); simpl in H.
  - apply continue_inv in H. unfold visit_a_and_e in H.
    apply timeout_inv in H. destruct H as [_ ->].
    apply schedule_horizon_inv; [discriminate | right; reflexivity | exact H0].
  - inversion H; subst. unfold visit_a_and_e_resume, generator_end, process.
    apply schedule_horizon_inv; [discriminate | right; reflexivity |].
    apply schedule_horizon_inv; [discriminate | left; reflexivity | exact H0].
  - inversion H; subst. unfold process_patient, request.
    apply trigger_put_horizon_inv. exact H0.
  - apply continue_inv in H. unfold process_patient_granted in H.
    destruct (list_remove _ _) as [w|]; [|discriminate].
    apply timeout_inv in H. destruct H as [_ ->].
    apply schedule_horizon_inv; [discriminate | right; reflexivity | exact H0].
  - inversion H; subst.
    rewrite process_patient_discharge_eq.
    unfold generator_end, live_life, process, release.
    apply schedule_horizon_inv; [discriminate | right; reflexivity |].
    match goal with |- horizon_inv _ (record_completion ?a ?b ?c ?x) =>
      change (horizon_inv hz x) end.
    apply schedule_horizon_inv; [discriminate | left; reflexivity |].
    apply schedule_horizon_inv; [discriminate | right; reflexivity | exact H0].
  - inversion H; subst. apply trigger_put_horizon_inv. exact H0.
  - inversion H; subst. exact H0.
  - discriminate.
Qed.

Lemma horizon_inv_reachable : forall cap n until s,
  Reachable cap n until s -> horizon_inv until s.
Proof.
  intros cap n until. apply reachable_ind_inv.
  - apply horizon_inv_setup.
  - intros s s' _. apply horizon_inv_step.
Qed.


Lemma step_clock : forall cap n until s s',
  Reachable cap n until s -> Step s = Continue s' -> now s <= now s'.
Proof.
  intros cap n until s s' R H.
  destruct (step_queue s s' H) as (it & q & l & E & _ & Hn & _).
  destruct (clock_inv_pop s it q (clock_inv_reachable _ _ _ _ R) E)
    as (_ & Hle & _).
  rewrite Hn. exact Hle.
Qed.

Lemma now_nonneg : forall cap n until s,
  Reachable cap n until s -> 0 <= now s.
Proof.
  intros cap n until. apply reachable_ind_inv.
  - intros s H. apply setup_inv in H. destruct H as (_ & _ & ->).
    destruct (create_patients_frame n (Environment_init cap)) as (Hn & _).
    simpl. rewrite Hn. simpl. lra.
  - intros s s' R IH H. pose proof (step_clock _ _ _ _ _ R H). lra.
Qed.

(** X1: the clock of a run starts at 0, never goes back from one state to
    a later one, and never passes the horizon given to [env.run]. *)
Theorem clock_monotone_within_horizon : forall cap n until s,
  reachable exponential triangular get_full_name cap n until s ->
  0 <= now s /\ now s <= until /\
  forall s', later (step exponential triangular get_full_name) s s' ->
             now s <= now s'.
Proof.
  intros cap n until s R. split; [apply (now_nonneg _ _ _ _ R)|]. split.
  - destruct (horizon_inv_reachable _ _ _ _ R) as (u & Hin & _ & _ & Hd & _).
    destruct (clock_inv_reachable _ _ _ _ R) as [HQ _].
    rewrite Forall_forall in HQ. destruct (HQ u Hin) as [Hle _]. lra.
  - intros s' L. induction L as [|s1 s2 L IH H]; [lra|].
    assert (R1 : Reachable cap n until s1)
      by (eapply later_reachable; eassumption).
    pose proof (step_clock _ _ _ _ _ R1 H). lra.
Qed.

(** X2: a step of a run raises no exception ([waiting_room.remove] finds
    its patient, no timeout gets a negative delay) and never finds the heap
    empty; the only way out of the loop is the stop event, and then the
    clock reads the horizon and every table and the resource are as the
    last step left them. *)
Theorem run_ends_only_at_horizon : forall cap n until s,
  reachable exponential triangular get_full_name cap n until s ->
  step exponential triangular get_full_name s <> ValueError /\
  (forall s', step exponential triangular get_full_name s <> EmptySchedule s') /\
  (forall s', step exponential triangular get_full_name s = StopSimulation s' ->
     now s' == until /\
     users s' = users s /\ put_queue s' = put_queue s /\
     waiting_room s' = waiting_room s /\
     queue_length s' = queue_length s /\ wait_time_hrs s' = wait_time_hrs s).
Proof.
  intros cap n until s R.
  split; [apply (step_never_raises _ _ _ _ R)|].
  destruct (horizon_inv_reachable _ _ _ _ R) as (u & Hin & Hev & _ & Hd & _ & HF).
  split.
  - intros s' H. unfold step in H.
    destruct (heappop (queue s)) as [[it q]|] eqn:E.
    + destruct (event it); simpl in H; try discriminate.
      * destruct (visit_a_and_e exponential self _); discriminate.
      * destruct (process_patient_granted triangular r _); discriminate.
    + apply heappop_none in E. rewrite E in Hin. destruct Hin.
  - intros s' H. unfold step in H.
    destruct (heappop (queue s)) as [[it q]|] eqn:E; [|discriminate].
    assert (Hit : In it (queue s)).
    { apply (Permutation_in _ (Permutation_sym (heappop_perm _ _ _ E))).
      left. reflexivity. }
    rewrite Forall_forall in HF.
    destruct (event it) eqn:Ev; simpl in H; try discriminate.
    + destruct (visit_a_and_e exponential self _); discriminate.
    + destruct (process_patient_granted triangular r _); discriminate.
    + inversion H; subst s'. simpl.
      destruct (HF it Hit) as [->|(Hne & _)]; [|congruence].
      repeat split. exact Hd.
Qed.


(** ** The run reaches the horizon *)

Local Arguments Z.mul : simpl never.

Lemma budget_nonneg : forall hz lb, (0 <= budget hz lb)%Z.
Proof. intros hz lb. unfold budget. lia. Qed.

Lemma budget_mono : forall hz lb lb',
  lb <= lb' -> (budget hz lb' <= budget hz lb)%Z.
Proof.
  intros hz lb lb' H. unfold budget.
  apply Z.max_le_compat_l. apply Qceiling_resp_le.
  apply Qmult_le_compat_r; [lra|]. apply Qlt_le_weak. reflexivity.
Qed.

Lemma budget_step : forall hz d,
  d < hz -> (budget hz (d + 300) + 1 <= budget hz d)%Z.
Proof.
  intros hz d H. unfold budget.
  assert (P : 0 < (hz - d) / 300).
  { apply Qlt_shift_div_l; [reflexivity | lra]. }
  assert (C1 : (1 <= Qceiling ((hz - d) / 300))%Z).
  { pose proof (Qle_ceiling ((hz - d) / 300)) as L.
    assert (L2 : 0 < inject_Z (Qceiling ((hz - d) / 300))) by lra.
    rewrite <- (Zlt_Qlt 0) in L2. lia. }
  assert (C2 : (Qceiling ((hz - (d + 300)) / 300) <=
                Qceiling ((hz - d) / 300) - 1)%Z).
  { rewrite <- (Qceiling_Z (Qceiling ((hz - d) / 300) - 1)).
    apply Qceiling_resp_le.
    pose proof (Qle_ceiling ((hz - d) / 300)) as L.
    unfold Z.sub. rewrite inject_Z_plus.
    assert (E : (hz - (d + 300)) / 300 == (hz - d) / 300 - 1) by field.
    rewrite E. change (inject_Z (- (1))) with (- (1)). lra. }
  lia.
Qed.

Lemma item_potential_nonneg : forall hz t i, (0 <= item_potential hz t i)%Z.
Proof.
  intros hz t i. unfold item_potential.
  pose proof (budget_nonneg hz (t + 300)). pose proof (budget_nonneg hz (due i)).
  destruct (event i); lia.
Qed.

Lemma item_potential_mono : forall hz t t' i,
  t <= t' -> (item_potential hz t' i <= item_potential hz t i)%Z.
Proof.
  intros hz t t' i H. unfold item_potential.
  assert (B : (budget hz (t' + 300) <= budget hz (t + 300))%Z)
    by (apply budget_mono; lra).
  destruct (event i); lia.
Qed.

Lemma sumZ_app : forall l l', sumZ (l ++ l') = (sumZ l + sumZ l')%Z.
Proof.
  intros l l'. induction l as [|x l IH]; simpl; [reflexivity|]. lia.
Qed.

Lemma sumZ_perm : forall l l', Permutation l l' -> sumZ l = sumZ l'.
Proof.
  intros l l' H. induction H; simpl; lia.
Qed.

Lemma sumZ_nonneg : forall l, Forall (fun x => (0 <= x)%Z) l -> (0 <= sumZ l)%Z.
Proof.
  intros l H. induction H; simpl; lia.
Qed.

Lemma sumZ_le : forall (f g : Item -> Z) l,
  (forall i, (f i <= g i)%Z) -> (sumZ (map f l) <= sumZ (map g l))%Z.
Proof.
  intros f g l H. induction l as [|x l IH]; simpl; [lia|].
  specialize (H x). lia.
Qed.

Lemma potential_nonneg : forall hz s, (0 <= potential hz s)%Z.
Proof.
  intros hz s. unfold potential.
  assert (A : (0 <= sumZ (map (item_potential hz (now s)) (queue s)))%Z).
  { apply sumZ_nonneg. apply Forall_forall. intros x Hx.
    apply in_map_iff in Hx. destruct Hx as (i & <- & _).
    apply item_potential_nonneg. }
  pose proof (budget_nonneg hz (now s + 300)). nia.
Qed.

Lemma potential_pop : forall hz s it q,
  heappop (queue s) = Some (it, q) -> now s <= due it ->
  (potential hz (set_now (due it) (set_queue q s)) +
   item_potential hz (now s) it <= potential hz s)%Z.
Proof.
  intros hz s it q E H. unfold potential. simpl.
  rewrite (sumZ_perm _ _ (Permutation_map _ (heappop_perm _ _ _ E))). simpl.
  pose proof (sumZ_le (item_potential hz (due it)) (item_potential hz (now s)) q
                (fun i => item_potential_mono hz _ _ i H)) as S1.
  assert (B : (budget hz (due it + 300) <= budget hz (now s + 300))%Z)
    by (apply budget_mono; lra).
  pose proof (budget_nonneg hz (due it + 300)). nia.
Qed.

Lemma potential_schedule : forall hz e p d s,
  potential hz (schedule e p d s) =
  (potential hz s +
   item_potential hz (now s) (mkItem (now s + d) p (eid s) e))%Z.
Proof.
  intros hz e p d s. unfold potential. simpl.
  rewrite map_app, sumZ_app. simpl. lia.
Qed.

Lemma potential_trigger_put : forall hz s,
  potential hz (trigger_put s) = potential hz s.
Proof.
  intros hz s.
  destruct (trigger_put_cases s) as [[_ E]|[(r & rest & _ & _ & E)|(r & rest & Hq & L & E)]];
    rewrite E; try reflexivity.
  rewrite potential_schedule. unfold potential, item_potential. simpl.
  rewrite Hq. simpl List.length. lia.
Qed.


(** Every step that goes on uses up some of the measure. *)
Lemma potential_step : forall cap n until s s',
  Reachable cap n until s -> Step s = Continue s' ->
  (potential until s' < potential until s)%Z.
Proof.
  intros cap n until s s' R H.
  apply step_inv in H. destruct H as (it & q & E & H).
  assert (Hne : event it <> Until).
  { intros Ev. rewrite Ev in H. discriminate. }
  destruct (horizon_inv_pop until s it q (horizon_inv_reachable _ _ _ _ R) E Hne)
    as [_ Hlt].
  destruct (clock_inv_pop s it q (clock_inv_reachable _ _ _ _ R) E)
    as (_ & Hle & _).
  pose proof (potential_pop until s it q E Hle) as PP.
  assert (Hnow : now (set_now (due it) (set_queue q s)) = due it) by reflexivity.
  set (s0 := set_now (due it) (set_queue q s)) in *. clearbody s0.
  assert (B : (budget until (due it + 300) <= budget until (now s + 300))%Z)
    by (apply budget_mono; lra).
  unfold item_potential in PP.
  destruct (event it) eqn:Ev; simpl in H.
  - apply continue_inv in H. unfold visit_a_and_e in H.
    apply timeout_inv in H. destruct H as [_ ->].
    rewrite potential_schedule. unfold item_potential. simpl event.
    change (potential until (next_draw s0)) with (potential until s0).
    change (now (next_draw s0)) with (now s0). rewrite Hnow. lia.
  - inversion H; subst s'. unfold visit_a_and_e_resume, generator_end, process.
    rewrite !potential_schedule. unfold item_potential. simpl event.
    simpl now. rewrite Hnow. lia.
  - inversion H; subst s'. unfold process_patient, request.
    rewrite potential_trigger_put. unfold potential. simpl.
    rewrite length_app. simpl List.length. rewrite Hnow.
    unfold potential in PP. rewrite Hnow in PP.
    pose proof (budget_nonneg until (due it + 300)). nia.
  - apply continue_inv in H. unfold process_patient_granted in H.
    destruct (list_remove _ _) as [w|]; [|discriminate].
    apply timeout_inv in H. destruct H as [_ ->].
    rewrite potential_schedule. unfold item_potential. simpl event. simpl due.
    change (potential until (next_draw (set_waiting_room w s0)))
      with (potential until s0).
    simpl now. rewrite Hnow.
    destruct (triangular_range (draws s0)) as [Ht _].
    assert (B2 : (budget until (due it + triangular 300 1200 3600 (draws s0))
                  <= budget until (now s + 300))%Z).
    { apply budget_mono. simpl draws. lra. }
    simpl draws. lia.
  - inversion H; subst s'.
    rewrite process_patient_discharge_eq.
    unfold generator_end, live_life, process, release.
    rewrite potential_schedule.
    match goal with |- context [potential until (record_completion ?a ?b ?c ?x)] =>
      change (potential until (record_completion a b c x))
        with (potential until x) end.
    rewrite !potential_schedule. unfold item_potential. simpl event.
    match goal with |- context [potential until (set_resource ?a ?b s0)] =>
      change (potential until (set_resource a b s0)) with (potential until s0)
    end.
    simpl now. rewrite Hnow.
    pose proof (budget_step until (due it) Hlt). lia.
  - inversion H; subst s'. rewrite potential_trigger_put. lia.
  - inversion H; subst s'. lia.
  - congruence.
Qed.

Lemma step_stop_inv : forall cap n until s s',
  Reachable cap n until s -> Step s = StopSimulation s' ->
  exists it q, heappop (queue s) = Some (it, q) /\ event it = Until /\
               due it == until /\ s' = set_now (due it) (set_queue q s).
Proof.
  intros cap n until s s' R H.
  destruct (horizon_inv_reachable _ _ _ _ R) as (u & Hin & Hev & _ & Hd & _ & HF).
  unfold step in H.
  destruct (heappop (queue s)) as [[it q]|] eqn:E; [|discriminate].
  assert (Hit : In it (queue s)).
  { apply (Permutation_in _ (Permutation_sym (heappop_perm _ _ _ E))).
    left. reflexivity. }
  rewrite Forall_forall in HF.
  destruct (event it) eqn:Ev; simpl in H; try discriminate.
  - destruct (visit_a_and_e exponential self _); discriminate.
  - destruct (process_patient_granted triangular r _); discriminate.
  - inversion H; subst s'. exists it, q.
    destruct (HF it Hit) as [->|(Hne & _)]; [|congruence].
    repeat split; assumption.
Qed.

Lemma step_not_empty : forall cap n until s s',
  Reachable cap n until s -> Step s <> EmptySchedule s'.
Proof.
  intros cap n until s s' R H.
  destruct (horizon_inv_reachable _ _ _ _ R) as (u & Hin & _).
  unfold step in H.
  destruct (heappop (queue s)) as [[it q]|] eqn:E.
  - destruct (event it); simpl in H; try discriminate.
    + destruct (visit_a_and_e exponential self _); discriminate.
    + destruct (process_patient_granted triangular r _); discriminate.
  - apply heappop_none in E. rewrite E in Hin. destruct Hin.
Qed.

Lemma run_loop_stops : forall cap n until fuel s,
  Reachable cap n until s ->
  (potential until s < Z.of_nat fuel)%Z ->
  exists s', run_loop exponential triangular get_full_name fuel s =
               StopSimulation s' /\ now s' == until.
Proof.
  intros cap n until fuel. induction fuel as [|f IH]; intros s R Hp.
  - pose proof (potential_nonneg until s). simpl in Hp. lia.
  - simpl. destruct (Step s) as [s1|s1|s1|] eqn:E.
    + apply IH; [eapply reachable_step; eassumption|].
      pose proof (potential_step _ _ _ _ _ R E). lia.
    + exists s1. split; [reflexivity|].
      destruct (step_stop_inv _ _ _ _ _ R E) as (it & q & _ & _ & Hd & ->).
      exact Hd.
    + exfalso. apply (step_not_empty _ _ _ _ _ R E).
    + exfalso. apply (step_never_raises _ _ _ _ R E).
Qed.

Lemma run_loop_more_fuel : forall fuel k s s',
  run_loop exponential triangular get_full_name fuel s = StopSimulation s' ->
  run_loop exponential triangular get_full_name (fuel + k) s = StopSimulation s'.
Proof.
  induction fuel as [|f IH]; intros k s s' H; simpl in H; [discriminate|].
  simpl. destruct (Step s) as [s1|s1|s1|] eqn:E; try discriminate.
  - apply IH. exact H.
  - exact H.
Qed.


Lemma setup_some : forall cap n until,
  (0 < cap)%Z -> 0 < until -> exists s, setup cap n until = Some s.
Proof.
  intros cap n until Hc Hu. unfold setup, AccidentEmergencyDepartment_init,
    Resource_init.
  destruct (cap <=? 0)%Z eqn:E; [apply Z.leb_le in E; lia|].
  unfold run_until.
  destruct (create_patients_frame n (Environment_init cap)) as (Hn & _).
  destruct (Qlt_le_dec _ until) as [L|L]; [eexists; reflexivity|].
  rewrite Hn in L. simpl in L. lra.
Qed.

Lemma potential_setup : forall cap n until s,
  setup cap n until = Some s ->
  potential until s = (Z.of_nat n * (8 * budget until 300 + 5))%Z.
Proof.
  intros cap n until s H. apply setup_inv in H. destruct H as (_ & _ & ->).
  destruct (create_patients_frame n (Environment_init cap))
    as (Hn & _ & _ & Hpq & _).
  rewrite potential_schedule. unfold item_potential at 1. simpl event.
  unfold potential. rewrite Hpq, Hn, create_patients_queue. simpl.
  assert (E : budget until (0 + 300) = budget until 300).
  { unfold budget.
    rewrite (Qceiling_comp ((until - (0 + 300)) / 300) ((until - 300) / 300));
      [reflexivity | field]. }
  assert (G : forall (f : nat -> Item) l,
    (forall x, event (f x) = Initialize_visit x) ->
    sumZ (map (item_potential until 0) (map f l)) =
    (Z.of_nat (List.length l) * (8 * budget until 300 + 5))%Z).
  { intros f l Hf. induction l as [|a l IH]; [reflexivity|].
    simpl map. simpl sumZ. simpl List.length.
    unfold item_potential at 1. rewrite Hf, E, IH, Nat2Z.inj_succ. lia. }
  rewrite G; [|intros x; reflexivity]. rewrite length_seq. lia.
Qed.

(** X3: with a positive capacity and a horizon in the future, and with
    draws as numpy makes them, the loop of [env.run] comes to its end: it
    stops on the stop event with the clock at the horizon after fewer than
    [step_bound] steps, whatever fuel beyond that it is given. *)
Theorem run_reaches_horizon : forall cap n until fuel,
  (0 < cap)%Z -> 0 < until ->
  (step_bound n until <= fuel)%nat ->
  exists s,
    main exponential triangular get_full_name cap n until fuel =
      StopSimulation s /\
    now s == until.
Proof.
  intros cap n until fuel Hc Hu Hf.
  destruct (setup_some cap n until Hc Hu) as [s0 Hs].
  unfold main. rewrite Hs.
  destruct (run_loop_stops cap n until (step_bound n until) s0) as (s' & Hr & Hn).
  - apply reachable_setup. exact Hs.
  - rewrite (potential_setup _ _ _ _ Hs). unfold step_bound.
    pose proof (budget_nonneg until 300).
    rewrite Nat2Z.inj_succ, Nat2Z.inj_mul, Z2Nat.id; lia.
  - exists s'. split; [|exact Hn].
    replace fuel with (step_bound n until + (fuel - step_bound n until))%nat
      by lia.
    apply run_loop_more_fuel. exact Hr.
Qed.


(** ** The tables *)

(** The state handed back at the stop event has the tables, the resource
    and the waiting room of the state before. *)
Lemma step_stop_frame : forall cap n until s s',
  Reachable cap n until s -> Step s = StopSimulation s' ->
  queue_length s' = queue_length s /\
  queue_admittance_time_days s' = queue_admittance_time_days s /\
  patient_name s' = patient_name s /\
  admittance_time_days s' = admittance_time_days s /\
  wait_time_hrs s' = wait_time_hrs s /\
  users s' = users s /\ put_queue s' = put_queue s /\
  waiting_room s' = waiting_room s.
Proof.
  intros cap n until s s' R H.
  destruct (step_stop_inv _ _ _ _ _ R H) as (it & q & _ & _ & _ & ->).
  repeat split.
Qed.

(** A step leaves the arrival table alone or appends one row: the size of
    the waiting room with the new patient in it, and the clock in days. *)
Lemma step_arrival : forall s s',
  Step s = Continue s' ->
  (queue_length s' = queue_length s /\
   queue_admittance_time_days s' = queue_admittance_time_days s) \/
  (exists p,
     waiting_room s' = waiting_room s ++ [p] /\
     queue_length s' = queue_length s ++ [List.length (waiting_room s')] /\
     queue_admittance_time_days s' =
       queue_admittance_time_days s ++ [now s' / 3600 / 24]).
Proof.
  intros s s' H. apply step_inv in H. destruct H as (it & q & E & H).
  destruct (event it) eqn:Ev; simpl in H.
  - apply continue_inv in H. unfold visit_a_and_e in H.
    apply timeout_inv in H. destruct H as [_ ->]. left. split; reflexivity.
  - inversion H; subst. left. split; reflexivity.
  - inversion H; subst. right. exists patient. unfold process_patient, request.
    match goal with |- context [trigger_put ?x] =>
      destruct (trigger_put_cases x)
        as [[_ E1]|[(r & rest & _ & _ & E1)|(r & rest & _ & _ & E1)]];
      rewrite E1 end; repeat split.
  - apply continue_inv in H. unfold process_patient_granted in H.
    destruct (list_remove _ _) as [w|]; [|discriminate].
    apply timeout_inv in H. destruct H as [_ ->]. left. split; reflexivity.
  - inversion H; subst. left. split; reflexivity.
  - inversion H; subst. left.
    match goal with |- context [trigger_put ?x] =>
      destruct (trigger_put_cases x)
        as [[_ E1]|[(r & rest & _ & _ & E1)|(r & rest & _ & _ & E1)]];
      rewrite E1 end; split; reflexivity.
  - inversion H; subst. left. split; reflexivity.
  - discriminate.
Qed.

(** X4: in every state of a run, and in the state the run hands back at
    the horizon, the columns of each of the two tables have one length, as
    [pd.DataFrame] needs them. *)
Theorem tables_are_rectangular : forall cap n until s,
  reachable exponential triangular get_full_name cap n until s ->
  (List.length (queue_admittance_time_days s) = List.length (queue_length s) /\
   List.length (patient_name s) = List.length (wait_time_hrs s) /\
   List.length (admittance_time_days s) = List.length (wait_time_hrs s)) /\
  forall s', step exponential triangular get_full_name s = StopSimulation s' ->
    List.length (queue_admittance_time_days s') = List.length (queue_length s') /\
    List.length (patient_name s') = List.length (wait_time_hrs s') /\
    List.length (admittance_time_days s') = List.length (wait_time_hrs s').
Proof.
  intros cap n until s R.
  destruct (conservation_inv_reachable _ _ _ _ R) as (_ & H1 & H2 & H3).
  split; [repeat split; assumption|].
  intros s' H.
  destruct (step_stop_frame _ _ _ _ _ R H) as (-> & -> & -> & -> & -> & _).
  repeat split; assumption.
Qed.

Lemma granted_in_visiting : forall q p,
  In p (map req_patient (flat_map granted q)) -> In p (flat_map visiting q).
Proof.
  intros q p H. apply in_map_iff in H. destruct H as (r & <- & H).
  apply in_flat_map in H. destruct H as (i & Hi & Hr).
  apply in_flat_map. exists i. split; [exact Hi|].
  unfold granted in Hr. unfold visiting.
  destruct (event i); simpl in Hr; try contradiction.
  destruct Hr as [<-|[]]. left. reflexivity.
Qed.

Lemma waiting_room_bounded : forall cap n until s,
  Reachable cap n until s -> (List.length (waiting_room s) <= n)%nat.
Proof.
  intros cap n until s R.
  rewrite <- (length_seq n 0).
  apply NoDup_incl_length; [apply (waiting_room_NoDup _ _ _ _ R)|].
  intros p Hp.
  apply (Permutation_in _ (agents_inv_reachable _ _ _ _ R)).
  unfold agents, patients. apply in_or_app. right.
  apply (Permutation_in _ (waiting_room_inv_reachable _ _ _ _ R)) in Hp.
  rewrite map_app in Hp. apply in_app_or in Hp. apply in_or_app.
  destruct Hp as [Hp|Hp]; [left; exact Hp | right].
  apply granted_in_visiting. exact Hp.
Qed.

Lemma queue_length_bounded : forall cap n until s,
  Reachable cap n until s ->
  Forall (fun k => (1 <= k <= n)%nat) (queue_length s).
Proof.
  intros cap n until. apply reachable_ind_inv.
  - intros s H. apply setup_inv in H. destruct H as (_ & _ & ->).
    destruct (create_patients_frame n (Environment_init cap))
      as (_ & _ & _ & _ & _ & _ & _ & Hq & _).
    simpl. rewrite Hq. constructor.
  - intros s s' R IH H.
    destruct (step_arrival s s' H) as [[-> _]|(p & Hw & -> & _)]; [exact IH|].
    apply Forall_app. split; [exact IH|]. constructor; [|constructor].
    split.
    + rewrite Hw, length_app. simpl. lia.
    + apply (waiting_room_bounded cap n until).
      eapply reachable_step; eassumption.
Qed.

(** X5: every recorded queue length counts the arriving patient, so it is
    at least 1, and it never exceeds the size of the population; the same
    holds for the table handed back at the horizon. *)
Theorem queue_length_between_one_and_population : forall cap n until s,
  reachable exponential triangular get_full_name cap n until s ->
  Forall (fun k => (1 <= k <= n)%nat) (queue_length s) /\
  (List.length (waiting_room s) <= n)%nat /\
  forall s', step exponential triangular get_full_name s = StopSimulation s' ->
    Forall (fun k => (1 <= k <= n)%nat) (queue_length s').
Proof.
  intros cap n until s R.
  split; [apply (queue_length_bounded _ _ _ _ R)|].
  split; [apply (waiting_room_bounded _ _ _ _ R)|].
  intros s' H. destruct (step_stop_frame _ _ _ _ _ R H) as (-> & _).
  apply (queue_length_bounded _ _ _ _ R).
Qed.


Lemma days_mono : forall a b, a <= b -> a / 3600 / 24 <= b / 3600 / 24.
Proof.
  intros a b H. unfold Qdiv.
  apply Qmult_le_compat_r; [|discriminate].
  apply Qmult_le_compat_r; [exact H | discriminate].
Qed.

Lemma StronglySorted_snoc : forall (l : list Q) x,
  StronglySorted Qle l -> Forall (fun y => y <= x) l ->
  StronglySorted Qle (l ++ [x]).
Proof.
  intros l x HS HF. induction HS as [|a l HS IH Ha]; simpl.
  - constructor; constructor.
  - apply Forall_cons_iff in HF. destruct HF as [Hax HF].
    constructor; [apply IH; exact HF|].
    apply Forall_app. split; [exact Ha|]. constructor; [exact Hax | constructor].
Qed.

Lemma arrivals_inv_reachable : forall cap n until s,
  Reachable cap n until s -> arrivals_inv s.
Proof.
  intros cap n until. apply reachable_ind_inv.
  - intros s H. apply setup_inv in H. destruct H as (_ & _ & ->).
    destruct (create_patients_frame n (Environment_init cap))
      as (_ & _ & _ & _ & _ & _ & _ & _ & Hq & _ & Ha & _).
    unfold arrivals_inv. simpl. rewrite Hq, Ha. simpl.
    repeat split; try constructor. intros x [].
  - intros s s' R (HS & HF & HI) H.
    pose proof (step_clock _ _ _ _ _ R H) as Hc.
    pose proof (now_nonneg _ _ _ _ R) as H0.
    assert (Hd : now s / 3600 / 24 <= now s' / 3600 / 24)
      by (apply days_mono; exact Hc).
    assert (Hd0 : 0 <= now s' / 3600 / 24).
    { apply (Qle_trans _ (0 / 3600 / 24)); [discriminate|].
      apply days_mono. lra. }
    assert (HF' : Forall (fun t => 0 <= t /\ t <= now s' / 3600 / 24)
                    (queue_admittance_time_days s)).
    { eapply Forall_impl; [|exact HF]. simpl. intros t [Ht0 Ht]. split; lra. }
    assert (A : exists la,
      queue_admittance_time_days s' = queue_admittance_time_days s ++ la /\
      StronglySorted Qle (queue_admittance_time_days s ++ la) /\
      Forall (fun t => 0 <= t /\ t <= now s' / 3600 / 24)
        (queue_admittance_time_days s ++ la)).
    { destruct (step_arrival s s' H) as [[_ E]|(p & _ & _ & E)].
      - exists []. rewrite app_nil_r. repeat split; assumption.
      - eexists. split; [exact E|]. split.
        + apply StronglySorted_snoc; [exact HS|].
          eapply Forall_impl; [|exact HF']. simpl. tauto.
        + apply Forall_app. split; [exact HF'|].
          constructor; [split; [exact Hd0 | apply Qle_refl] | constructor]. }
    destruct A as (la & Ea & HS' & HFa).
    unfold arrivals_inv. rewrite Ea. repeat split; try assumption.
    destruct (discharge_sample _ _ _ s s' R H)
      as [Hw|(r & _ & Hin & _ & Eadm & _)].
    + destruct (step_samples s s' H) as [(_ & -> & _)|(it & q & r & _ & _ & _ & Hw2 & _)].
      * intros x Hx. apply in_or_app. left. apply HI. exact Hx.
      * exfalso. rewrite Hw in Hw2.
        apply (f_equal (@List.length Q)) in Hw2. rewrite length_app in Hw2.
        simpl in Hw2. lia.
    + rewrite Eadm. intros x Hx. apply in_or_app. left.
      apply in_app_or in Hx. destruct Hx as [Hx|[<-|[]]];
        [apply HI; exact Hx | exact Hin].
Qed.

(** X6: the arrival table is in time order: its times never decrease from
    one row to the next and lie between the start of the run and the
    clock; and the arrival time of every row of the completion table is a
    time of the arrival table. *)
Theorem arrival_table_in_time_order : forall cap n until s,
  reachable exponential triangular get_full_name cap n until s ->
  StronglySorted Qle (queue_admittance_time_days s) /\
  Forall (fun t => 0 <= t /\ t <= now s / 3600 / 24)
    (queue_admittance_time_days s) /\
  incl (admittance_time_days s) (queue_admittance_time_days s).
Proof.
  intros cap n until s R. apply (arrivals_inv_reachable _ _ _ _ R).
Qed.

(** X11: a run only appends to its tables: the columns of a state are
    prefixes of the columns of every later state. *)
Theorem tables_only_grow : forall s s',
  later (step exponential triangular get_full_name) s s' ->
  (exists l, queue_length s' = queue_length s ++ l) /\
  (exists l, queue_admittance_time_days s' =
             queue_admittance_time_days s ++ l) /\
  (exists l, patient_name s' = patient_name s ++ l) /\
  (exists l, admittance_time_days s' = admittance_time_days s ++ l) /\
  (exists l, wait_time_hrs s' = wait_time_hrs s ++ l).
Proof.
  intros s s' L. induction L as [|s1 s2 L IH H].
  - repeat split; exists []; rewrite app_nil_r; reflexivity.
  - destruct IH as ((l1 & E1) & (l2 & E2) & (l3 & E3) & (l4 & E4) & (l5 & E5)).
    assert (A : (exists l, queue_length s2 = queue_length s1 ++ l) /\
                (exists l, queue_admittance_time_days s2 =
                           queue_admittance_time_days s1 ++ l)).
    { destruct (step_arrival s1 s2 H) as [[-> ->]|(p & _ & -> & ->)];
        split; eexists; try reflexivity; rewrite app_nil_r; reflexivity. }
    assert (B : (exists l, patient_name s2 = patient_name s1 ++ l) /\
                (exists l, admittance_time_days s2 =
                           admittance_time_days s1 ++ l) /\
                (exists l, wait_time_hrs s2 = wait_time_hrs s1 ++ l)).
    { destruct (step_samples s1 s2 H)
        as [(-> & -> & ->)|(it & q & r & _ & _ & _ & -> & -> & ->)];
        repeat split; eexists; try reflexivity; rewrite app_nil_r; reflexivity. }
    destruct A as ((a1 & A1) & (a2 & A2)).
    destruct B as ((b3 & B3) & (b4 & B4) & (b5 & B5)).
    rewrite A1, A2, B3, B4, B5, E1, E2, E3, E4, E5.
    repeat split; eexists; rewrite <- app_assoc; reflexivity.
Qed.


(** ** A slot for every person *)

Lemma capacity_const : forall cap n until s,
  Reachable cap n until s -> capacity s = cap.
Proof.
  intros cap n until. apply reachable_ind_inv.
  - intros s H. apply setup_inv in H. destruct H as (_ & _ & ->).
    destruct (create_patients_frame n (Environment_init cap)) as (_ & Hc & _).
    simpl. rewrite Hc. reflexivity.
  - intros s s' _ IH H. apply step_inv in H. destruct H as (it & q & _ & H).
    destruct (event it); simpl in H.
    + apply continue_inv in H. unfold visit_a_and_e in H.
      apply timeout_inv in H. destruct H as [_ ->]. exact IH.
    + inversion H; subst s'. exact IH.
    + inversion H; subst s'. unfold process_patient, request.
      match goal with |- context [trigger_put ?x] =>
        destruct (trigger_put_cases x)
          as [[_ E1]|[(r & rest & _ & _ & E1)|(r & rest & _ & _ & E1)]];
        rewrite E1 end; exact IH.
    + apply continue_inv in H. unfold process_patient_granted in H.
      destruct (list_remove _ _) as [w|]; [|discriminate].
      apply timeout_inv in H. destruct H as [_ ->]. exact IH.
    + inversion H; subst s'. exact IH.
    + inversion H; subst s'.
      match goal with |- context [trigger_put ?x] =>
        destruct (trigger_put_cases x)
          as [[_ E1]|[(r & rest & _ & _ & E1)|(r & rest & _ & _ & E1)]];
        rewrite E1 end; exact IH.
    + inversion H; subst s'. exact IH.
    + discriminate.
Qed.

Lemma served_le_visiting : forall q,
  (List.length (flat_map served q) <= List.length (flat_map visiting q))%nat.
Proof.
  induction q as [|a q IH]; simpl; [lia|].
  rewrite !length_app. unfold served at 1, visiting at 1.
  destruct (event a); simpl; lia.
Qed.

(** A patient who arrives finds fewer users than there are persons. *)
Lemma users_below_population : forall cap n until s it q p,
  Reachable cap n until s ->
  heappop (queue s) = Some (it, q) -> event it = Initialize_patient p ->
  (List.length (users s) < n)%nat.
Proof.
  intros cap n until s it q p R E Ev.
  destruct (request_inv_reachable _ _ _ _ R) as (_ & _ & US).
  pose proof (Permutation_length (agents_inv_reachable _ _ _ _ R)) as LA.
  rewrite length_seq in LA.
  rewrite (Permutation_length US).
  rewrite (Permutation_length (heappop_flat_map _ served _ _ _ E)).
  unfold agents, patients in LA. rewrite !length_app in LA.
  rewrite (Permutation_length (heappop_flat_map _ visiting _ _ _ E)) in LA.
  rewrite length_app in *. unfold served at 1. unfold visiting at 1 in LA.
  rewrite Ev in *. simpl in *.
  pose proof (served_le_visiting q). lia.
Qed.

Lemma schedule_no_queue_inv : forall e p d s,
  (forall r, e = Request_granted r -> req_arrival r == now s + d) ->
  no_queue_inv s -> no_queue_inv (schedule e p d s).
Proof.
  intros e p d s He [Hq HF]. split; [exact Hq|]. simpl.
  apply Forall_app. split; [exact HF|]. constructor; [|constructor].
  simpl. exact He.
Qed.

Lemma no_queue_inv_reachable : forall cap n until s,
  (Z.of_nat n <= cap)%Z ->
  Reachable cap n until s -> no_queue_inv s.
Proof.
  intros cap n until s Hn R. revert s R. apply reachable_ind_inv.
  - intros s H. apply setup_inv in H. destruct H as (_ & _ & ->).
    destruct (create_patients_frame n (Environment_init cap))
      as (_ & _ & _ & Hpq & _).
    apply schedule_no_queue_inv; [discriminate|].
    split; [rewrite Hpq; reflexivity|].
    rewrite create_patients_queue. simpl.
    apply Forall_forall. intros x Hx. apply in_map_iff in Hx.
    destruct Hx as (p & <- & _). discriminate.
  - intros s s' R [Hq HF] H.
    pose proof (capacity_const _ _ _ _ R) as Hcap.
    apply step_inv in H. destruct H as (it & q & E & H).
    rewrite (heappop_perm _ _ _ E) in HF. apply Forall_cons_iff in HF.
    destruct HF as [Hit HF].
    assert (H0 : no_queue_inv (set_now (due it) (set_queue q s)))
      by (split; assumption).
    assert (Hnow : now (set_now (due it) (set_queue q s)) = due it)
      by reflexivity.
    assert (Hus : users (set_now (due it) (set_queue q s)) = users s)
      by reflexivity.
    assert (Hcp : capacity (set_now (due it) (set_queue q s)) = cap)
      by exact Hcap.
    assert (Hp0 : put_queue (set_now (due it) (set_queue q s)) = [])
      by exact Hq.
    set (s0 := set_now (due it) (set_queue q s)) in *. clearbody s0.
    destruct (event it) eqn:Ev; simpl in H.
    + apply continue_inv in H. unfold visit_a_and_e in H.
      apply timeout_inv in H. destruct H as [_ ->].
      apply schedule_no_queue_inv; [discriminate | exact H0].
    + inversion H; subst s'. unfold visit_a_and_e_resume, generator_end, process.
      repeat (apply schedule_no_queue_inv; [discriminate|]). exact H0.
    + inversion H; subst s'. unfold process_patient, request.
      pose proof (users_below_population _ _ _ _ _ _ _ R E Ev) as Hlt.
      match goal with |- context [trigger_put ?x] =>
        destruct (trigger_put_cases x)
          as [[Hx E1]|[(r & rest & Hx & L & E1)|(r & rest & Hx & L & E1)]];
        rewrite E1; simpl in Hx end.
      * rewrite Hp0 in Hx. discriminate.
      * simpl in L. rewrite Hus, Hcp in L. lia.
      * rewrite Hp0 in Hx. simpl in Hx. injection Hx as <- <-.
        apply schedule_no_queue_inv.
        -- intros r' Hr'. injection Hr' as <-. simpl. rewrite Hnow. ring.
        -- split; [reflexivity|]. destruct H0 as [_ H0]. exact H0.
    + apply continue_inv in H. unfold process_patient_granted in H.
      destruct (list_remove _ _) as [w|]; [|discriminate].
      apply timeout_inv in H. destruct H as [_ ->].
      apply schedule_no_queue_inv; [discriminate | exact H0].
    + inversion H; subst s'.
      rewrite process_patient_discharge_eq.
      unfold generator_end, live_life, process, release.
      apply schedule_no_queue_inv; [discriminate|].
      match goal with |- no_queue_inv (record_completion ?a ?b ?c ?x) =>
        change (no_queue_inv x) end.
      repeat (apply schedule_no_queue_inv; [discriminate|]). exact H0.
    + inversion H; subst s'. unfold trigger_put. rewrite Hp0. exact H0.
    + inversion H; subst s'. exact H0.
    + discriminate.
Qed.

(** With a slot for every person an arriving patient is granted inside
    [request()]. *)
Lemma arrival_is_granted : forall cap n until s s' it q p,
  (Z.of_nat n <= cap)%Z ->
  Reachable cap n until s -> Step s = Continue s' ->
  heappop (queue s) = Some (it, q) -> event it = Initialize_patient p ->
  users s' = users s ++ [mkRequest (next_request s) p (due it)] /\
  waiting_room s' = waiting_room s ++ [p].
Proof.
  intros cap n until s s' it q p Hn R H E Ev.
  pose proof (capacity_const _ _ _ _ R) as Hcap.
  pose proof (users_below_population _ _ _ _ _ _ _ R E Ev) as Hlt.
  destruct (no_queue_inv_reachable _ _ _ _ Hn R) as [Hq _].
  unfold step in H. rewrite E, Ev in H. simpl in H.
  inversion H; subst s'. clear H. unfold process_patient, request.
  match goal with |- context [trigger_put ?x] =>
    destruct (trigger_put_cases x)
      as [[Hx E1]|[(r & rest & Hx & L & E1)|(r & rest & Hx & L & E1)]];
    rewrite E1; simpl in Hx end.
  - rewrite Hq in Hx. discriminate.
  - simpl in L. rewrite Hcap in L. lia.
  - rewrite Hq in Hx. simpl in Hx. injection Hx as <- <-.
    split; reflexivity.
Qed.

(** X8: when the capacity is at least the size of the population no
    request is ever left pending: an arriving patient becomes a user of
    the resource in the step of the arrival, and every grant is due at the
    arrival time of its visit. *)
Theorem no_queue_with_a_slot_per_person : forall cap n until s,
  (Z.of_nat n <= cap)%Z ->
  reachable exponential triangular get_full_name cap n until s ->
  put_queue s = [] /\
  Forall (fun i => forall r, event i = Request_granted r ->
                             req_arrival r == due i) (queue s) /\
  forall s' it q p,
    step exponential triangular get_full_name s = Continue s' ->
    heappop (queue s) = Some (it, q) -> event it = Initialize_patient p ->
    users s' = users s ++ [mkRequest (next_request s) p (due it)] /\
    waiting_room s' = waiting_room s ++ [p] /\
    put_queue s' = [].
Proof.
  intros cap n until s Hn R.
  destruct (no_queue_inv_reachable _ _ _ _ Hn R) as [Hq HF].
  split; [exact Hq|]. split; [exact HF|].
  intros s' it q p H E Ev.
  destruct (arrival_is_granted _ _ _ _ _ _ _ _ Hn R H E Ev) as [Hu Hw].
  split; [exact Hu|]. split; [exact Hw|].
  assert (R' : Reachable cap n until s') by (eapply reachable_step; eassumption).
  apply (no_queue_inv_reachable _ _ _ _ Hn R').
Qed.


(** ** No slot idles while a request waits *)

Lemma remove_request_length_ge : forall r l,
  (List.length l <= S (List.length (remove_request r l)))%nat.
Proof.
  intros r l. induction l as [|x l IH]; simpl; [lia|].
  destruct (rid x =? rid r)%nat; simpl; lia.
Qed.

Lemma schedule_release_now : forall e p d s,
  (e = Release -> d == 0) ->
  Forall (fun i => event i = Release -> due i == now s) (queue s) ->
  Forall (fun i => event i = Release -> due i == now (schedule e p d s))
    (queue (schedule e p d s)).
Proof.
  intros e p d s He H. simpl. apply Forall_app. split; [exact H|].
  constructor; [|constructor]. simpl. intros Ev. rewrite (He Ev). ring.
Qed.

Lemma trigger_put_work : forall s,
  Forall (fun i => event i = Release -> due i == now s) (queue s) ->
  (tl (put_queue s) <> [] ->
   (capacity s - Z.of_nat (List.length (users s)) <=
    Z.of_nat (List.length (flat_map releases (queue s))) + 1)%Z) ->
  work_inv (trigger_put s).
Proof.
  intros s HR HW.
  destruct (trigger_put_cases s) as [[Hq E]|[(r & rest & Hq & L & E)|(r & rest & Hq & L & E)]];
    rewrite E.
  - split; [exact HR|]. intros Hne. congruence.
  - split; [exact HR|]. intros _. lia.
  - split.
    + apply schedule_release_now; [discriminate | exact HR].
    + simpl. intros Hne. rewrite Hq in HW. specialize (HW Hne).
      rewrite flat_map_snoc. unfold releases at 2. simpl.
      rewrite app_nil_r, length_app. simpl. lia.
Qed.

Lemma work_inv_reachable : forall cap n until s,
  Reachable cap n until s -> work_inv s.
Proof.
  intros cap n until. apply reachable_ind_inv.
  - intros s H. apply setup_inv in H. destruct H as (_ & _ & ->).
    destruct (create_patients_frame n (Environment_init cap))
      as (_ & _ & _ & Hpq & _).
    split.
    + apply schedule_release_now; [discriminate|].
      rewrite create_patients_queue. simpl.
      apply Forall_forall. intros x Hx. apply in_map_iff in Hx.
      destruct Hx as (p & <- & _). discriminate.
    + simpl. rewrite Hpq. intros Hne. exfalso. apply Hne. reflexivity.
  - intros s s' R [HR HW] H.
    apply step_inv in H. destruct H as (it & q & E & H).
    destruct (clock_inv_pop s it q (clock_inv_reachable _ _ _ _ R) E)
      as (_ & Hle & _).
    pose proof (heappop_due_min _ _ _ E) as Hmin.
    rewrite (Permutation_length (heappop_flat_map _ releases _ _ _ E)) in HW.
    rewrite (heappop_perm _ _ _ E) in HR. apply Forall_cons_iff in HR.
    destruct HR as [_ HR].
    assert (HR0 : Forall (fun i => event i = Release ->
                   due i == now (set_now (due it) (set_queue q s)))
                   (queue (set_now (due it) (set_queue q s)))).
    { simpl. rewrite Forall_forall in *. intros i Hi Ev.
      specialize (HR i Hi Ev). specialize (Hmin i Hi). simpl in Hmin. lra. }
    assert (HW0 : put_queue (set_now (due it) (set_queue q s)) <> [] ->
      (capacity (set_now (due it) (set_queue q s)) -
       Z.of_nat (List.length (users (set_now (due it) (set_queue q s)))) <=
       Z.of_nat (List.length (releases it ++
         flat_map releases (queue (set_now (due it) (set_queue q s))))))%Z)
      by exact HW.
    set (s0 := set_now (due it) (set_queue q s)) in *. clearbody s0.
    unfold releases at 1 in HW0.
    destruct (event it) eqn:Ev; simpl in H, HW0.
    + apply continue_inv in H. unfold visit_a_and_e in H.
      apply timeout_inv in H. destruct H as [_ ->].
      split; [apply schedule_release_now; [discriminate | exact HR0]|].
      simpl. rewrite flat_map_snoc. unfold releases at 2. simpl.
      rewrite app_nil_r. exact HW0.
    + inversion H; subst s'. unfold visit_a_and_e_resume, generator_end, process.
      split.
      * repeat (apply schedule_release_now; [discriminate|]). exact HR0.
      * simpl. rewrite !flat_map_snoc. unfold releases at 2 3. simpl.
        rewrite !app_nil_r. exact HW0.
    + inversion H; subst s'. unfold process_patient, request.
      apply trigger_put_work; [exact HR0|]. simpl. intros Hne.
      assert (Hp : put_queue s0 <> []).
      { intros Hp. rewrite Hp in Hne. simpl in Hne. congruence. }
      specialize (HW0 Hp). lia.
    + apply continue_inv in H. unfold process_patient_granted in H.
      destruct (list_remove _ _) as [w|]; [|discriminate].
      apply timeout_inv in H. destruct H as [_ ->].
      split; [apply schedule_release_now; [discriminate | exact HR0]|].
      simpl. rewrite flat_map_snoc. unfold releases at 2. simpl.
      rewrite app_nil_r. exact HW0.
    + inversion H; subst s'.
      rewrite process_patient_discharge_eq.
      unfold generator_end, live_life, process, release.
      split.
      * apply schedule_release_now; [discriminate|].
        match goal with |- Forall _ (queue (record_completion ?a ?b ?c ?x)) =>
          change (Forall (fun i => event i = Release -> due i == now x)
                    (queue x)) end.
        apply schedule_release_now; [discriminate|].
        apply schedule_release_now; [reflexivity | exact HR0].
      * simpl. rewrite !flat_map_snoc. unfold releases at 2 3 4. simpl.
        rewrite ?app_nil_r, ?length_app. simpl. intros Hp.
        specialize (HW0 Hp).
        pose proof (remove_request_length_ge r (users s0)). lia.
    + inversion H; subst s'. apply trigger_put_work; [exact HR0|].
      intros Hne. assert (Hp : put_queue s0 <> []).
      { intros Hp. rewrite Hp in Hne. simpl in Hne. congruence. }
      specialize (HW0 Hp). lia.
    + inversion H; subst s'. split; [exact HR0 | exact HW0].
    + discriminate.
Qed.

(** X9: the resource is work-conserving: in any state of a run where a
    request is pending although a slot is free, a [Release] event is in the
    heap and due at the current time; the slot is handed on before the
    clock moves. *)
Theorem free_slot_is_handed_on : forall cap n until s,
  reachable exponential triangular get_full_name cap n until s ->
  put_queue s <> [] ->
  (Z.of_nat (List.length (users s)) < capacity s)%Z ->
  exists i, In i (queue s) /\ event i = Release /\ due i == now s.
Proof.
  intros cap n until s R Hp Hf.
  destruct (work_inv_reachable _ _ _ _ R) as [HR HW].
  specialize (HW Hp).
  destruct (flat_map releases (queue s)) as [|i l] eqn:E; [simpl in HW; lia|].
  assert (Hi : In i (flat_map releases (queue s))) by (rewrite E; left; reflexivity).
  apply in_flat_map in Hi. destruct Hi as (j & Hj & Hi).
  unfold releases in Hi. destruct (event j) eqn:Ev; try destruct Hi.
  - subst j. exists i. rewrite Forall_forall in HR.
    repeat split; [exact Hj | exact Ev | apply (HR i Hj Ev)].
  - destruct H.
Qed.

(** ** Release *)

(** X10: the users of the resource are the requests whose process is
    between its grant and its release, each of them once; when the process
    of a request comes back from the doctor the request is among the users
    (the tolerant [except ValueError] of [_do_get] is never taken) and
    [release] frees that slot and no other. *)
Theorem release_frees_its_own_slot : forall cap n until s,
  reachable exponential triangular get_full_name cap n until s ->
  Permutation (users s) (flat_map served (queue s)) /\
  NoDup (map rid (users s)) /\
  forall s' it q r,
    step exponential triangular get_full_name s = Continue s' ->
    heappop (queue s) = Some (it, q) -> event it = Timeout_doctor r ->
    In r (users s) /\ Permutation (users s) (r :: users s').
Proof.
  intros cap n until s R.
  destruct (request_inv_reachable _ _ _ _ R) as (ND & _ & US).
  assert (NU : NoDup (map rid (users s))).
  { rewrite US. unfold in_flight in ND. rewrite map_app in ND.
    apply NoDup_app_remove_l in ND. exact ND. }
  split; [exact US|]. split; [exact NU|].
  intros s' it q r H E Ev.
  assert (Hin : In r (users s)).
  { apply (Permutation_in _ (Permutation_sym US)).
    apply (Permutation_in _ (Permutation_sym (heappop_flat_map _ served _ _ _ E))).
    unfold served at 1. rewrite Ev. left. reflexivity. }
  split; [exact Hin|].
  unfold step in H. rewrite E, Ev in H. simpl in H. inversion H; subst s'.
  simpl. apply remove_request_perm; assumption.
Qed.


(** ** The order of the pending requests *)

Lemma StronglySorted_snoc_gen : forall (A : Type) (R : A -> A -> Prop) l x,
  StronglySorted R l -> Forall (fun y => R y x) l ->
  StronglySorted R (l ++ [x]).
Proof.
  intros A R l x HS HF. induction HS as [|a l HS IH Ha]; simpl.
  - constructor; constructor.
  - apply Forall_cons_iff in HF. destruct HF as [Hax HF].
    constructor; [apply IH; exact HF|].
    apply Forall_app. split; [exact Ha|]. constructor; [exact Hax | constructor].
Qed.

Lemma trigger_put_queue_order : forall s,
  queue_order_inv s -> queue_order_inv (trigger_put s).
Proof.
  intros s Hinv.
  destruct (trigger_put_cases s) as [[_ E]|[(r & rest & _ & _ & E)|(r & rest & Hq & L & E)]];
    rewrite E; try exact Hinv.
  destruct Hinv as [H1 H2]. unfold queue_order_inv. simpl.
  rewrite Hq in H1, H2. simpl in H1, H2.
  apply StronglySorted_inv in H1. apply StronglySorted_inv in H2.
  split; tauto.
Qed.

Lemma queue_order_inv_reachable : forall cap n until s,
  Reachable cap n until s -> queue_order_inv s.
Proof.
  intros cap n until. apply reachable_ind_inv.
  - intros s H. apply setup_inv in H. destruct H as (_ & _ & ->).
    destruct (create_patients_frame n (Environment_init cap))
      as (_ & _ & _ & Hpq & _).
    unfold queue_order_inv. simpl. rewrite Hpq. simpl. split; constructor.
  - intros s s' R Hinv H.
    destruct (request_inv_reachable _ _ _ _ R) as (_ & FA & _).
    apply step_inv in H. destruct H as (it & q & E & H).
    destruct (clock_inv_pop s it q (clock_inv_reachable _ _ _ _ R) E)
      as ([_ HP] & _ & _).
    assert (H0 : queue_order_inv (set_now (due it) (set_queue q s)))
      by exact Hinv.
    assert (FA0 : Forall (fun r => (rid r < next_request
                            (set_now (due it) (set_queue q s)))%nat)
                    (put_queue (set_now (due it) (set_queue q s)))).
    { unfold in_flight in FA. apply Forall_app in FA. tauto. }
    set (s0 := set_now (due it) (set_queue q s)) in *. clearbody s0.
    destruct (event it); simpl in H.
    + apply continue_inv in H. unfold visit_a_and_e in H.
      apply timeout_inv in H. destruct H as [_ ->]. exact H0.
    + inversion H; subst s'. exact H0.
    + inversion H; subst s'. unfold process_patient, request.
      apply trigger_put_queue_order. destruct H0 as [H1 H2].
      unfold queue_order_inv. simpl. rewrite !map_app. simpl. split.
      * apply StronglySorted_snoc_gen; [exact H1|].
        apply Forall_map. exact FA0.
      * apply StronglySorted_snoc_gen; [exact H2|].
        apply Forall_map. exact HP.
    + apply continue_inv in H. unfold process_patient_granted in H.
      destruct (list_remove _ _) as [w|]; [|discriminate].
      apply timeout_inv in H. destruct H as [_ ->]. exact H0.
    + inversion H; subst s'. exact H0.
    + inversion H; subst s'. apply trigger_put_queue_order. exact H0.
    + inversion H; subst s'. exact H0.
    + discriminate.
Qed.

(** X12: the pending requests stand in the queue in the order of their
    creation and of their arrival times: of two pending requests the one
    ahead was made first and arrived no later; with the grant of the head
    alone this makes the patients seen in the order of their arrival. *)
Theorem pending_requests_in_arrival_order : forall cap n until s A B,
  reachable exponential triangular get_full_name cap n until s ->
  ahead A B (put_queue s) ->
  (rid A < rid B)%nat /\ req_arrival A <= req_arrival B.
Proof.
  intros cap n until s A B R (l1 & l2 & l3 & E).
  destruct (queue_order_inv_reachable _ _ _ _ R) as [H1 H2].
  rewrite E in H1, H2. rewrite !map_app in H1, H2. simpl in H1, H2.
  assert (G : forall (T : Type) (Rel : T -> T -> Prop) (f : Request -> T) l,
    StronglySorted Rel (map f l ++ f A :: map f (l2 ++ B :: l3)) ->
    Rel (f A) (f B)).
  { intros T Rel f l HS. induction l as [|x l IH]; simpl in HS.
    - apply StronglySorted_inv in HS. destruct HS as [_ HF].
      rewrite Forall_forall in HF. apply HF. apply in_map.
      apply in_or_app. right. left. reflexivity.
    - apply StronglySorted_inv in HS. destruct HS as [HS _]. apply IH.
      exact HS. }
  split; [apply (G nat lt rid l1) | apply (G Q Qle req_arrival l1)]; assumption.
Qed.

End Invariants.

(** ** The example runs *)

Lemma later_first : forall stp s s1 s',
  stp s = Continue s1 -> later stp s1 s' -> later stp s s'.
Proof.
  intros stp s s1 s' H L. induction L as [|s2 s3 L IH H2].
  - eapply later_step; [apply later_now | exact H].
  - eapply later_step; [exact IH | exact H2].
Qed.

Lemma run_loop_later : forall ex tr nm fuel s s',
  run_loop ex tr nm fuel s = Continue s' -> later (step ex tr nm) s s'.
Proof.
  intros ex tr nm fuel. induction fuel as [|f IH]; intros s s' H; simpl in H.
  - inversion H; subst. apply later_now.
  - destruct (step ex tr nm s) as [s1| | |] eqn:E; try discriminate.
    eapply later_first; [exact E | apply IH; exact H].
Qed.

Lemma demo_exponential_nonneg : forall scale k, 0 <= demo_exponential scale k.
Proof. intros scale k. unfold demo_exponential, Qle. simpl. lia. Qed.

Lemma demo_triangular_range : forall k,
  300 <= demo_triangular 300 1200 3600 k /\
  demo_triangular 300 1200 3600 k <= 3600.
Proof. intros k. unfold demo_triangular, Qle. simpl. lia. Qed.

Lemma demo_reachable : forall cap n fuel,
  demo_run cap n fuel = Continue (demo_state cap n fuel) ->
  reachable demo_exponential demo_triangular demo_name cap n seconds_in_month
    (demo_state cap n fuel).
Proof. intros cap n fuel H. eapply reachable_main. exact H. Qed.

Lemma demo_step : forall cap n fuel,
  demo_run cap n fuel = Continue (demo_state cap n fuel) ->
  demo_run cap n (S fuel) = Continue (demo_state cap n (S fuel)) ->
  step demo_exponential demo_triangular demo_name (demo_state cap n fuel) =
  Continue (demo_state cap n (S fuel)).
Proof.
  intros cap n fuel H1 H2. unfold demo_run, main in *.
  destruct (setup cap n seconds_in_month) as [s0|]; [|discriminate].
  revert s0 H1 H2. generalize (demo_state cap n (S fuel)) (demo_state cap n fuel).
  induction fuel as [|f IH]; intros s2 s1 s0 H1 H2.
  - simpl in H1, H2. inversion H1; subst.
    destruct (step demo_exponential demo_triangular demo_name s1); congruence.
  - simpl in H1. simpl in H2.
    destruct (step demo_exponential demo_triangular demo_name s0) as [s| | |];
      try discriminate.
    apply (IH s2 s1 s); assumption.
Qed.

(** C1 on the example run: both persons hold a slot of the two. *)
Lemma capacity_never_exceeded_witness :
  (Z.of_nat (List.length (users (demo_state 2 2 6))) <=
   capacity (demo_state 2 2 6))%Z.
Proof.
  assert (R : reachable demo_exponential demo_triangular demo_name 2 2
                seconds_in_month (demo_state 2 2 6))
    by (apply demo_reachable; vm_compute; reflexivity).
  exact (proj1 (capacity_never_exceeded demo_exponential demo_triangular
                  demo_name 2 2 seconds_in_month (demo_state 2 2 6) R)).
Defined.

(** C2 on the example run with one slot and three persons: requests 1 and 2
    wait in this order after nine steps; sixteen steps later both are
    granted. *)
Lemma fifo_grant_order_witness :
  ahead (nth 0 (put_queue (demo_state 1 3 9)) (mkRequest 0 0%nat 0))
        (nth 1 (put_queue (demo_state 1 3 9)) (mkRequest 0 0%nat 0))
        (put_queue (demo_state 1 3 9)) /\
  ~ In (nth 1 (put_queue (demo_state 1 3 9)) (mkRequest 0 0%nat 0))
       (put_queue (demo_state 1 3 25)) /\
  ~ In (nth 0 (put_queue (demo_state 1 3 9)) (mkRequest 0 0%nat 0))
       (put_queue (demo_state 1 3 25)).
Proof.
  assert (R : reachable demo_exponential demo_triangular demo_name 1 3
                seconds_in_month (demo_state 1 3 9))
    by (apply demo_reachable; vm_compute; reflexivity).
  assert (A : ahead (nth 0 (put_queue (demo_state 1 3 9)) (mkRequest 0 0%nat 0))
                    (nth 1 (put_queue (demo_state 1 3 9)) (mkRequest 0 0%nat 0))
                    (put_queue (demo_state 1 3 9)))
    by (exists [], [], []; vm_compute; reflexivity).
  assert (L : later (step demo_exponential demo_triangular demo_name)
                (demo_state 1 3 9) (demo_state 1 3 25))
    by (apply run_loop_later with (fuel := 16%nat); vm_compute; reflexivity).
  assert (B : ~ In (nth 1 (put_queue (demo_state 1 3 9)) (mkRequest 0 0%nat 0))
                   (put_queue (demo_state 1 3 25))).
  { vm_compute. intros [H|[]]. discriminate. }
  exact (conj A (conj B
           (proj1 (fifo_grant_order demo_exponential demo_triangular demo_name
                     1 3 seconds_in_month (demo_state 1 3 9)
                     (demo_state 1 3 25) _ _ R A L) B))).
Defined.

(** C3 on the example run: the first discharge pops the doctor's timeout
    of a request in flight and appends that visit's row. *)
Lemma wait_is_departure_minus_arrival_witness :
  event (popped (demo_state 2 2 10)) =
    Timeout_doctor (request_of (event (popped (demo_state 2 2 10)))) /\
  now (demo_state 2 2 11) = due (popped (demo_state 2 2 10)) /\
  Permutation (in_flight (demo_state 2 2 10))
    (request_of (event (popped (demo_state 2 2 10))) ::
     in_flight (demo_state 2 2 11)) /\
  In (req_arrival (request_of (event (popped (demo_state 2 2 10))))
      / 3600 / 24)
     (queue_admittance_time_days (demo_state 2 2 10)) /\
  patient_name (demo_state 2 2 11) =
    patient_name (demo_state 2 2 10) ++
    [demo_name
       (req_patient (request_of (event (popped (demo_state 2 2 10)))))] /\
  admittance_time_days (demo_state 2 2 11) =
    admittance_time_days (demo_state 2 2 10) ++
    [req_arrival (request_of (event (popped (demo_state 2 2 10))))
     / 3600 / 24] /\
  wait_time_hrs (demo_state 2 2 11) =
    wait_time_hrs (demo_state 2 2 10) ++
    [(now (demo_state 2 2 11) -
      req_arrival (request_of (event (popped (demo_state 2 2 10)))))
     / 3600] /\
  req_arrival (request_of (event (popped (demo_state 2 2 10)))) <
    now (demo_state 2 2 11) /\
  0 < (now (demo_state 2 2 11) -
       req_arrival (request_of (event (popped (demo_state 2 2 10)))))
      / 3600.
Proof.
  assert (T : forall k, 300 <= demo_triangular 300 1200 3600 k /\
                        demo_triangular 300 1200 3600 k <= 3600)
    by (intros k; unfold demo_triangular, Qle; simpl; lia).
  assert (R : reachable demo_exponential demo_triangular demo_name 2 2
                seconds_in_month (demo_state 2 2 10))
    by (apply demo_reachable; vm_compute; reflexivity).
  assert (H : step demo_exponential demo_triangular demo_name
                (demo_state 2 2 10) = Continue (demo_state 2 2 11))
    by (apply demo_step; vm_compute; reflexivity).
  assert (E : heappop (queue (demo_state 2 2 10)) =
              Some (popped (demo_state 2 2 10), unpopped (demo_state 2 2 10)))
    by (vm_compute; reflexivity).
  assert (Ev : event (popped (demo_state 2 2 10)) =
               Timeout_doctor (request_of (event (popped (demo_state 2 2 10)))))
    by (vm_compute; reflexivity).
  exact (conj Ev
    (proj1 (proj2 (proj2 (wait_is_departure_minus_arrival demo_exponential
                  demo_triangular demo_name T 2 2 seconds_in_month
                  (demo_state 2 2 10) (demo_state 2 2 11)
                  (popped (demo_state 2 2 10)) (unpopped (demo_state 2 2 10))
                  R H E)))
       (request_of (event (popped (demo_state 2 2 10)))) Ev)).
Defined.

(** C4 on the example run: person 0 resumes from the timeout. *)
Lemma arrival_process_ends_after_spawn_witness :
  draws (demo_state 2 2 3) = draws (demo_state 2 2 2) /\
  ~ In 0%nat (flat_map arriving (queue (demo_state 2 2 3))).
Proof.
  assert (R : reachable demo_exponential demo_triangular demo_name 2 2
                seconds_in_month (demo_state 2 2 2))
    by (apply demo_reachable; vm_compute; reflexivity).
  assert (H : step demo_exponential demo_triangular demo_name
                (demo_state 2 2 2) = Continue (demo_state 2 2 3))
    by (apply demo_step; vm_compute; reflexivity).
  assert (E : heappop (queue (demo_state 2 2 2)) =
              Some (popped (demo_state 2 2 2), unpopped (demo_state 2 2 2)))
    by (vm_compute; reflexivity).
  assert (Ev : event (popped (demo_state 2 2 2)) = Timeout_visit 0%nat)
    by (vm_compute; reflexivity).
  destruct (proj1 (arrival_process_ends_after_spawn demo_exponential
                     demo_triangular demo_name 2 2 seconds_in_month
                     (demo_state 2 2 2) (demo_state 2 2 3)
                     (popped (demo_state 2 2 2)) (unpopped (demo_state 2 2 2))
                     R H E) 0%nat Ev) as (A & _ & C).
  exact (conj A C).
Defined.

(** C5 on the example run: the first discharge. *)
Lemma service_process_ends_after_completion_witness :
  event (popped (demo_state 2 2 10)) =
    Timeout_doctor (request_of (event (popped (demo_state 2 2 10)))) /\
  ~ In (rid (request_of (event (popped (demo_state 2 2 10)))))
       (map rid (in_flight (demo_state 2 2 11))) /\
  ~ In (rid (request_of (event (popped (demo_state 2 2 10)))))
       (map rid (users (demo_state 2 2 11))).
Proof.
  assert (R : reachable demo_exponential demo_triangular demo_name 2 2
                seconds_in_month (demo_state 2 2 10))
    by (apply demo_reachable; vm_compute; reflexivity).
  assert (H : step demo_exponential demo_triangular demo_name
                (demo_state 2 2 10) = Continue (demo_state 2 2 11))
    by (apply demo_step; vm_compute; reflexivity).
  assert (E : heappop (queue (demo_state 2 2 10)) =
              Some (popped (demo_state 2 2 10), unpopped (demo_state 2 2 10)))
    by (vm_compute; reflexivity).
  assert (Ev : event (popped (demo_state 2 2 10)) =
               Timeout_doctor (request_of (event (popped (demo_state 2 2 10)))))
    by (vm_compute; reflexivity).
  exact (conj Ev
    (conj
      (proj1 (proj2 (service_process_ends_after_completion demo_exponential
                  demo_triangular demo_name 2 2 seconds_in_month
                  (demo_state 2 2 10) (demo_state 2 2 11)
                  (popped (demo_state 2 2 10)) (unpopped (demo_state 2 2 10))
                  (request_of (event (popped (demo_state 2 2 10))))
                  R H E Ev)))
      (proj1 (proj2 (proj2 (service_process_ends_after_completion
                  demo_exponential
                  demo_triangular demo_name 2 2 seconds_in_month
                  (demo_state 2 2 10) (demo_state 2 2 11)
                  (popped (demo_state 2 2 10)) (unpopped (demo_state 2 2 10))
                  (request_of (event (popped (demo_state 2 2 10))))
                  R H E Ev)))))).
Defined.

(** C6 on the example run: person 0 is granted and not resumed yet. *)
Lemma waiting_room_membership_witness :
  Permutation (waiting_room (demo_state 2 2 4))
    (map req_patient (put_queue (demo_state 2 2 4) ++
                      flat_map granted (queue (demo_state 2 2 4)))).
Proof.
  assert (T : forall k, 300 <= demo_triangular 300 1200 3600 k /\
                        demo_triangular 300 1200 3600 k <= 3600)
    by (intros k; unfold demo_triangular, Qle; simpl; lia).
  assert (R : reachable demo_exponential demo_triangular demo_name 2 2
                seconds_in_month (demo_state 2 2 4))
    by (apply demo_reachable; vm_compute; reflexivity).
  exact (proj1 (waiting_room_membership demo_exponential demo_triangular
                  demo_name T 2 2 seconds_in_month (demo_state 2 2 4) R)).
Defined.

(** C7 on the example run: one completion, two arrivals. *)
Lemma completions_le_arrivals_witness :
  (List.length (wait_time_hrs (demo_state 2 2 11)) <=
   List.length (queue_length (demo_state 2 2 11)))%nat.
Proof.
  assert (R : reachable demo_exponential demo_triangular demo_name 2 2
                seconds_in_month (demo_state 2 2 11))
    by (apply demo_reachable; vm_compute; reflexivity).
  exact (proj1 (completions_le_arrivals demo_exponential demo_triangular
                  demo_name 2 2 seconds_in_month (demo_state 2 2 11) R)).
Defined.

(** The heap of a state read backwards is another arrangement of it. *)
Lemma similar_rev : forall s, similar s (set_queue (rev (queue s)) s).
Proof.
  intros s. destruct s. split; simpl; [apply Permutation_rev | reflexivity].
Qed.

(** C8 on the example run: four events are due at one time; from the heap
    read backwards the same event is popped, and twenty iterations pop the
    same events and end alike. *)
Lemma pop_order_and_determinism_witness :
  Forall (fun y =>
            due (popped (demo_state 2 2 3)) <= due y /\
            (due (popped (demo_state 2 2 3)) == due y ->
             (priority (popped (demo_state 2 2 3)) < priority y)%Z \/
             (priority (popped (demo_state 2 2 3)) = priority y /\
              (seq_no (popped (demo_state 2 2 3)) < seq_no y)%nat)))
    (unpopped (demo_state 2 2 3)) /\
  (exists r2,
     heappop (queue (set_queue (rev (queue (demo_state 2 2 3)))
                       (demo_state 2 2 3))) =
       Some (popped (demo_state 2 2 3), r2) /\
     Permutation (unpopped (demo_state 2 2 3)) r2) /\
  fired demo_exponential demo_triangular demo_name 20%nat
    (set_queue (rev (queue (demo_state 2 2 3))) (demo_state 2 2 3)) =
  fired demo_exponential demo_triangular demo_name 20%nat (demo_state 2 2 3) /\
  outcome_similar
    (run_loop demo_exponential demo_triangular demo_name 20%nat
       (demo_state 2 2 3))
    (run_loop demo_exponential demo_triangular demo_name 20%nat
       (set_queue (rev (queue (demo_state 2 2 3))) (demo_state 2 2 3))).
Proof.
  assert (R : reachable demo_exponential demo_triangular demo_name 2 2
                seconds_in_month (demo_state 2 2 3))
    by (apply demo_reachable; vm_compute; reflexivity).
  assert (E : heappop (queue (demo_state 2 2 3)) =
              Some (popped (demo_state 2 2 3), unpopped (demo_state 2 2 3)))
    by (vm_compute; reflexivity).
  pose proof (pop_order_and_determinism demo_exponential demo_triangular
                demo_name 2 2 seconds_in_month (demo_state 2 2 3)
                (popped (demo_state 2 2 3)) (unpopped (demo_state 2 2 3))
                R E) as W.
  exact (conj (proj1 W)
          (conj (proj1 (proj2 W _ (similar_rev (demo_state 2 2 3))))
             (proj2 (proj2 W _ (similar_rev (demo_state 2 2 3)))
                demo_exponential demo_triangular demo_name 20%nat
                (fun _ _ _ => eq_refl) (fun _ _ _ _ _ => eq_refl)
                (fun _ => eq_refl)))).
Defined.

(** C9 at capacity 0. *)
Lemma nonpositive_capacity_fails_fast_witness :
  AccidentEmergencyDepartment_init 0 = None /\ demo_run 0 2 5 = ValueError.
Proof.
  assert (H : (0 <= 0)%Z) by lia.
  exact (conj
    (proj1 (nonpositive_capacity_fails_fast demo_exponential demo_triangular
              demo_name 0 H))
    (proj1 (proj2 (proj2 (nonpositive_capacity_fails_fast demo_exponential
              demo_triangular demo_name 0 H) 2%nat seconds_in_month)) 5%nat)).
Defined.

(** C10 on the example run: both persons sit in the waiting room. *)
Lemma one_visit_per_person_witness :
  NoDup (waiting_room (demo_state 2 2 6)).
Proof.
  assert (R : reachable demo_exponential demo_triangular demo_name 2 2
                seconds_in_month (demo_state 2 2 6))
    by (apply demo_reachable; vm_compute; reflexivity).
  exact (proj1 (proj2 (proj2 (one_visit_per_person demo_exponential
                  demo_triangular demo_name 2 2 seconds_in_month
                  (demo_state 2 2 6) R)))).
Defined.

(** ** Further properties on the example runs *)

(** X1 on the example run: the clock after eleven steps. *)
Lemma clock_monotone_within_horizon_witness :
  0 <= now (demo_state 2 2 11) /\ now (demo_state 2 2 11) <= seconds_in_month /\
  now (demo_state 2 2 4) <= now (demo_state 2 2 11).
Proof.
  assert (T : forall k, 300 <= demo_triangular 300 1200 3600 k /\
                        demo_triangular 300 1200 3600 k <= 3600)
    by (intros k; unfold demo_triangular, Qle; simpl; lia).
  assert (R : reachable demo_exponential demo_triangular demo_name 2 2
                seconds_in_month (demo_state 2 2 11))
    by (apply demo_reachable; vm_compute; reflexivity).
  assert (R4 : reachable demo_exponential demo_triangular demo_name 2 2
                 seconds_in_month (demo_state 2 2 4))
    by (apply demo_reachable; vm_compute; reflexivity).
  assert (L : later (step demo_exponential demo_triangular demo_name)
                (demo_state 2 2 4) (demo_state 2 2 11))
    by (apply run_loop_later with (fuel := 7%nat); vm_compute; reflexivity).
  exact (conj
    (proj1 (clock_monotone_within_horizon demo_exponential demo_triangular
              demo_name T 2 2 seconds_in_month (demo_state 2 2 11) R))
    (conj
      (proj1 (proj2 (clock_monotone_within_horizon demo_exponential
                 demo_triangular demo_name T 2 2 seconds_in_month
                 (demo_state 2 2 11) R)))
      (proj2 (proj2 (clock_monotone_within_horizon demo_exponential
                 demo_triangular demo_name T 2 2 seconds_in_month
                 (demo_state 2 2 4) R4)) (demo_state 2 2 11) L))).
Defined.

(** X2 on the run with the horizon at 700 seconds: its last step. *)
Lemma run_ends_only_at_horizon_witness :
  step demo_exponential demo_triangular demo_name (short_state 26) =
    StopSimulation (short_stop 27) /\
  now (short_stop 27) == 700.
Proof.
  assert (X : forall scale k, 0 <= demo_exponential scale k)
    by (intros scale k; unfold demo_exponential, Qle; simpl; lia).
  assert (T : forall k, 300 <= demo_triangular 300 1200 3600 k /\
                        demo_triangular 300 1200 3600 k <= 3600)
    by (intros k; unfold demo_triangular, Qle; simpl; lia).
  assert (R : reachable demo_exponential demo_triangular demo_name 2 2 700
                (short_state 26))
    by (apply reachable_main with (fuel := 26%nat); vm_compute; reflexivity).
  assert (H : step demo_exponential demo_triangular demo_name (short_state 26) =
              StopSimulation (short_stop 27))
    by (vm_compute; reflexivity).
  exact (conj H
    (proj1 (proj2 (proj2 (run_ends_only_at_horizon demo_exponential
              demo_triangular demo_name X T 2 2 700 (short_state 26) R))
            (short_stop 27) H))).
Defined.

(** X3 on the run with the horizon at 700 seconds. *)
Lemma run_reaches_horizon_witness :
  exists s,
    main demo_exponential demo_triangular demo_name 2 2 700 (step_bound 2 700) =
      StopSimulation s /\
    now s == 700.
Proof.
  assert (X : forall scale k, 0 <= demo_exponential scale k)
    by (intros scale k; unfold demo_exponential, Qle; simpl; lia).
  assert (T : forall k, 300 <= demo_triangular 300 1200 3600 k /\
                        demo_triangular 300 1200 3600 k <= 3600)
    by (intros k; unfold demo_triangular, Qle; simpl; lia).
  assert (C : (0 < 2)%Z) by lia.
  assert (U : 0 < 700) by reflexivity.
  exact (run_reaches_horizon demo_exponential demo_triangular demo_name X T
           2 2 700 (step_bound 2 700) C U (le_n (step_bound 2 700))).
Defined.

(** X4 on the example run: one completion, two arrivals. *)
Lemma tables_are_rectangular_witness :
  List.length (queue_admittance_time_days (demo_state 2 2 11)) =
    List.length (queue_length (demo_state 2 2 11)) /\
  List.length (patient_name (demo_state 2 2 11)) =
    List.length (wait_time_hrs (demo_state 2 2 11)) /\
  List.length (admittance_time_days (demo_state 2 2 11)) =
    List.length (wait_time_hrs (demo_state 2 2 11)).
Proof.
  assert (R : reachable demo_exponential demo_triangular demo_name 2 2
                seconds_in_month (demo_state 2 2 11))
    by (apply demo_reachable; vm_compute; reflexivity).
  exact (proj1 (tables_are_rectangular demo_exponential demo_triangular
                  demo_name 2 2 seconds_in_month (demo_state 2 2 11) R)).
Defined.

(** X5 on the example run: the recorded lengths are 1 and 2. *)
Lemma queue_length_between_one_and_population_witness :
  Forall (fun k => (1 <= k <= 2)%nat) (queue_length (demo_state 2 2 6)).
Proof.
  assert (R : reachable demo_exponential demo_triangular demo_name 2 2
                seconds_in_month (demo_state 2 2 6))
    by (apply demo_reachable; vm_compute; reflexivity).
  exact (proj1 (queue_length_between_one_and_population demo_exponential
                  demo_triangular demo_name 2 2 seconds_in_month
                  (demo_state 2 2 6) R)).
Defined.

(** X6 on the example run. *)
Lemma arrival_table_in_time_order_witness :
  StronglySorted Qle (queue_admittance_time_days (demo_state 2 2 11)) /\
  incl (admittance_time_days (demo_state 2 2 11))
       (queue_admittance_time_days (demo_state 2 2 11)).
Proof.
  assert (T : forall k, 300 <= demo_triangular 300 1200 3600 k /\
                        demo_triangular 300 1200 3600 k <= 3600)
    by (intros k; unfold demo_triangular, Qle; simpl; lia).
  assert (R : reachable demo_exponential demo_triangular demo_name 2 2
                seconds_in_month (demo_state 2 2 11))
    by (apply demo_reachable; vm_compute; reflexivity).
  exact (conj
    (proj1 (arrival_table_in_time_order demo_exponential demo_triangular
              demo_name T 2 2 seconds_in_month (demo_state 2 2 11) R))
    (proj2 (proj2 (arrival_table_in_time_order demo_exponential
              demo_triangular demo_name T 2 2 seconds_in_month
              (demo_state 2 2 11) R)))).
Defined.

(** X8 on the example run: two persons, two slots; person 0 arrives. *)
Lemma no_queue_with_a_slot_per_person_witness :
  put_queue (demo_state 2 2 3) = [] /\
  Forall (fun i => forall r, event i = Request_granted r ->
                             req_arrival r == due i)
    (queue (demo_state 2 2 3)) /\
  users (demo_state 2 2 4) =
    users (demo_state 2 2 3) ++
    [mkRequest (next_request (demo_state 2 2 3)) 0%nat
       (due (popped (demo_state 2 2 3)))] /\
  waiting_room (demo_state 2 2 4) = waiting_room (demo_state 2 2 3) ++ [0%nat] /\
  put_queue (demo_state 2 2 4) = [].
Proof.
  assert (N : (Z.of_nat 2 <= 2)%Z) by (simpl; lia).
  assert (R : reachable demo_exponential demo_triangular demo_name 2 2
                seconds_in_month (demo_state 2 2 3))
    by (apply demo_reachable; vm_compute; reflexivity).
  assert (H : step demo_exponential demo_triangular demo_name
                (demo_state 2 2 3) = Continue (demo_state 2 2 4))
    by (apply demo_step; vm_compute; reflexivity).
  assert (E : heappop (queue (demo_state 2 2 3)) =
              Some (popped (demo_state 2 2 3), unpopped (demo_state 2 2 3)))
    by (vm_compute; reflexivity).
  assert (Ev : event (popped (demo_state 2 2 3)) = Initialize_patient 0%nat)
    by (vm_compute; reflexivity).
  pose proof (no_queue_with_a_slot_per_person demo_exponential demo_triangular
                demo_name 2 2 seconds_in_month (demo_state 2 2 3) N R) as W.
  exact (conj (proj1 W)
          (conj (proj1 (proj2 W))
             (proj2 (proj2 W) _ _ _ _ H E Ev))).
Defined.

(** X9 on the example run with one slot and three persons: after the
    first discharge the slot is free and two requests are pending. *)
Lemma free_slot_is_handed_on_witness :
  exists i, In i (queue (demo_state 1 3 14)) /\ event i = Release /\
            due i == now (demo_state 1 3 14).
Proof.
  assert (T : forall k, 300 <= demo_triangular 300 1200 3600 k /\
                        demo_triangular 300 1200 3600 k <= 3600)
    by (intros k; unfold demo_triangular, Qle; simpl; lia).
  assert (R : reachable demo_exponential demo_triangular demo_name 1 3
                seconds_in_month (demo_state 1 3 14))
    by (apply demo_reachable; vm_compute; reflexivity).
  assert (P : put_queue (demo_state 1 3 14) <> [])
    by (vm_compute; discriminate).
  assert (F : (Z.of_nat (List.length (users (demo_state 1 3 14))) <
               capacity (demo_state 1 3 14))%Z)
    by (vm_compute; reflexivity).
  exact (free_slot_is_handed_on demo_exponential demo_triangular demo_name T
           1 3 seconds_in_month (demo_state 1 3 14) R P F).
Defined.

(** X10 on the example run: the first discharge. *)
Lemma release_frees_its_own_slot_witness :
  In (request_of (event (popped (demo_state 2 2 10))))
     (users (demo_state 2 2 10)) /\
  Permutation (users (demo_state 2 2 10))
    (request_of (event (popped (demo_state 2 2 10)))
     :: users (demo_state 2 2 11)).
Proof.
  assert (R : reachable demo_exponential demo_triangular demo_name 2 2
                seconds_in_month (demo_state 2 2 10))
    by (apply demo_reachable; vm_compute; reflexivity).
  assert (H : step demo_exponential demo_triangular demo_name
                (demo_state 2 2 10) = Continue (demo_state 2 2 11))
    by (apply demo_step; vm_compute; reflexivity).
  assert (E : heappop (queue (demo_state 2 2 10)) =
              Some (popped (demo_state 2 2 10), unpopped (demo_state 2 2 10)))
    by (vm_compute; reflexivity).
  assert (Ev : event (popped (demo_state 2 2 10)) =
               Timeout_doctor (request_of (event (popped (demo_state 2 2 10)))))
    by (vm_compute; reflexivity).
  exact (proj2 (proj2 (release_frees_its_own_slot demo_exponential
                  demo_triangular demo_name 2 2 seconds_in_month
                  (demo_state 2 2 10) R))
           (demo_state 2 2 11) (popped (demo_state 2 2 10))
           (unpopped (demo_state 2 2 10))
           (request_of (event (popped (demo_state 2 2 10)))) H E Ev).
Defined.

(** X11 on the example run: from the fourth to the eleventh step. *)
Lemma tables_only_grow_witness :
  (exists l, queue_length (demo_state 2 2 11) =
             queue_length (demo_state 2 2 4) ++ l) /\
  (exists l, wait_time_hrs (demo_state 2 2 11) =
             wait_time_hrs (demo_state 2 2 4) ++ l).
Proof.
  assert (L : later (step demo_exponential demo_triangular demo_name)
                (demo_state 2 2 4) (demo_state 2 2 11))
    by (apply run_loop_later with (fuel := 7%nat); vm_compute; reflexivity).
  exact (conj
    (proj1 (tables_only_grow demo_exponential demo_triangular demo_name
              (demo_state 2 2 4) (demo_state 2 2 11) L))
    (proj2 (proj2 (proj2 (proj2 (tables_only_grow demo_exponential
              demo_triangular demo_name (demo_state 2 2 4)
              (demo_state 2 2 11) L)))))).
Defined.

(** X12 on the example run with one slot and three persons. *)
Lemma pending_requests_in_arrival_order_witness :
  (rid (nth 0 (put_queue (demo_state 1 3 9)) (mkRequest 0 0%nat 0)) <
   rid (nth 1 (put_queue (demo_state 1 3 9)) (mkRequest 0 0%nat 0)))%nat /\
  req_arrival (nth 0 (put_queue (demo_state 1 3 9)) (mkRequest 0 0%nat 0)) <=
  req_arrival (nth 1 (put_queue (demo_state 1 3 9)) (mkRequest 0 0%nat 0)).
Proof.
  assert (T : forall k, 300 <= demo_triangular 300 1200 3600 k /\
                        demo_triangular 300 1200 3600 k <= 3600)
    by (intros k; unfold demo_triangular, Qle; simpl; lia).
  assert (R : reachable demo_exponential demo_triangular demo_name 1 3
                seconds_in_month (demo_state 1 3 9))
    by (apply demo_reachable; vm_compute; reflexivity).
  assert (A : ahead (nth 0 (put_queue (demo_state 1 3 9)) (mkRequest 0 0%nat 0))
                    (nth 1 (put_queue (demo_state 1 3 9)) (mkRequest 0 0%nat 0))
                    (put_queue (demo_state 1 3 9)))
    by (exists [], [], []; vm_compute; reflexivity).
  exact (pending_requests_in_arrival_order demo_exponential demo_triangular
           demo_name T 1 3 seconds_in_month (demo_state 1 3 9) _ _ R A).
Defined.

(** ** Where the code departs from the specification *)

(** C4 fails on the example run: when the arrival process of person 0 has
    started the service process (third step) it has made no new draw and no
    arrival process of person 0 is left; none exists either while both
    persons are served (after ten steps), and the next one appears with the
    discharge (eleventh step). *)
Lemma arrival_process_does_not_repeat :
  event (popped (demo_state 2 2 2)) = Timeout_visit 0%nat /\
  step demo_exponential demo_triangular demo_name (demo_state 2 2 2) =
    Continue (demo_state 2 2 3) /\
  draws (demo_state 2 2 3) = draws (demo_state 2 2 2) /\
  flat_map arriving (queue (demo_state 2 2 3)) = [1%nat] /\
  flat_map arriving (queue (demo_state 2 2 10)) = [] /\
  flat_map arriving (queue (demo_state 2 2 11)) = [0%nat].
Proof.
  apply conj; [vm_compute; reflexivity|].
  apply conj; [apply demo_step; vm_compute; reflexivity|].
  repeat (apply conj; [vm_compute; reflexivity|]).
  vm_compute. reflexivity.
Qed.

(** C6 fails on the example run: after four steps person 0 is a user of the
    resource, no request is pending, and person 0 is still in the waiting
    room; two steps later the second arrival has recorded a queue of two
    although nobody ever waited for a slot. *)
Lemma waiting_room_keeps_granted_patient :
  reachable demo_exponential demo_triangular demo_name 2 2 seconds_in_month
    (demo_state 2 2 4) /\
  map req_patient (users (demo_state 2 2 4)) = [0%nat] /\
  put_queue (demo_state 2 2 4) = [] /\
  waiting_room (demo_state 2 2 4) = [0%nat] /\
  ~ Permutation (waiting_room (demo_state 2 2 4))
      (map req_patient (put_queue (demo_state 2 2 4))) /\
  queue_length (demo_state 2 2 6) = [1%nat; 2%nat] /\
  put_queue (demo_state 2 2 6) = [].
Proof.
  apply conj; [apply demo_reachable; vm_compute; reflexivity|].
  repeat (apply conj; [vm_compute; reflexivity|]).
  apply conj.
  - intros P. apply Permutation_length in P. vm_compute in P. discriminate.
  - apply conj; vm_compute; reflexivity.
Qed.

(** C8 fails on the example run: after three steps the timeout of person 1
    (event 4) and the start of the service process of person 0 (event 5,
    created later) are due at the same time, and the later one is popped
    first. *)
Lemma urgent_event_overtakes_earlier_one :
  reachable demo_exponential demo_triangular demo_name 2 2 seconds_in_month
    (demo_state 2 2 3) /\
  heappop (queue (demo_state 2 2 3)) =
    Some (popped (demo_state 2 2 3), unpopped (demo_state 2 2 3)) /\
  event (popped (demo_state 2 2 3)) = Initialize_patient 0%nat /\
  seq_no (popped (demo_state 2 2 3)) = 5%nat /\
  In (nth 1 (unpopped (demo_state 2 2 3)) (popped (demo_state 2 2 3)))
     (unpopped (demo_state 2 2 3)) /\
  event (nth 1 (unpopped (demo_state 2 2 3)) (popped (demo_state 2 2 3))) =
    Timeout_visit 1%nat /\
  seq_no (nth 1 (unpopped (demo_state 2 2 3)) (popped (demo_state 2 2 3))) =
    4%nat /\
  due (nth 1 (unpopped (demo_state 2 2 3)) (popped (demo_state 2 2 3))) ==
    due (popped (demo_state 2 2 3)).
Proof.
  apply conj; [apply demo_reachable; vm_compute; reflexivity|].
  repeat (apply conj; [vm_compute; reflexivity|]).
  apply conj; [vm_compute; right; left; reflexivity|].
  repeat (apply conj; [vm_compute; reflexivity|]).
  vm_compute. reflexivity.
Qed.
